(** * Birthday tree and photo-particle portrait (main.js): model and properties

    A shallow embedding of the animation core of [src/main.js]: the utility
    functions, the scene sequencer, the recursive tree generator, the growth
    revealer, the image sampler and the particle field.

    Conventions of the embedding.
    - A JavaScript number is an exact rational ([Q]); [Math.floor] is
      [Qfloor], [Math.min]/[Math.max] are [Qmin]/[Qmax].  Integers that the
      code keeps integral (viewport size after [Math.floor], recursion depth,
      canvas size) are [Z].  The one place where the code can produce [NaN]
      (reading a pixel at an index that is not in the pixel array) is
      modelled with [option].
    - The code itself computes in IEEE 754 binary64.  A property that
      compares a computed number with a threshold is stated on the number as
      the code computes it (the scene clock as it is added up tick by tick,
      a bound as the code's own sum or product), a bound that a rounded
      product can reach is closed, and a concrete run that lands on a
      threshold passes through binary64 numbers only.  Where rounding is the
      point, the scene clock and the growth revealer are embedded a second
      time over binary64 floats (the definitions ending in [_f64]) and
      evaluated there.
    - [Math.random] reads an oracle [nat -> Q] at a cursor that advances by
      one per call; the oracle is threaded through a state monad.
    - An uncaught [TypeError], and a loop that runs out of fuel, is [None].
    - [Math.cos], [Math.sin], [Math.PI] and the canvas read-back
      ([getImageData] after [clearRect] and [drawCover]) are parameters of
      the development; the read-back is taken to return its pixel array.
      The browser's [getImageData] throws when the width it is given
      truncates to 0, which is the case at viewport widths 0 and 1: there
      the model, whose read-back is total, builds a portrait where the code
      throws.  The properties of [update], [frame] and whole runs are
      therefore stated for viewports at least 2 wide; in the properties of
      the portrait cycle, which bound counts at every viewport, the part
      that says a tick returns is about the model.
    - Drawing reads the state and does not change it; of the drawing code
      the model keeps what is computed before the canvas is touched: the
      number of segments [tree.draw] reveals. *)

From Stdlib Require Import List ZArith QArith Qminmax Qround Qabs Lia Lqa Bool
  Permutation Sorted Floats Uint63.
Import ListNotations.
Local Open Scope Q_scope.

(** ** Numbers and arrays *)

Definition Qltb (a b : Q) : bool := negb (Qle_bool b a).

Definition Math_floor (v : Q) : Q := inject_Z (Qfloor v).

Definition Qnat (n : nat) : Q := inject_Z (Z.of_nat n).

Definition is_integer (i : Q) : bool := Qeq_bool (Math_floor i) i.

(** [arr[i]] for a number [i]: [undefined] unless [i] is an index of [arr]. *)
Definition js_index {A : Type} (arr : list A) (i : Q) : option A :=
  if is_integer i && Qle_bool 0 i
  then nth_error arr (Z.to_nat (Qfloor i))
  else None.

(** [arr[i] = v] on a possibly sparse array: holes are [None]. *)
Fixpoint js_set {A : Type} (arr : list (option A)) (i : nat) (v : A)
  : list (option A) :=
  match i, arr with
  | O, [] => [Some v]
  | O, _ :: rest => Some v :: rest
  | S i', [] => None :: js_set [] i' v
  | S i', a :: rest => a :: js_set rest i' v
  end.

(** ** Utilities (main.js, lines 49-53) *)

Definition clamp (v a b : Q) : Q := Qmax a (Qmin b v).
Definition lerp (a b t : Q) : Q := a + (b - a) * t.
Definition smoothstep (t : Q) : Q := t * t * (3 - 2 * t).

(** ** The random source and the effect monad *)

Record Rng := { oracle : nat -> Q; cursor : nat }.

Definition M (A : Type) : Type := Rng -> option (A * Rng).

Definition ret {A : Type} (a : A) : M A := fun r => Some (a, r).

Definition bind {A B : Type} (m : M A) (k : A -> M B) : M B :=
  fun r => match m r with
           | Some (a, r') => k a r'
           | None => None
           end.

Definition throw {A : Type} : M A := fun _ => None.

Notation "x <- m ;; k" := (bind m (fun x => k))
  (at level 61, m at next level, right associativity).

Definition Math_random : M Q :=
  fun r => Some (oracle r (cursor r),
                 {| oracle := oracle r; cursor := S (cursor r) |}).

Definition rand (a b : Q) : M Q :=
  u <- Math_random ;; ret (a + u * (b - a)).

Definition randi (a b : Q) : M Q :=
  u <- Math_random ;; ret (a + Math_floor (u * (b - a + 1))).

(** [for (let i = i0; i < i0 + n; i++) body]. *)
Fixpoint for_count {St : Type} (n : nat) (i : nat) (body : nat -> St -> M St)
  (s : St) : M St :=
  match n with
  | O => ret s
  | S n' => s' <- body i s ;; for_count n' (S i) body s'
  end.

(** [for (let v = v0; v < bound; v += step) body]; [None] when the fuel is
    used up before the guard fails. *)
Fixpoint for_step {St : Type} (fuel : nat) (v bound step : Q)
  (body : Q -> St -> M St) (s : St) : M St :=
  if Qltb v bound then
    match fuel with
    | O => throw
    | S fuel' =>
        s' <- body v s ;; for_step fuel' (v + step) bound step body s'
    end
  else ret s.

(** The oracle is a valid [Math.random]: every draw is in [0, 1). *)
Definition unit_interval (r : Rng) : Prop :=
  forall n : nat, 0 <= oracle r n /\ oracle r n < 1.

(** ** Canvas state and viewport (main.js, lines 24-44) *)

Record State := {
  st_w : Z;
  st_h : Z;
  st_dpr : Q;
  st_t0 : Q;
  st_now : Q;
  st_dt : Q;
  st_running : bool
}.

Definition resize (innerWidth innerHeight devicePixelRatio : Q) (s : State)
  : State :=
  let ratio := if Qeq_bool devicePixelRatio 0 then 1 else devicePixelRatio in
  {| st_w := Qfloor innerWidth;
     st_h := Qfloor innerHeight;
     st_dpr := Qmax 1 (Qmin 2 ratio);
     st_t0 := st_t0 s;
     st_now := st_now s;
     st_dt := st_dt s;
     st_running := st_running s |}.

(** ** Progressive image loader (main.js, lines 78-125) *)

(** A decoded image is an opaque handle. *)
Definition Img := nat.

Record Tile := { tile_ok : bool; tile_img : option Img }.

Record Images := {
  face_ok : bool;
  face_img : option Img;
  tiles : list (option Tile);
  tilesReadyCount : nat
}.

Record LoadResult := { res_ok : bool; res_img : option Img }.

Definition face_loaded (res : LoadResult) (im : Images) : Images :=
  if res_ok res
  then {| face_ok := true; face_img := res_img res;
          tiles := tiles im; tilesReadyCount := tilesReadyCount im |}
  else im.

Definition tile_loaded (i : nat) (res : LoadResult) (im : Images) : Images :=
  {| face_ok := face_ok im;
     face_img := face_img im;
     tiles := js_set (tiles im) (i - 1)
                {| tile_ok := res_ok res; tile_img := res_img res |};
     tilesReadyCount :=
       if res_ok res then S (tilesReadyCount im) else tilesReadyCount im |}.

Fixpoint pickTile (k : nat) (ts : list (option Tile)) : M (option Img) :=
  match k with
  | O => ret None
  | S k' =>
      idx <- randi 0 (Qnat (length ts) - 1) ;;
      match js_index ts idx with
      | Some (Some {| tile_ok := true; tile_img := Some img |}) =>
          ret (Some img)
      | _ => pickTile k' ts
      end
  end.

Definition getRandomTileImage (images : Images) : M (option Img) :=
  match tiles images with
  | [] => ret None
  | ts => pickTile 6 ts
  end.

(** ** Scene system (main.js, lines 130-144) *)

Inductive SceneName := SEED | TREE | PAUSE | FACE.

Record Scene := { name : SceneName; timeIn : Q }.

Definition switchTo (next : SceneName) (sc : Scene) : Scene :=
  {| name := next; timeIn := 0 |}.

(** ** Seed (main.js, lines 149-164) *)

Record Seed := { seed_x : Q; seed_y : Q; seed_r : Q; bloom : Q }.

Definition seed_init (s : State) : Seed :=
  {| seed_x := inject_Z (st_w s) * 0.5;
     seed_y := inject_Z (st_h s) * 0.78;
     seed_r := Qmax 5 (Qmin 10 (inject_Z (st_w s) * 0.01));
     bloom := 0 |}.

Definition seed_update (sc : Scene) (sd : Seed) : Seed :=
  let t := clamp (timeIn sc / 2.2) 0 1 in
  {| seed_x := seed_x sd; seed_y := seed_y sd; seed_r := seed_r sd;
     bloom := smoothstep t |}.

(** ** Procedural tree (main.js, lines 193-342) *)

Record Point := { p_x : Q; p_y : Q }.

Record Segment := {
  p0 : Point; p1 : Point; p2 : Point; p3 : Point;
  seg_thickness : Q;
  seg_depth : Z;
  seg_swaySeed : Q
}.

Record Node := {
  node_x : Q; node_y : Q;
  angle : Q;
  len : Q;
  thickness : Q;
  depth : Z;
  swaySeed : Q
}.

Record Tree := {
  segments : list Segment;
  grown : bool;
  progress : Q;
  baseX : Q;
  baseY : Q
}.

Definition cubicBezier (a b c d t : Q) : Q :=
  let mt := 1 - t in
  (mt * mt * mt) * a + 3 * (mt * mt) * t * b + 3 * mt * (t * t) * c
  + (t * t * t) * d.

Definition push_segment (s : Segment) (tr : Tree) : Tree :=
  {| segments := segments tr ++ [s];
     grown := grown tr; progress := progress tr;
     baseX := baseX tr; baseY := baseY tr |}.

(** The comparator of [segments.sort], and [Array.prototype.sort] as the
    stable sort it is: an element goes before the first one it does not
    compare greater than. *)
Definition compareSegments (a b : Segment) : Q :=
  let d := inject_Z (seg_depth a) - inject_Z (seg_depth b) in
  if Qeq_bool d 0 then p_y (p0 b) - p_y (p0 a) else d.

Fixpoint insertSorted {A : Type} (cmp : A -> A -> Q) (a : A) (l : list A)
  : list A :=
  match l with
  | [] => [a]
  | b :: rest =>
      if Qle_bool (cmp a b) 0 then a :: l else b :: insertSorted cmp a rest
  end.

Definition array_sort {A : Type} (cmp : A -> A -> Q) (l : list A) : list A :=
  fold_right (insertSorted cmp) [] l.

Definition growTime (w : Q) : Q := clamp (6.5 - w / 900) 4.8 7.2.

Definition tree_update (s : State) (sc : Scene) (tr : Tree) : Tree :=
  let t := clamp (timeIn sc / growTime (inject_Z (st_w s))) 0 1 in
  {| segments := segments tr;
     grown := Qle_bool 1 t;
     progress := smoothstep t;
     baseX := baseX tr; baseY := baseY tr |}.

(** The number of segments [tree.draw] strokes (main.js, lines 282-283). *)
Definition revealCount (tr : Tree) : Z :=
  Qfloor (Qnat (length (segments tr)) * progress tr).

Section Geometry.

(** [Math.cos], [Math.sin] and [Math.PI]. *)
Variable cos sin : Q -> Q.
Variable PI : Q.

Definition segment_of (n : Node) (bend : Q) : Segment :=
  let x := node_x n in
  let y := node_y n in
  {| p0 := {| p_x := x; p_y := y |};
     p1 := {| p_x := x + cos (angle n + bend) * (len n * 0.35);
              p_y := y + sin (angle n + bend) * (len n * 0.35) |};
     p2 := {| p_x := x + cos (angle n - bend * 0.3) * (len n * 0.7);
              p_y := y + sin (angle n - bend * 0.3) * (len n * 0.7) |};
     p3 := {| p_x := x + cos (angle n + bend * 0.15) * len n;
              p_y := y + sin (angle n + bend * 0.15) * len n |};
     seg_thickness := thickness n;
     seg_depth := depth n;
     seg_swaySeed := swaySeed n |}.

Definition branchCount (d : Z) : M nat :=
  if (d <? 2)%Z then ret 2%nat
  else u <- Math_random ;; ret (if Qltb u 0.65 then 2%nat else 1%nat).

Definition child_of (n : Node) (s : Segment) (maxDepth : Z) (i : nat)
  : M Node :=
  t <- rand 0.45 0.88 ;;
  let bx := cubicBezier (p_x (p0 s)) (p_x (p1 s)) (p_x (p2 s)) (p_x (p3 s)) t in
  let by_ := cubicBezier (p_y (p0 s)) (p_y (p1 s)) (p_y (p2 s)) (p_y (p3 s)) t in
  kl <- rand 0.58 0.78 ;;
  kt <- rand 0.62 0.78 ;;
  da <- rand (-0.75) 0.75 ;;
  ret {| node_x := bx;
         node_y := by_;
         angle := angle n
                  + da * (1 - inject_Z (depth n) / inject_Z (maxDepth + 1));
         len := len n * kl;
         thickness := thickness n * kt;
         depth := (depth n + 1)%Z;
         swaySeed := swaySeed n + Qnat i * 97.13 + inject_Z (depth n) * 33.7 |}.

(** [tree._growRecursive].  Beside the tree, the function threads a ghost
    log: the nodes it was invoked with, in invocation order.  The fuel bounds
    the nesting of the recursion. *)
Fixpoint growRec (fuel : nat) (node : Node) (maxDepth : Z)
  (st : Tree * list Node) : M (Tree * list Node) :=
  match fuel with
  | O => throw
  | S fuel' =>
      let '(tr, calls) := st in
      let calls := calls ++ [node] in
      bend <- rand (-0.35) 0.35 ;;
      let s := segment_of node bend in
      let tr := push_segment s tr in
      if (depth node >=? maxDepth)%Z then ret (tr, calls)
      else
        bc <- branchCount (depth node) ;;
        for_count bc 0
          (fun i st' =>
             child <- child_of node s maxDepth i ;;
             growRec fuel' child maxDepth st')
          (tr, calls)
  end.

(** Nesting never exceeds [maxDepth - depth + 1] invocations. *)
Definition _growRecursive (node : Node) (maxDepth : Z)
  (st : Tree * list Node) : M (Tree * list Node) :=
  growRec (S (Z.to_nat (maxDepth - depth node))) node maxDepth st.

(** [tree.init], returning the tree and the ghost invocation log. *)
Definition tree_init_traced (s : State) : M (Tree * list Node) :=
  let bx := inject_Z (st_w s) * 0.5 in
  let by_ := inject_Z (st_h s) * 0.82 in
  let tr := {| segments := []; grown := false; progress := 0;
               baseX := bx; baseY := by_ |} in
  let trunkLen := Qmin 260 (inject_Z (st_h s) * 0.32) in
  seed0 <- rand 0 1000 ;;
  let root := {| node_x := bx; node_y := by_;
                 angle := - PI / 2;
                 len := trunkLen;
                 thickness := Qmax 6 (Qmin 14 (inject_Z (st_w s) * 0.02));
                 depth := 0;
                 swaySeed := seed0 |} in
  st <- _growRecursive root 7 (tr, []) ;;
  let '(tr', calls) := st in
  ret ({| segments := array_sort compareSegments (segments tr');
          grown := grown tr'; progress := progress tr';
          baseX := baseX tr'; baseY := baseY tr' |}, calls).

Definition tree_init (s : State) : M Tree :=
  st <- tree_init_traced s ;; ret (fst st).

End Geometry.

(** ** Face particle system (main.js, lines 347-523) *)

Record TargetPoint := { pt_x : Q; pt_y : Q; pt_lum : Q }.

(** A particle; [pa_a] is the field [a] (alpha). *)
Record Particle := {
  pa_tx : Q; pa_ty : Q;
  pa_x : Q; pa_y : Q;
  pa_vx : Q; pa_vy : Q;
  pa_size : Q;
  pa_rot : Q;
  pa_rotV : Q;
  pa_a : Q;
  pa_lum : Q;
  pa_img : option Img;
  pa_delay : Q
}.

Record Canvas := { width : Z; height : Z }.

Record FacePortrait := {
  ready : bool;
  targetPoints : list TargetPoint;
  particles : list Particle;
  builtOnce : bool;
  fadeIn : Q;
  off : Canvas
}.

(** [facePortrait.init]; a fresh canvas element is 300 by 150. *)
Definition facePortrait_init : FacePortrait :=
  {| ready := false; targetPoints := []; particles := [];
     builtOnce := false; fadeIn := 0;
     off := {| width := 300; height := 150 |} |}.

Definition luminance (r g b : Q) : Q :=
  (0.2126 * r + 0.7152 * g + 0.0722 * b) / 255.

Definition keepProb (lum : Q) : Q := clamp ((lum - 0.15) * 1.6) 0 1.

(** The alpha a particle eases to (main.js, line 520). *)
Definition targetA (lum : Q) : Q := clamp (0.55 + lum * 0.55) 0.35 0.95.

(** The body of the sampling loops (main.js, lines 398-407).  A component
    read outside the pixel array is [undefined]; the luminance is then [NaN]
    and the comparison with the random draw is false. *)
Definition sampleCell (imgData : list Z) (portraitW : Q) (y x : Q)
  (points : list TargetPoint) : M (list TargetPoint) :=
  let i := (y * portraitW + x) * 4 in
  match js_index imgData i, js_index imgData (i + 1), js_index imgData (i + 2)
  with
  | Some r, Some g, Some b =>
      let lum := luminance (inject_Z r) (inject_Z g) (inject_Z b) in
      u <- Math_random ;;
      if Qltb u (keepProb lum)
      then ret (points ++ [{| pt_x := x; pt_y := y; pt_lum := lum |}])
      else ret points
  | _, _, _ => _ <- Math_random ;; ret points
  end.

Definition samplePoints (imgData : list Z) (portraitW portraitH step : Q)
  : M (list TargetPoint) :=
  let fuel := Z.to_nat (Qceiling portraitH) in
  for_step fuel 0 portraitH step
    (fun y pts =>
       for_step fuel 0 portraitW step (sampleCell imgData portraitW y) pts)
    [].

Definition syntheticPoint (portraitW portraitH : Q) : M TargetPoint :=
  x <- randi 0 (portraitW - 1) ;;
  y <- randi 0 (portraitH - 1) ;;
  lum <- rand 0.2 0.9 ;;
  ret {| pt_x := x; pt_y := y; pt_lum := lum |}.

(** The fallback of main.js, lines 412-420. *)
Definition ensureMinimum (portraitW portraitH : Q) (points : list TargetPoint)
  : M (list TargetPoint) :=
  if (length points <? 600)%nat
  then for_count 900 0
         (fun _ pts => p <- syntheticPoint portraitW portraitH ;;
                       ret (pts ++ [p]))
         points
  else ret points.

Definition sizedCanvas (portraitW portraitH : Q) : Canvas :=
  {| width := Qfloor portraitW; height := Qfloor portraitH |}.

Section Portrait.

Variable sin : Q -> Q.
Variable PI : Q.

(** The pixels read back from the offscreen canvas after the face image was
    drawn into it: [getImageData faceImg portraitW portraitH] is the [data]
    array (four components per pixel). *)
Variable getImageData : Img -> Q -> Q -> list Z.

Definition tryBuildTargets (s : State) (images : Images) (fp : FacePortrait)
  : M FacePortrait :=
  if builtOnce fp then ret fp
  else
    match face_ok images, face_img images with
    | true, Some faceImg =>
        let portraitW := Qmin 420 (inject_Z (st_w s) * 0.58) in
        let portraitH := portraitW in
        let imgData := getImageData faceImg portraitW portraitH in
        let step := clamp (Math_floor (portraitW / 80)) 4 8 in
        points <- samplePoints imgData portraitW portraitH step ;;
        points <- ensureMinimum portraitW portraitH points ;;
        ret {| ready := true;
               targetPoints := points;
               particles := [];
               builtOnce := true;
               fadeIn := fadeIn fp;
               off := sizedCanvas portraitW portraitH |}
    | _, _ => ret fp
    end.

Definition push_particle (p : Particle) (fp : FacePortrait) : FacePortrait :=
  {| ready := ready fp; targetPoints := targetPoints fp;
     particles := particles fp ++ [p];
     builtOnce := builtOnce fp; fadeIn := fadeIn fp; off := off fp |}.

(** The body of the spawn loop (main.js, lines 450-475);
    [this.targetPoints[i]] past the end is [undefined], and reading its
    fields throws. *)
Definition spawnOne (s : State) (images : Images) (i : nat)
  (fp : FacePortrait) : M FacePortrait :=
  match nth_error (targetPoints fp) i with
  | None => throw
  | Some p =>
      let portraitW := inject_Z (width (off fp)) in
      let centerX := inject_Z (st_w s) * 0.5 in
      let topY := inject_Z (st_h s) * 0.25 in
      let left := centerX - portraitW * 0.5 in
      let baseSize := clamp (portraitW / 40) 7 14 in
      k <- rand 0.70 1.25 ;;
      jx <- rand (-30) 30 ;;
      jy <- rand 0 40 ;;
      rot0 <- rand (- PI) PI ;;
      rotV0 <- rand (-0.012) 0.012 ;;
      im <- getRandomTileImage images ;;
      delay0 <- rand 0 1.2 ;;
      ret (push_particle
             {| pa_tx := left + pt_x p; pa_ty := topY + pt_y p;
                pa_x := centerX + jx;
                pa_y := inject_Z (st_h s) * 0.62 + jy;
                pa_vx := 0; pa_vy := 0;
                pa_size := baseSize * k;
                pa_rot := rot0;
                pa_rotV := rotV0;
                pa_a := 0;
                pa_lum := pt_lum p;
                pa_img := im;
                pa_delay := delay0 |} fp)
  end.

Definition spawnBatch (maxNew : nat) (s : State) (images : Images)
  (fp : FacePortrait) : M FacePortrait :=
  if negb (ready fp) then ret fp
  else
    let total := length (targetPoints fp) in
    if (total <=? length (particles fp))%nat then ret fp
    else
      let start := length (particles fp) in
      let end_ := Nat.min total (start + maxNew) in
      for_count (end_ - start) start (spawnOne s images) fp.

(** One iteration of the particle loop (main.js, lines 495-521). *)
Definition stepParticle (s : State) (sc : Scene) (images : Images) (i : nat)
  (p : Particle) : M Particle :=
  im <- match pa_img p with
        | None => getRandomTileImage images
        | Some _ => ret (pa_img p)
        end ;;
  let localT := timeIn sc - pa_delay p in
  if Qltb localT 0 then
    ret {| pa_tx := pa_tx p; pa_ty := pa_ty p; pa_x := pa_x p; pa_y := pa_y p;
           pa_vx := pa_vx p; pa_vy := pa_vy p; pa_size := pa_size p;
           pa_rot := pa_rot p; pa_rotV := pa_rotV p; pa_a := pa_a p;
           pa_lum := pa_lum p; pa_img := im; pa_delay := pa_delay p |}
  else
    let settle := 0.085 in
    let damp := 0.88 in
    let dx := pa_tx p - pa_x p in
    let dy := pa_ty p - pa_y p in
    let vx := (pa_vx p + dx * settle) * damp in
    let vy := (pa_vy p + dy * settle) * damp in
    let float := sin (st_now s * 0.001 + Qnat i * 0.03) * 0.10 in
    ret {| pa_tx := pa_tx p; pa_ty := pa_ty p;
           pa_x := pa_x p + vx;
           pa_y := pa_y p + (vy + float);
           pa_vx := vx; pa_vy := vy;
           pa_size := pa_size p;
           pa_rot := pa_rot p + pa_rotV p;
           pa_rotV := pa_rotV p;
           pa_a := lerp (pa_a p) (targetA (pa_lum p)) 0.06;
           pa_lum := pa_lum p;
           pa_img := im;
           pa_delay := pa_delay p |}.

Fixpoint stepParticles (s : State) (sc : Scene) (images : Images) (i : nat)
  (ps : list Particle) : M (list Particle) :=
  match ps with
  | [] => ret []
  | p :: rest =>
      p' <- stepParticle s sc images i p ;;
      rest' <- stepParticles s sc images (S i) rest ;;
      ret (p' :: rest')
  end.

(** [facePortrait.update]. *)
Definition facePortrait_update (s : State) (sc : Scene) (images : Images)
  (fp : FacePortrait) : M FacePortrait :=
  fp <- tryBuildTargets s images fp ;;
  fp <- spawnBatch (if (st_w s <? 520)%Z then 70 else 120)%nat s images fp ;;
  let t := clamp (timeIn sc / 2.2) 0 1 in
  ps <- stepParticles s sc images 0 (particles fp) ;;
  ret {| ready := ready fp; targetPoints := targetPoints fp;
         particles := ps;
         builtOnce := builtOnce fp;
         fadeIn := smoothstep t;
         off := off fp |}.

End Portrait.

(** ** Orchestration (main.js, lines 613-644 and 698-711) *)

Record World := {
  w_state : State;
  w_images : Images;
  w_scene : Scene;
  w_seed : Seed;
  w_tree : Tree;
  w_face : FacePortrait
}.

Section Orchestration.

Variable cos sin : Q -> Q.
Variable PI : Q.
Variable getImageData : Img -> Q -> Q -> list Z.

Definition resetAll (wd : World) : M World :=
  tr <- tree_init cos sin PI (w_state wd) ;;
  ret {| w_state := w_state wd;
         w_images := w_images wd;
         w_scene := switchTo SEED (w_scene wd);
         w_seed := seed_init (w_state wd);
         w_tree := tr;
         w_face := facePortrait_init |}.

Definition with_scene (sc : Scene) (wd : World) : World :=
  {| w_state := w_state wd; w_images := w_images wd; w_scene := sc;
     w_seed := w_seed wd; w_tree := w_tree wd; w_face := w_face wd |}.

(** [update(dt)]. *)
Definition update (dt : Q) (wd : World) : M World :=
  let sc := {| name := name (w_scene wd);
               timeIn := timeIn (w_scene wd) + dt |} in
  match name sc with
  | SEED =>
      let sd := seed_update sc (w_seed wd) in
      let sc' := if Qltb 2.4 (timeIn sc) then switchTo TREE sc else sc in
      ret {| w_state := w_state wd; w_images := w_images wd; w_scene := sc';
             w_seed := sd; w_tree := w_tree wd; w_face := w_face wd |}
  | TREE =>
      let tr := tree_update (w_state wd) sc (w_tree wd) in
      let sc' := if grown tr then switchTo PAUSE sc else sc in
      ret {| w_state := w_state wd; w_images := w_images wd; w_scene := sc';
             w_seed := w_seed wd; w_tree := tr; w_face := w_face wd |}
  | PAUSE =>
      let sc' := if Qltb 1.2 (timeIn sc) then switchTo FACE sc else sc in
      ret (with_scene sc' wd)
  | FACE =>
      fp <- facePortrait_update sin PI getImageData (w_state wd) sc
              (w_images wd) (w_face wd) ;;
      ret {| w_state := w_state wd; w_images := w_images wd; w_scene := sc;
             w_seed := w_seed wd; w_tree := w_tree wd; w_face := fp |}
  end.

(** [frame(now)]; drawing reads the world and does not change it. *)
Definition frame (now : Q) (wd : World) : M World :=
  let s := w_state wd in
  if negb (st_running s) then ret wd
  else
    let dt := clamp (now - st_t0 s) 0 40 in
    let s' := {| st_w := st_w s; st_h := st_h s; st_dpr := st_dpr s;
                 st_t0 := now; st_now := now; st_dt := dt;
                 st_running := st_running s |} in
    update (dt / 1000)
      {| w_state := s'; w_images := w_images wd; w_scene := w_scene wd;
         w_seed := w_seed wd; w_tree := w_tree wd; w_face := w_face wd |}.

(** What the host can make happen between two frames. *)
Inductive Event :=
| EvFrame (now : Q)
| EvResize (innerWidth innerHeight devicePixelRatio : Q)
| EvFaceLoaded (res : LoadResult)
| EvTileLoaded (i : nat) (res : LoadResult)
| EvReplay.

Definition with_state (s : State) (wd : World) : World :=
  {| w_state := s; w_images := w_images wd; w_scene := w_scene wd;
     w_seed := w_seed wd; w_tree := w_tree wd; w_face := w_face wd |}.

Definition with_images (im : Images) (wd : World) : World :=
  {| w_state := w_state wd; w_images := im; w_scene := w_scene wd;
     w_seed := w_seed wd; w_tree := w_tree wd; w_face := w_face wd |}.

Definition handle (e : Event) (wd : World) : M World :=
  match e with
  | EvFrame now => frame now wd
  | EvResize iw ih r => ret (with_state (resize iw ih r (w_state wd)) wd)
  | EvFaceLoaded res => ret (with_images (face_loaded res (w_images wd)) wd)
  | EvTileLoaded i res =>
      ret (with_images (tile_loaded i res (w_images wd)) wd)
  | EvReplay => resetAll wd
  end.

Fixpoint run (es : list Event) (wd : World) : M World :=
  match es with
  | [] => ret wd
  | e :: rest => wd' <- handle e wd ;; run rest wd'
  end.

(** The world when the script has finished loading: the viewport measured,
    no image loaded yet, and [resetAll] done. *)
Definition boot (innerWidth innerHeight devicePixelRatio t : Q) : M World :=
  let s0 := {| st_w := 0; st_h := 0; st_dpr := 1; st_t0 := t; st_now := t;
               st_dt := 16.7; st_running := true |} in
  resetAll
    {| w_state := resize innerWidth innerHeight devicePixelRatio s0;
       w_images := {| face_ok := false; face_img := None; tiles := [];
                      tilesReadyCount := 0 |};
       w_scene := {| name := SEED; timeIn := 0 |};
       w_seed := {| seed_x := 0; seed_y := 0; seed_r := 6; bloom := 0 |};
       w_tree := {| segments := []; grown := false; progress := 0;
                    baseX := 0; baseY := 0 |};
       w_face := facePortrait_init |}.

(** A run of [update] ticks with the given time deltas. *)
Fixpoint ticks (dts : list Q) (wd : World) : M World :=
  match dts with
  | [] => ret wd
  | dt :: rest => wd' <- update dt wd ;; ticks rest wd'
  end.

(** A portrait cycle: [facePortrait.init], then one [facePortrait.update]
    per tick, each under the viewport, scene clock and loaded images of its
    tick. *)
Fixpoint portrait_ticks (envs : list (State * Scene * Images))
  (fp : FacePortrait) : M FacePortrait :=
  match envs with
  | [] => ret fp
  | (s, sc, im) :: rest =>
      fp' <- facePortrait_update sin PI getImageData s sc im fp ;;
      portrait_ticks rest fp'
  end.

Definition portrait_cycle (envs : list (State * Scene * Images))
  : M FacePortrait :=
  portrait_ticks envs facePortrait_init.

End Orchestration.

(** The time fed by a list of ticks. *)
Definition total (dts : list Q) : Q := fold_right Qplus 0 dts.

(** The scene clock after the ticks [dts], when none of them switches the
    scene: the deltas are added to the clock [t0] one by one, in the order
    [scene.timeIn += dt] adds them. *)
Definition clock_after (t0 : Q) (dts : list Q) : Q := fold_left Qplus dts t0.

(** A viewport on which the browser's [getImageData] does not throw: the
    portrait side min(420, 0.58 * width) truncates to at least 1. *)
Definition readable (s : State) : Prop := (2 <= st_w s)%Z.

(** An event that leaves the viewport readable: a resize to a window at
    least 2 wide, or any other event. *)
Definition wide_event (e : Event) : Prop :=
  match e with
  | EvResize innerWidth _ _ => 2 <= innerWidth
  | _ => True
  end.

(** [Math.random] stand-ins and parameters used to evaluate the model on
    concrete inputs. *)
Definition demo_oracle (n : nat) : Q := (Z.of_nat n * 37 mod 100)%Z # 100.
Definition demo_rng : Rng := {| oracle := demo_oracle; cursor := 0 |}.
Definition flat (_ : Q) : Q := 0.
Definition grey_pixels (_ : Img) (pw ph : Q) : list Z :=
  repeat 200%Z (4 * Z.to_nat (Qfloor pw) * Z.to_nat (Qfloor ph)).
Definition black_pixels (_ : Img) (pw ph : Q) : list Z :=
  repeat 0%Z (4 * Z.to_nat (Qfloor pw) * Z.to_nat (Qfloor ph)).

Definition demo_state (w h : Z) : State :=
  {| st_w := w; st_h := h; st_dpr := 1; st_t0 := 0; st_now := 0;
     st_dt := 16.7; st_running := true |}.

Definition face_only : Images :=
  {| face_ok := true; face_img := Some 1%nat; tiles := [];
     tilesReadyCount := 0 |}.

Definition no_images : Images :=
  {| face_ok := false; face_img := None; tiles := []; tilesReadyCount := 0 |}.

Definition bare_tree (segs : list Segment) : Tree :=
  {| segments := segs; grown := false; progress := 0; baseX := 0; baseY := 0 |}.

Definition demo_segment : Segment :=
  {| p0 := {| p_x := 0; p_y := 0 |}; p1 := {| p_x := 0; p_y := 0 |};
     p2 := {| p_x := 0; p_y := 0 |}; p3 := {| p_x := 0; p_y := 0 |};
     seg_thickness := 1; seg_depth := 0; seg_swaySeed := 0 |}.

(** A world at the start of the Seed scene. *)
Definition demo_world : World :=
  {| w_state := demo_state 1000 800;
     w_images := no_images;
     w_scene := {| name := SEED; timeIn := 0 |};
     w_seed := seed_init (demo_state 1000 800);
     w_tree := bare_tree (repeat demo_segment 50);
     w_face := facePortrait_init |}.

(** ** Specification vocabulary *)

(** The random source after [k] more draws. *)
Definition advance (r : Rng) (k : nat) : Rng :=
  {| oracle := oracle r; cursor := k + cursor r |}.

(** [wp m post r]: run from the random source [r], the computation [m]
    returns (it neither throws nor runs out of fuel) and its result and the
    random source it leaves satisfy [post]. *)
Definition wp {A : Type} (m : M A) (post : A -> Rng -> Prop) (r : Rng)
  : Prop :=
  exists a r', m r = Some (a, r') /\ post a r'.

(** Two trees that differ at most in their segments. *)
Definition same_frame (tr tr' : Tree) : Prop :=
  grown tr' = grown tr /\ progress tr' = progress tr /\
  baseX tr' = baseX tr /\ baseY tr' = baseY tr.

(** What one invocation of [_growRecursive] on [node] does to the tree and
    to the invocation log: it appends the node's own segment and logs the
    node, and what follows are the segments and log entries of deeper nodes,
    one segment per logged node. *)
Definition grow_post (cos sin : Q -> Q) (node : Node) (maxDepth : Z)
  (st st' : Tree * list Node) : Prop :=
  exists bend news newc,
    segments (fst st')
    = segments (fst st) ++ segment_of cos sin node bend :: news /\
    snd st' = snd st ++ node :: newc /\
    map seg_depth news = map depth newc /\
    Forall (fun n => (depth node < depth n <= maxDepth)%Z) newc /\
    (if (depth node >=? maxDepth)%Z then newc = [] else newc <> []) /\
    same_frame (fst st) (fst st').


(** How one iteration of the particle loop relates a particle [p], at index
    [i], to what it has become, [p']: the target, size, spin, luminance and
    delay are kept, an image once assigned is kept, and the particle either
    waits (its delay has not elapsed) or is eased one step. *)
Definition particle_step (sin : Q -> Q) (s : State) (sc : Scene) (i : nat)
  (p p' : Particle) : Prop :=
  pa_tx p' = pa_tx p /\ pa_ty p' = pa_ty p /\ pa_size p' = pa_size p /\
  pa_rotV p' = pa_rotV p /\ pa_lum p' = pa_lum p /\
  pa_delay p' = pa_delay p /\
  (pa_img p <> None -> pa_img p' = pa_img p) /\
  if Qltb (timeIn sc - pa_delay p) 0
  then pa_x p' = pa_x p /\ pa_y p' = pa_y p /\ pa_vx p' = pa_vx p /\
       pa_vy p' = pa_vy p /\ pa_rot p' = pa_rot p /\ pa_a p' = pa_a p
  else pa_vx p' = (pa_vx p + (pa_tx p - pa_x p) * 0.085) * 0.88 /\
       pa_vy p' = (pa_vy p + (pa_ty p - pa_y p) * 0.085) * 0.88 /\
       pa_x p' = pa_x p + pa_vx p' /\
       pa_y p'
       = pa_y p + (pa_vy p' + sin (st_now s * 0.001 + Qnat i * 0.03) * 0.10) /\
       pa_rot p' = pa_rot p + pa_rotV p /\
       pa_a p' = lerp (pa_a p) (targetA (pa_lum p)) 0.06.

(** The batch size [facePortrait.update] passes to [spawnBatch]. *)
Definition batchSize (s : State) : nat :=
  if (st_w s <? 520)%Z then 70%nat else 120%nat.

(** What holds of the portrait between [facePortrait.init] and the next
    reset: it is ready exactly when it was built; before the build it has no
    target point and no particle; after it, at least 600 target points and
    no more particles than target points. *)
Definition portrait_inv (fp : FacePortrait) : Prop :=
  ready fp = builtOnce fp /\
  if builtOnce fp
  then (600 <= length (targetPoints fp))%nat /\
       (length (particles fp) <= length (targetPoints fp))%nat
  else targetPoints fp = [] /\ particles fp = [].


(** A freshly spawned particle [q] for the target point [p]: it is at rest
    and transparent, and it aims at the target point moved into place under
    the portrait's frame. *)
Definition spawned_for (s : State) (fp : FacePortrait) (p : TargetPoint)
  (q : Particle) : Prop :=
  pa_lum q = pt_lum p /\ pa_a q = 0 /\ pa_vx q = 0 /\ pa_vy q = 0 /\
  pa_tx q
  = inject_Z (st_w s) * 0.5 - inject_Z (width (off fp)) * 0.5 + pt_x p /\
  pa_ty q = inject_Z (st_h s) * 0.25 + pt_y p.

(** Two portraits that differ at most in their particles. *)
Definition same_targets (fp fp' : FacePortrait) : Prop :=
  targetPoints fp' = targetPoints fp /\ ready fp' = ready fp /\
  builtOnce fp' = builtOnce fp /\ off fp' = off fp /\ fadeIn fp' = fadeIn fp.


Definition demo_particle : Particle :=
  {| pa_tx := 100; pa_ty := 50; pa_x := 500; pa_y := 500;
     pa_vx := 0; pa_vy := 0; pa_size := 10; pa_rot := 0; pa_rotV := 0.01;
     pa_a := 0; pa_lum := 0.5; pa_img := None; pa_delay := 0.5 |}.

(** A built portrait with one target point and its particle. *)
Definition demo_portrait : FacePortrait :=
  {| ready := true;
     targetPoints := [{| pt_x := 4; pt_y := 8; pt_lum := 0.5 |}];
     particles := [demo_particle];
     builtOnce := true; fadeIn := 0;
     off := {| width := 29; height := 29 |} |}.


(** The fewest and the most invocations [_growRecursive] makes for a node
    [k] levels above [maxDepth] at depth [d]: two branches where [d < 2],
    at least one elsewhere, never more than two. *)
Fixpoint min_nodes (k : nat) (d : Z) : nat :=
  match k with
  | O => 1
  | S k' => 1 + (if (d <? 2)%Z then 2 else 1) * min_nodes k' (d + 1)
  end.

Fixpoint max_nodes (k : nat) : nat :=
  match k with
  | O => 1
  | S k' => 1 + 2 * max_nodes k'
  end.

Fixpoint Qpow (q : Q) (n : nat) : Q :=
  match n with
  | O => 1
  | S n' => q * Qpow q n'
  end.

(** [sg] is the segment some invocation on [n] pushed. *)
Definition segment_for (cos sin : Q -> Q) (sg : Segment) (n : Node) : Prop :=
  exists bend, sg = segment_of cos sin n bend.

(** The order [segments.sort] establishes: shallower first and, at equal
    depth, the lower start point (the larger y) first. *)
Definition segment_le (a b : Segment) : Prop :=
  (seg_depth a < seg_depth b)%Z \/
  (seg_depth a = seg_depth b /\ p_y (p0 b) <= p_y (p0 a)).

(** The root node [tree.init] starts the recursion from. *)
Definition trunk (PI : Q) (s : State) (seed0 : Q) : Node :=
  {| node_x := inject_Z (st_w s) * 0.5;
     node_y := inject_Z (st_h s) * 0.82;
     angle := - PI / 2;
     len := Qmin 260 (inject_Z (st_h s) * 0.32);
     thickness := Qmax 6 (Qmin 14 (inject_Z (st_w s) * 0.02));
     depth := 0;
     swaySeed := seed0 |}.

(** A node whose length and thickness are within the range that [d] levels
    of branching from a trunk of length [L] and thickness [T] allow. *)
Definition tapered (L T : Q) (n : Node) : Prop :=
  (0 <= depth n)%Z /\
  let d := Z.to_nat (depth n) in
  L * Qpow 0.58 d <= len n /\ len n <= L * Qpow 0.78 d /\
  T * Qpow 0.62 d <= thickness n /\ thickness n <= T * Qpow 0.78 d.


(** The scene the sequencer is in after a tick of [dt], read off the
    thresholds: Seed is left once its clock exceeds 2.4, Tree once its clock
    has reached the growth duration, Pause once its clock exceeds 1.2, and
    Face is never left; a scene that is entered starts with its clock at 0. *)
Definition scene_after (s : State) (sc : Scene) (dt : Q) : Scene :=
  let t := timeIn sc + dt in
  match name sc with
  | SEED => if Qltb 2.4 t then {| name := TREE; timeIn := 0 |}
            else {| name := SEED; timeIn := t |}
  | TREE => if Qle_bool (growTime (inject_Z (st_w s))) t
            then {| name := PAUSE; timeIn := 0 |}
            else {| name := TREE; timeIn := t |}
  | PAUSE => if Qltb 1.2 t then {| name := FACE; timeIn := 0 |}
             else {| name := PAUSE; timeIn := t |}
  | FACE => {| name := FACE; timeIn := t |}
  end.

(** The position of a scene in the sequence Seed, Tree, Pause, Face. *)
Definition scene_rank (n : SceneName) : nat :=
  match n with
  | SEED => 0
  | TREE => 1
  | PAUSE => 2
  | FACE => 3
  end.


(** A tree as [tree.init] leaves it, as far as its segments go. *)
Definition tree_ok (tr : Tree) : Prop :=
  (27 <= length (segments tr) <= 255)%nat /\
  Forall (fun sg => (0 <= seg_depth sg <= 7)%Z) (segments tr).

(** What holds of the world from [resetAll] on: the portrait invariant, a
    well-formed tree, and a portrait still as [facePortrait.init] left it
    as long as the Face scene has not begun. *)
Definition world_inv (wd : World) : Prop :=
  portrait_inv (w_face wd) /\ tree_ok (w_tree wd) /\
  match name (w_scene wd) with
  | FACE => True
  | _ => w_face wd = facePortrait_init
  end.


(** Every particle belongs to the target point of its index: it carries that
    point's luminance, and its alpha is between 0 and the alpha that
    luminance calls for. *)
Definition particles_paired (fp : FacePortrait) : Prop :=
  forall k p,
    nth_error (particles fp) k = Some p ->
    exists t,
      nth_error (targetPoints fp) k = Some t /\
      pa_lum p = pt_lum t /\
      0 <= pa_a p /\ pa_a p <= targetA (pa_lum p).

(** A target point inside the sampled square and brighter than 0.15. *)
Definition lit_inside (side : Q) (t : TargetPoint) : Prop :=
  (0 <= pt_x t /\ pt_x t < side) /\ (0 <= pt_y t /\ pt_y t < side) /\
  0.15 < pt_lum t.


(** An upper bound on the scene time still to be fed before the Face scene
    begins, when every tick feeds at least [dmin]: the thresholds of the
    scenes still to be left (2.4, at most 7.2, and 1.2), a slack of [dmin]
    for each, less the time spent in the current scene. *)
Definition time_to_face (dmin : Q) (sc : Scene) : Q :=
  match name sc with
  | SEED => 10.8 + 3 * dmin - timeIn sc
  | TREE => 8.4 + 2 * dmin - timeIn sc
  | PAUSE => 1.2 + dmin - timeIn sc
  | FACE => 0
  end.

(** The clock of a scene that the sequencer has not left yet. *)
Definition not_yet_left (s : State) (sc : Scene) : Prop :=
  match name sc with
  | SEED => timeIn sc <= 2.4
  | TREE => timeIn sc < growTime (inject_Z (st_w s))
  | PAUSE => timeIn sc <= 1.2
  | FACE => True
  end.


(** How much of the tree is drawn in each scene: nothing in the Seed scene,
    all of it from the Pause scene on. *)
Definition tree_shown (wd : World) : Prop :=
  match name (w_scene wd) with
  | SEED => grown (w_tree wd) = false /\ progress (w_tree wd) = 0
  | TREE => True
  | PAUSE | FACE => grown (w_tree wd) = true /\ progress (w_tree wd) == 1
  end.


(** Where and how a particle starts: transparent and at rest, at most 30 to
    the left or right of the viewport's centre line and at most 40 below
    0.62 of its height, with a size between 0.70 and 1.25 times the base
    size clamp(portraitW / 40, 7, 14), a spin of at most 0.012 per tick
    either way and a delay of at most 1.2.  The bounds are closed and
    written with the code's own sums and products. *)
Definition starts_below (s : State) (fp : FacePortrait) (q : Particle)
  : Prop :=
  let centerX := inject_Z (st_w s) * 0.5 in
  let baseSize := clamp (inject_Z (width (off fp)) / 40) 7 14 in
  pa_a q = 0 /\ pa_vx q = 0 /\ pa_vy q = 0 /\
  (centerX + -30 <= pa_x q /\ pa_x q <= centerX + 30) /\
  (inject_Z (st_h s) * 0.62 + 0 <= pa_y q /\
   pa_y q <= inject_Z (st_h s) * 0.62 + 40) /\
  (7 <= baseSize /\ baseSize <= 14) /\
  (baseSize * 0.70 <= pa_size q /\ pa_size q <= baseSize * 1.25) /\
  (-0.012 <= pa_rotV q /\ pa_rotV q <= 0.012) /\
  (0 <= pa_delay q /\ pa_delay q <= 1.2).

(** A built portrait with three target points of which the first has its
    particle: two are still to be spawned. *)
Definition filling_portrait : FacePortrait :=
  {| ready := true;
     targetPoints := [{| pt_x := 4; pt_y := 8; pt_lum := 0.5 |};
                      {| pt_x := 8; pt_y := 8; pt_lum := 0.25 |};
                      {| pt_x := 12; pt_y := 16; pt_lum := 0.75 |}];
     particles := [demo_particle];
     builtOnce := true; fadeIn := 0;
     off := {| width := 29; height := 29 |} |}.

(** ** The scene clock and the growth revealer over binary64

    A second embedding of [scene.timeIn += dt] with the Seed threshold and
    of [tree.update] with the [revealCount] of [tree.draw], over the
    numbers the code computes with: IEEE 754 binary64 floats, every
    operation rounded to nearest. *)

Set Warnings "-inexact-float".

(** [Math.max] and [Math.min]: [NaN] if an argument is, and [-0] below
    [+0]. *)
Definition Math_max_f64 (a b : float) : float :=
  if PrimFloat.is_nan a || PrimFloat.is_nan b then PrimFloat.nan
  else if PrimFloat.ltb a b then b
  else if PrimFloat.ltb b a then a
  else if PrimFloat.eqb a 0%float then PrimFloat.add a b
  else a.

Definition Math_min_f64 (a b : float) : float :=
  if PrimFloat.is_nan a || PrimFloat.is_nan b then PrimFloat.nan
  else if PrimFloat.ltb a b then a
  else if PrimFloat.ltb b a then b
  else if PrimFloat.eqb a 0%float
       then PrimFloat.opp (PrimFloat.add (PrimFloat.opp a) (PrimFloat.opp b))
       else a.

(** [Math.floor] of a finite float, as an integer: the float is
    [m * 2 ^ e] for integers [m] and [e]. *)
Definition Math_floor_f64 (x : float) : option Z :=
  match Prim2SF x with
  | S754_zero _ => Some 0%Z
  | S754_finite sign m e =>
      Some (Z.shiftl (if sign then Z.neg m else Z.pos m) e)
  | S754_infinity _ | S754_nan => None
  end.

Definition of_nat_f64 (n : nat) : float :=
  PrimFloat.of_uint63 (Uint63.of_Z (Z.of_nat n)).

Definition clamp_f64 (v a b : float) : float :=
  Math_max_f64 a (Math_min_f64 b v).

Definition smoothstep_f64 (t : float) : float := (t * t * (3 - 2 * t))%float.

Definition growTime_f64 (w : float) : float :=
  clamp_f64 (6.5 - w / 900)%float 4.8%float 7.2%float.

(** The progress [tree.update] stores for the viewport width [w] and the
    scene clock [timeIn]. *)
Definition progress_f64 (w timeIn : float) : float :=
  smoothstep_f64 (clamp_f64 (timeIn / growTime_f64 w)%float 0%float 1%float).

(** The number of segments [tree.draw] reveals of [n]. *)
Definition revealCount_f64 (n : nat) (w timeIn : float) : option Z :=
  Math_floor_f64 (of_nat_f64 n * progress_f64 w timeIn)%float.

(** The Seed branch of [update] over a run of ticks: the scene and its
    clock when the run ends or, if a tick switches the scene, right after
    that tick. *)
Fixpoint seed_ticks_f64 (dts : list float) (timeIn : float)
  : SceneName * float :=
  match dts with
  | [] => (SEED, timeIn)
  | dt :: rest =>
      let t := (timeIn + dt)%float in
      if PrimFloat.ltb 2.4%float t then (TREE, 0%float)
      else seed_ticks_f64 rest t
  end.

(** * Properties *)

(** ** Rational arithmetic *)

Ltac qminmax_step :=
  match goal with
  | |- context [Qmin ?a ?b] =>
      lazymatch goal with
      | _ : Qmin a b == _ |- _ => fail
      | _ => destruct (Q.min_spec a b) as [[? ?]|[? ?]]
      end
  | |- context [Qmax ?a ?b] =>
      lazymatch goal with
      | _ : Qmax a b == _ |- _ => fail
      | _ => destruct (Q.max_spec a b) as [[? ?]|[? ?]]
      end
  | _ : context [Qmin ?a ?b] |- _ =>
      lazymatch goal with
      | _ : Qmin a b == _ |- _ => fail
      | _ => destruct (Q.min_spec a b) as [[? ?]|[? ?]]
      end
  | _ : context [Qmax ?a ?b] |- _ =>
      lazymatch goal with
      | _ : Qmax a b == _ |- _ => fail
      | _ => destruct (Q.max_spec a b) as [[? ?]|[? ?]]
      end
  end.

(** Case analysis on every [Qmin] and [Qmax] in sight. *)
Ltac qminmax := repeat qminmax_step.

Lemma Qltb_lt (a b : Q) : Qltb a b = true <-> a < b.
Proof.
  unfold Qltb. rewrite negb_true_iff. split; intro H.
  - apply Qnot_le_lt. intro Hle. apply Qle_bool_iff in Hle. congruence.
  - destruct (Qle_bool b a) eqn:E; [|reflexivity].
    apply Qle_bool_iff in E. exfalso. apply (Qlt_not_le _ _ H E).
Qed.

Lemma Qltb_ge (a b : Q) : Qltb a b = false <-> b <= a.
Proof.
  unfold Qltb. rewrite negb_false_iff. apply Qle_bool_iff.
Qed.

Lemma Qdiv_le_mono (a b c : Q) : 0 < c -> a <= b -> a / c <= b / c.
Proof.
  intros Hc Hab. unfold Qdiv. apply Qmult_le_compat_r; [exact Hab|].
  apply Qlt_le_weak, Qinv_lt_0_compat, Hc.
Qed.

Lemma clamp_mono (v1 v2 a b : Q) : v1 <= v2 -> clamp v1 a b <= clamp v2 a b.
Proof. unfold clamp. intros. qminmax; lra. Qed.

Lemma clamp_bounds (v a b : Q) :
  a <= b -> a <= clamp v a b /\ clamp v a b <= b.
Proof. unfold clamp. intros. qminmax; lra. Qed.

Lemma clamp_low (v a b : Q) : v <= a -> clamp v a b == a.
Proof. unfold clamp. intros. qminmax; lra. Qed.

Lemma clamp_high (v a b : Q) : a <= b -> b <= v -> clamp v a b == b.
Proof. unfold clamp. intros. qminmax; lra. Qed.

Lemma clamp_inside (v a b : Q) : a <= v -> v <= b -> clamp v a b == v.
Proof. unfold clamp. intros. qminmax; lra. Qed.

#[export] Instance clamp_proper : Proper (Qeq ==> Qeq ==> Qeq ==> Qeq) clamp.
Proof.
  intros v1 v2 Hv a1 a2 Ha b1 b2 Hb. unfold clamp. qminmax; lra.
Qed.

#[export] Instance smoothstep_proper : Proper (Qeq ==> Qeq) smoothstep.
Proof. intros t1 t2 Ht. unfold smoothstep. rewrite Ht. reflexivity. Qed.

(** The S-curve does not decrease on the unit interval. *)
Lemma smoothstep_mono (a b : Q) :
  0 <= a -> a <= b -> b <= 1 -> smoothstep a <= smoothstep b.
Proof.
  intros H0 Hab H1. unfold smoothstep.
  assert (Hp : 0 <= (b - a) * (a * (3 - 2 * a - b) + b * (3 - 2 * b - a))).
  { apply Qmult_le_0_compat; [lra|].
    apply (Qle_trans _ (0 + 0)); [lra|].
    apply Qplus_le_compat; apply Qmult_le_0_compat; lra. }
  lra.
Qed.

Lemma smoothstep_range (t : Q) :
  0 <= t -> t <= 1 -> 0 <= smoothstep t /\ smoothstep t <= 1.
Proof.
  intros H0 H1. split.
  - apply (Qle_trans _ (smoothstep 0)); [unfold smoothstep; lra|].
    apply smoothstep_mono; lra.
  - apply (Qle_trans _ (smoothstep 1)); [|unfold smoothstep; lra].
    apply smoothstep_mono; lra.
Qed.

Lemma growTime_bounds (w : Q) : 4.8 <= growTime w /\ growTime w <= 7.2.
Proof. unfold growTime. apply clamp_bounds. lra. Qed.

Lemma growTime_antitone (w1 w2 : Q) :
  w1 <= w2 -> growTime w2 <= growTime w1.
Proof.
  intro H. unfold growTime. apply clamp_mono.
  assert (w1 / 900 <= w2 / 900) by (apply Qdiv_le_mono; lra). lra.
Qed.

(** ** Growth duration (tree.update, main.js line 276) *)

(** Claim C1, amended: the growth duration stays within [4.8, 7.2], and it
    does not increase with the viewport width: of two viewports the wider one
    never gets the longer duration. *)
Theorem growTime_clamped_antitone (w1 w2 : Q) :
  w1 <= w2 ->
  4.8 <= growTime w2 /\ growTime w2 <= growTime w1 /\ growTime w1 <= 7.2.
Proof.
  intro H. split; [apply growTime_bounds|].
  split; [apply growTime_antitone, H | apply growTime_bounds].
Qed.

Lemma growTime_clamped_antitone_witness :
  0 <= 900 /\
  4.8 <= growTime 900 /\ growTime 900 <= growTime 0 /\ growTime 0 <= 7.2.
Proof.
  split; [lra|]. apply (growTime_clamped_antitone 0 900). lra.
Defined.

(** Claim C1 as stated fails: the viewport of width 0 is narrower than the
    one of width 900, and its growth duration (6.5) is longer than that of
    the wider one (5.5). *)
Lemma growTime_narrower_is_longer :
  0 < 900 /\ growTime 0 == 6.5 /\ growTime 900 == 5.5 /\
  ~ (growTime 0 <= growTime 900).
Proof.
  split; [lra|]. split; [reflexivity|]. split; [reflexivity|].
  intro H. vm_compute in H. apply H. reflexivity.
Qed.

(** ** Growth revealer (tree.update and tree.draw) *)

Lemma tree_update_segments (s : State) (sc : Scene) (tr : Tree) :
  segments (tree_update s sc tr) = segments tr.
Proof. reflexivity. Qed.

Lemma Qnat_nonneg (n : nat) : 0 <= Qnat n.
Proof.
  unfold Qnat. change 0 with (inject_Z 0). rewrite <- Zle_Qle. lia.
Qed.

(** Claim C4, amended: after [tree.update] the progress is t * t * (3 - 2 t)
    for the growth ratio t = clamp(timeIn / duration, 0, 1), the duration
    being clamp(6.5 - width / 900, 4.8, 7.2), and [tree.draw] reveals
    floor(n * progress) of the n segments: a number between 0 and n, 0 while
    the clock is at 0 and n once the tree is grown; the [grown] flag is set
    exactly when the ratio has reached 1, that is when the clock has reached
    the duration; with 50 segments and a duration of 5, a clock of exactly
    2.5 reveals 25 segments and a clock of 1.25 reveals 7. *)
Theorem reveal_count_eased_floor (s : State) (tr : Tree) (sc : Scene) :
  let duration := clamp (6.5 - inject_Z (st_w s) / 900) 4.8 7.2 in
  let t := clamp (timeIn sc / duration) 0 1 in
  let n := length (segments tr) in
  let tr' := tree_update s sc tr in
  (0 <= t /\ t <= 1) /\
  progress tr' = t * t * (3 - 2 * t) /\
  revealCount tr' = Qfloor (Qnat n * (t * t * (3 - 2 * t))) /\
  (0 <= revealCount tr' <= Z.of_nat n)%Z /\
  (timeIn sc <= 0 -> revealCount tr' = 0%Z) /\
  (grown tr' = true <-> t == 1) /\
  (grown tr' = true <-> duration <= timeIn sc) /\
  (grown tr' = true -> revealCount tr' = Z.of_nat n) /\
  (duration == 5 -> n = 50%nat -> timeIn sc == 2.5 ->
   revealCount tr' = 25%Z) /\
  (duration == 5 -> n = 50%nat -> timeIn sc == 1.25 ->
   revealCount tr' = 7%Z).
Proof.
  intros duration t n tr'.
  assert (Hd : 4.8 <= duration /\ duration <= 7.2)
    by (apply clamp_bounds; lra).
  destruct Hd as [Hd1 Hd2].
  assert (Ht : 0 <= t /\ t <= 1) by (apply clamp_bounds; lra).
  destruct Ht as [Ht0 Ht1].
  pose proof (smoothstep_range t Ht0 Ht1) as [Hs0 Hs1].
  unfold smoothstep in Hs0, Hs1.
  assert (Hrc : revealCount tr' = Qfloor (Qnat n * (t * t * (3 - 2 * t))))
    by reflexivity.
  assert (Hgrown : grown tr' = true <-> 1 <= t) by apply Qle_bool_iff.
  assert (Hfull : 1 <= t -> revealCount tr' = Z.of_nat n).
  { intro H1. rewrite Hrc. rewrite <- (Qfloor_Z (Z.of_nat n)).
    apply Qfloor_comp. fold (Qnat n).
    assert (E : t == 1) by lra. rewrite E. ring. }
  split; [split; assumption|].
  split; [reflexivity|].
  split; [exact Hrc|].
  split.
  { rewrite Hrc. split.
    - change 0%Z with (Qfloor 0). apply Qfloor_resp_le.
      apply Qmult_le_0_compat; [apply Qnat_nonneg | exact Hs0].
    - rewrite <- (Qfloor_Z (Z.of_nat n)). apply Qfloor_resp_le.
      fold (Qnat n). pose proof (Qnat_nonneg n).
      assert (Qnat n * (t * t * (3 - 2 * t)) <= Qnat n * 1).
      { rewrite !(Qmult_comm (Qnat n)).
        apply Qmult_le_compat_r; assumption. }
      lra. }
  split.
  { intro Hneg. rewrite Hrc. change 0%Z with (Qfloor 0). apply Qfloor_comp.
    assert (E : t == 0).
    { unfold t, clamp.
      assert (timeIn sc / duration <= 0).
      { apply Qle_shift_div_r; lra. }
      qminmax; lra. }
    rewrite E. ring. }
  split; [rewrite Hgrown; split; intro; lra|].
  split.
  { rewrite Hgrown. unfold t, clamp. split; intro H.
    - apply Qnot_lt_le. intro Hlt.
      assert (timeIn sc / duration < 1)
        by (apply Qlt_shift_div_r; lra).
      qminmax; lra.
    - assert (1 <= timeIn sc / duration)
        by (apply Qle_shift_div_l; lra).
      qminmax; lra. }
  split; [intro Hg; apply Hfull, Hgrown, Hg|].
  split.
  - intros Hdur Hn Htime. rewrite Hrc, Hn.
    assert (E : t == 0.5).
    { unfold t. rewrite Htime, Hdur. reflexivity. }
    rewrite (Qfloor_comp _ 25); [reflexivity|].
    rewrite E. reflexivity.
  - intros Hdur Hn Htime. rewrite Hrc, Hn.
    assert (E : t == 0.25).
    { unfold t. rewrite Htime, Hdur. reflexivity. }
    rewrite (Qfloor_comp _ 7.8125); [reflexivity|].
    rewrite E. reflexivity.
Qed.

Lemma reveal_count_eased_floor_witness :
  revealCount
    (tree_update (demo_state 1350 800) {| name := TREE; timeIn := 2.5 |}
       (bare_tree (repeat demo_segment 50))) = 25%Z /\
  revealCount
    (tree_update (demo_state 1350 800) {| name := TREE; timeIn := 1.25 |}
       (bare_tree (repeat demo_segment 50))) = 7%Z.
Proof.
  split.
  - destruct (reveal_count_eased_floor (demo_state 1350 800)
                (bare_tree (repeat demo_segment 50))
                {| name := TREE; timeIn := 2.5 |})
      as (_ & _ & _ & _ & _ & _ & _ & _ & Hhalf & _).
    apply Hhalf; reflexivity.
  - destruct (reveal_count_eased_floor (demo_state 1350 800)
                (bare_tree (repeat demo_segment 50))
                {| name := TREE; timeIn := 1.25 |})
      as (_ & _ & _ & _ & _ & _ & _ & _ & _ & Hquarter).
    apply Hquarter; reflexivity.
Defined.

(** The two scenarios as the code computes them, in binary64: a viewport
    1350 wide (growth duration 5), 50 segments, the clock at 2.5 and at
    1.25. *)
Example reveal_count_scenarios_binary64 :
  growTime_f64 1350%float = 5%float /\
  revealCount_f64 50 1350%float 2.5%float = Some 25%Z /\
  revealCount_f64 50 1350%float 1.25%float = Some 7%Z.
Proof. vm_compute. repeat split; reflexivity. Qed.

(** Claim C4 as stated fails on the numbers the code computes with: at a
    viewport 1350 wide with 50 segments, the clock 2.299570579134699 reveals
    22 segments and the next binary64 number above it reveals 21, so the
    reveal count is not monotone in the clock. *)
Lemma reveal_count_drops_in_binary64 :
  PrimFloat.ltb 2.299570579134699%float 2.2995705791346994%float = true /\
  revealCount_f64 50 1350%float 2.299570579134699%float = Some 22%Z /\
  revealCount_f64 50 1350%float 2.2995705791346994%float = Some 21%Z.
Proof. vm_compute. repeat split; reflexivity. Qed.

(** A clock that 100 ticks of 25 ms have added up is 2.4999999999999951,
    not 2.5, and reveals 24 of the 50 segments. *)
Example reveal_count_after_100_ticks_binary64 :
  let clock := fold_left PrimFloat.add (repeat 0.025%float 100) 0%float in
  PrimFloat.ltb clock 2.5%float = true /\
  revealCount_f64 50 1350%float clock = Some 24%Z.
Proof. vm_compute. repeat split; reflexivity. Qed.

(** ** The effect monad *)

Lemma wp_ret {A : Type} (a : A) (post : A -> Rng -> Prop) (r : Rng) :
  post a r -> wp (ret a) post r.
Proof. intro H. exists a, r. split; [reflexivity | exact H]. Qed.

Lemma wp_bind {A B : Type} (m : M A) (k : A -> M B)
  (post : B -> Rng -> Prop) (r : Rng) :
  wp m (fun a r1 => wp (k a) post r1) r -> wp (bind m k) post r.
Proof.
  intros (a & r1 & Hm & b & r2 & Hk & Hpost).
  exists b, r2. split; [|exact Hpost]. unfold bind. rewrite Hm. exact Hk.
Qed.

Lemma wp_mono {A : Type} (m : M A) (post post' : A -> Rng -> Prop) (r : Rng) :
  (forall a r', post a r' -> post' a r') -> wp m post r -> wp m post' r.
Proof.
  intros Himp (a & r' & Hm & Hpost). exists a, r'. auto.
Qed.

Lemma wp_Math_random (post : Q -> Rng -> Prop) (r : Rng) :
  post (oracle r (cursor r)) (advance r 1) -> wp Math_random post r.
Proof.
  intro H. exists (oracle r (cursor r)), (advance r 1).
  split; [reflexivity | exact H].
Qed.

Lemma wp_rand (a b : Q) (post : Q -> Rng -> Prop) (r : Rng) :
  post (a + oracle r (cursor r) * (b - a)) (advance r 1) ->
  wp (rand a b) post r.
Proof.
  intro H. unfold rand. apply wp_bind, wp_Math_random, wp_ret, H.
Qed.

Lemma wp_randi (a b : Q) (post : Q -> Rng -> Prop) (r : Rng) :
  post (a + Math_floor (oracle r (cursor r) * (b - a + 1))) (advance r 1) ->
  wp (randi a b) post r.
Proof.
  intro H. unfold randi. apply wp_bind, wp_Math_random, wp_ret, H.
Qed.

Lemma wp_inv {A : Type} (m : M A) (post : A -> Rng -> Prop) (r : Rng)
  (a : A) (r' : Rng) :
  wp m post r -> m r = Some (a, r') -> post a r'.
Proof.
  intros (a0 & r0 & Hm & Hpost) Heq. rewrite Hm in Heq.
  injection Heq as <- <-. exact Hpost.
Qed.

(** The rule of the counting loop: an invariant indexed by the loop
    variable. *)
Lemma wp_for_count {St : Type} (inv : nat -> St -> Rng -> Prop)
  (body : nat -> St -> M St) (n : nat) :
  forall (i : nat) (s : St) (r : Rng),
    inv i s r ->
    (forall j s' r', (i <= j < i + n)%nat -> inv j s' r' ->
                     wp (body j s') (inv (S j)) r') ->
    wp (for_count n i body s) (inv (i + n)%nat) r.
Proof.
  induction n as [|n IH]; intros i s r Hinv Hbody; cbn [for_count].
  - apply wp_ret. rewrite Nat.add_0_r. exact Hinv.
  - apply wp_bind.
    apply (wp_mono _ (inv (S i))); [|apply Hbody; [lia | exact Hinv]].
    intros s1 r1 H1. replace (i + S n)%nat with (S i + n)%nat by lia.
    apply IH; [exact H1|]. intros j s' r' Hj. apply Hbody. lia.
Qed.

(** The rule of the stepping loop: with a step of at least 1, a fuel of at
    least [bound - v] reaches the end of the loop. *)
Lemma wp_for_step {St : Type} (inv : St -> Rng -> Prop)
  (body : Q -> St -> M St) (bound step : Q) :
  1 <= step ->
  (forall v s r, inv s r -> wp (body v s) inv r) ->
  forall (fuel : nat) (v : Q) (s : St) (r : Rng),
    bound - v <= Qnat fuel -> inv s r ->
    wp (for_step fuel v bound step body s) inv r.
Proof.
  intros Hstep Hbody. induction fuel as [|fuel IH]; intros v s r Hfuel Hinv.
  - cbn [for_step]. destruct (Qltb v bound) eqn:E.
    + apply Qltb_lt in E. change (Qnat 0) with 0 in Hfuel. lra.
    + apply wp_ret, Hinv.
  - cbn [for_step]. destruct (Qltb v bound) eqn:E.
    + apply wp_bind. apply (wp_mono _ inv); [|apply Hbody, Hinv].
      intros s1 r1 H1. apply IH; [|exact H1].
      assert (Qnat (S fuel) == Qnat fuel + 1).
      { unfold Qnat. rewrite Nat2Z.inj_succ, <- Z.add_1_r, inject_Z_plus.
        reflexivity. }
      lra.
    + apply wp_ret, Hinv.
Qed.

(** ** Tree generation (tree._growRecursive and tree.init) *)

Lemma wp_branchCount (d : Z) (r : Rng) :
  wp (branchCount d)
     (fun bc _ => (1 <= bc <= 2)%nat /\ ((d < 2)%Z -> bc = 2%nat)) r.
Proof.
  unfold branchCount. destruct (d <? 2)%Z eqn:E.
  - apply wp_ret. split; [lia | reflexivity].
  - apply wp_bind, wp_Math_random, wp_ret. apply Z.ltb_ge in E.
    split; [destruct (Qltb _ _); lia | lia].
Qed.

Lemma wp_child_of (n : Node) (s : Segment) (maxDepth : Z) (i : nat)
  (r : Rng) :
  wp (child_of n s maxDepth i)
     (fun c _ => depth c = (depth n + 1)%Z /\
                 len c = len n * (0.58 + oracle r (S (cursor r)) * (0.78 - 0.58)) /\
                 thickness c
                 = thickness n
                   * (0.62 + oracle r (S (S (cursor r))) * (0.78 - 0.62)))
     r.
Proof.
  unfold child_of.
  apply wp_bind, wp_rand, wp_bind, wp_rand, wp_bind, wp_rand, wp_bind,
    wp_rand, wp_ret.
  cbn. auto.
Qed.

Lemma push_segment_frame (s : Segment) (tr : Tree) :
  same_frame tr (push_segment s tr).
Proof. repeat split. Qed.

Lemma same_frame_trans (a b c : Tree) :
  same_frame a b -> same_frame b c -> same_frame a c.
Proof.
  unfold same_frame. intros (? & ? & ? & ?) (? & ? & ? & ?).
  repeat split; congruence.
Qed.

(** With more fuel than [maxDepth - depth] the recursion returns, and it
    does to the tree and the log what [grow_post] says. *)
Lemma growRec_spec (cos sin : Q -> Q) (maxDepth : Z) :
  forall (fuel : nat) (node : Node) (st : Tree * list Node) (r : Rng),
    (Z.to_nat (maxDepth - depth node) < fuel)%nat ->
    wp (growRec cos sin fuel node maxDepth st)
       (fun st' _ => grow_post cos sin node maxDepth st st') r.
Proof.
  induction fuel as [|fuel IH]; intros node [tr calls] r Hfuel; [lia|].
  cbn [growRec]. apply wp_bind, wp_rand.
  set (bend := -0.35 + oracle r (cursor r) * (0.35 - -0.35)).
  set (sg := segment_of cos sin node bend).
  destruct (depth node >=? maxDepth)%Z eqn:E.
  - apply wp_ret. exists bend, [], []. cbn [fst snd]. rewrite E.
    repeat split; auto.
  - rewrite Z.geb_leb in E. apply Z.leb_gt in E.
    apply wp_bind.
    eapply wp_mono; [|apply wp_branchCount]. cbv beta.
    intros bc r1 [Hbc _].
    set (inv := fun (j : nat) (st' : Tree * list Node) (_ : Rng) =>
      exists news newc,
        segments (fst st') = (segments tr ++ [sg]) ++ news /\
        snd st' = (calls ++ [node]) ++ newc /\
        map seg_depth news = map depth newc /\
        Forall (fun n => (depth node < depth n <= maxDepth)%Z) newc /\
        (j = 0%nat \/ newc <> []) /\
        same_frame tr (fst st')).
    apply (wp_mono _ (inv (0 + bc)%nat)).
    { intros st' r' (news & newc & Hs & Hc & Hd & Hf & Hne & Hfr).
      exists bend, news, newc. cbn [fst snd].
      rewrite Hs, Hc, <- !app_assoc. cbn [app].
      destruct (depth node >=? maxDepth)%Z eqn:E';
        [rewrite Z.geb_leb in E'; apply Z.leb_le in E'; lia|].
      repeat split; auto; try apply Hfr.
      destruct Hne as [Hz|Hne]; [lia | exact Hne]. }
    apply wp_for_count.
    { exists [], []. cbn [fst snd push_segment segments].
      rewrite !app_nil_r.
      repeat split; auto. }
    intros j [tr1 calls1] r2 Hj (news & newc & Hs & Hc & Hd & Hf & _ & Hfr).
    cbn [fst snd] in Hs, Hc, Hfr.
    apply wp_bind.
    eapply wp_mono; [|apply wp_child_of]. cbv beta.
    intros child r3 (Hchild & _).
    eapply wp_mono; [|apply IH; lia]. cbv beta.
    intros [tr2 calls2] r4 (b' & news' & newc' & Hs' & Hc' & Hd' & Hf' & _ & Hfr').
    cbn [fst snd] in Hs', Hc', Hfr'.
    exists (news ++ segment_of cos sin child b' :: news'),
           (newc ++ child :: newc').
    cbn [fst snd]. rewrite Hs', Hc', Hs, Hc, <- !app_assoc.
    split; [reflexivity|]. split; [reflexivity|].
    split.
    { rewrite !map_app. cbn [map segment_of seg_depth]. congruence. }
    split.
    { apply Forall_app. split; [exact Hf|]. constructor; [lia|].
      eapply Forall_impl; [|exact Hf']. cbn beta. intros; lia. }
    split.
    { right. destruct newc; discriminate. }
    eapply same_frame_trans; eassumption.
Qed.

Lemma insertSorted_perm {A : Type} (cmp : A -> A -> Q) (a : A) (l : list A) :
  Permutation (insertSorted cmp a l) (a :: l).
Proof.
  induction l as [|b l IH]; cbn [insertSorted]; [reflexivity|].
  destruct (Qle_bool (cmp a b) 0); [reflexivity|].
  rewrite IH. apply perm_swap.
Qed.

Lemma array_sort_perm {A : Type} (cmp : A -> A -> Q) (l : list A) :
  Permutation (array_sort cmp l) l.
Proof.
  induction l as [|a l IH]; cbn; [reflexivity|].
  change (fold_right (insertSorted cmp) [] l) with (array_sort cmp l).
  rewrite insertSorted_perm. constructor. exact IH.
Qed.

Lemma _growRecursive_spec (cos sin : Q -> Q) (node : Node) (maxDepth : Z)
  (st : Tree * list Node) (r : Rng) :
  wp (_growRecursive cos sin node maxDepth st)
     (fun st' _ => grow_post cos sin node maxDepth st st') r.
Proof. unfold _growRecursive. apply growRec_spec. lia. Qed.

(** Claim C3: every invocation of [_growRecursive] returns; it appends the
    segment of its own node, and logs the invocation, before anything that a
    nested invocation appends; a node at depth [maxDepth] or deeper adds
    nothing else, a shallower one recurses; the segments added and the
    invocations made correspond one to one, depth by depth.  Hence the tree
    [tree.init] builds has as many segments as there were invocations, with
    the same depths, all between 0 and 7. *)
Theorem tree_one_segment_per_invocation (cos sin : Q -> Q) (PI : Q) :
  (forall (node : Node) (maxDepth : Z) (tr : Tree) (calls : list Node)
          (r : Rng),
      exists tr' calls' r' bend news newc,
        _growRecursive cos sin node maxDepth (tr, calls) r
        = Some ((tr', calls'), r') /\
        segments tr' = segments tr ++ segment_of cos sin node bend :: news /\
        calls' = calls ++ node :: newc /\
        map seg_depth news = map depth newc /\
        length news = length newc /\
        Forall (fun sg => (depth node < seg_depth sg <= maxDepth)%Z) news /\
        (if (depth node >=? maxDepth)%Z then news = [] else news <> [])) /\
  (forall (s : State) (r : Rng),
      exists tr calls r',
        tree_init_traced cos sin PI s r = Some ((tr, calls), r') /\
        length (segments tr) = length calls /\
        Permutation (map seg_depth (segments tr)) (map depth calls) /\
        Forall (fun sg => (0 <= seg_depth sg <= 7)%Z) (segments tr)).
Proof.
  split.
  - intros node maxDepth tr calls r.
    destruct (_growRecursive_spec cos sin node maxDepth (tr, calls) r)
      as ([tr' calls'] & r' & Hrun & bend & news & newc
          & Hs & Hc & Hd & Hf & Hstop & _).
    cbn [fst snd] in Hs, Hc.
    exists tr', calls', r', bend, news, newc.
    assert (Hlen : length news = length newc).
    { rewrite <- (length_map seg_depth news), Hd. apply length_map. }
    repeat (split; [assumption|]).
    split.
    { apply Forall_forall. intros sg Hin.
      apply (in_map seg_depth) in Hin. rewrite Hd in Hin.
      apply in_map_iff in Hin. destruct Hin as (n & Hn & Hin).
      rewrite Forall_forall in Hf. rewrite <- Hn. apply Hf, Hin. }
    destruct (depth node >=? maxDepth)%Z.
    + subst newc. destruct news; [reflexivity | discriminate].
    + intro Hnil. subst news. destruct newc; [auto | discriminate].
  - intros s r.
    enough (H : wp (tree_init_traced cos sin PI s)
                  (fun res _ =>
                     length (segments (fst res)) = length (snd res) /\
                     Permutation (map seg_depth (segments (fst res)))
                       (map depth (snd res)) /\
                     Forall (fun sg => (0 <= seg_depth sg <= 7)%Z)
                       (segments (fst res))) r).
    { destruct H as ([tr calls] & r' & Hrun & H). exists tr, calls, r'.
      split; [exact Hrun | exact H]. }
    unfold tree_init_traced. apply wp_bind, wp_rand, wp_bind.
    eapply wp_mono; [|apply _growRecursive_spec]. cbv beta.
    intros [tr' calls'] r' (bend & news & newc & Hs & Hc & Hd & Hf & _ & _).
    cbn [fst snd segments app depth] in Hs, Hc, Hf.
    apply wp_ret. cbn [fst snd segments].
    assert (Hdepths : map seg_depth (segments tr') = map depth calls').
    { rewrite Hs, Hc. cbn [map segment_of seg_depth depth]. congruence. }
    split.
    { rewrite (Permutation_length (array_sort_perm _ _)).
      rewrite <- (length_map seg_depth), Hdepths. apply length_map. }
    split.
    { rewrite <- Hdepths. apply Permutation_map, array_sort_perm. }
    apply (Permutation_Forall (Permutation_sym (array_sort_perm _ _))).
    apply Forall_forall. intros sg Hin.
    apply (in_map seg_depth) in Hin. rewrite Hdepths in Hin.
    apply in_map_iff in Hin. destruct Hin as (n & Hn & Hin).
    rewrite <- Hn. rewrite Hc in Hin. destruct Hin as [<-|Hin].
    + cbn. lia.
    + rewrite Forall_forall in Hf. specialize (Hf n Hin). lia.
Qed.

(** ** Scene sequencer (update and scene.switchTo) *)

Section Sequencer.

Variable sin : Q -> Q.
Variable PI : Q.
Variable getImageData : Img -> Q -> Q -> list Z.

(** One tick in the Seed scene: the scene clock advances by [dt]; the scene
    switches to Tree, with the clock back at 0, when the advanced clock
    exceeds 2.4, and stays Seed otherwise. *)
Lemma update_in_seed (dt : Q) (wd : World) (r : Rng) :
  name (w_scene wd) = SEED ->
  exists wd',
    update sin PI getImageData dt wd r = Some (wd', r) /\
    w_scene wd'
    = (if Qltb 2.4 (timeIn (w_scene wd) + dt)
       then {| name := TREE; timeIn := 0 |}
       else {| name := SEED; timeIn := timeIn (w_scene wd) + dt |}) /\
    w_tree wd' = w_tree wd /\ w_face wd' = w_face wd /\
    w_state wd' = w_state wd /\ w_images wd' = w_images wd.
Proof.
  intro Hname. unfold update. cbn [name timeIn].
  rewrite Hname. eexists. split; [reflexivity|]. cbn.
  destruct (Qltb _ _); repeat split; reflexivity.
Qed.

Lemma clock_after_ge (dts : list Q) :
  forall t0 : Q, (forall d, In d dts -> 0 <= d) -> t0 <= clock_after t0 dts.
Proof.
  induction dts as [|d dts IH]; intros t0 Hpos; cbn; [lra|].
  assert (0 <= d) by (apply Hpos; left; reflexivity).
  apply (Qle_trans _ (t0 + d)); [lra|].
  apply IH. intros x Hx. apply Hpos. right. exact Hx.
Qed.

Lemma ticks_in_seed (dts : list Q) :
  forall (wd : World) (r : Rng),
    name (w_scene wd) = SEED ->
    (forall d, In d dts -> 0 <= d) ->
    clock_after (timeIn (w_scene wd)) dts <= 2.4 ->
    exists wd',
      ticks sin PI getImageData dts wd r = Some (wd', r) /\
      name (w_scene wd') = SEED /\
      timeIn (w_scene wd') = clock_after (timeIn (w_scene wd)) dts /\
      w_tree wd' = w_tree wd /\ w_face wd' = w_face wd.
Proof.
  induction dts as [|d dts IH]; intros wd r Hname Hpos Hsum.
  - exists wd. cbn. repeat split; auto.
  - cbn [clock_after fold_left] in Hsum.
    fold (clock_after (timeIn (w_scene wd) + d) dts) in Hsum.
    assert (Hrest : timeIn (w_scene wd) + d
                    <= clock_after (timeIn (w_scene wd) + d) dts).
    { apply clock_after_ge. intros x Hx. apply Hpos. right. exact Hx. }
    destruct (update_in_seed d wd r Hname)
      as (wd1 & Hrun & Hsc & Htr & Hfp & _).
    assert (Hstay : Qltb 2.4 (timeIn (w_scene wd) + d) = false)
      by (apply Qltb_ge; lra).
    rewrite Hstay in Hsc.
    destruct (IH wd1 r) as (wd2 & Hrun2 & Hname2 & Htime2 & Htr2 & Hfp2).
    + rewrite Hsc. reflexivity.
    + intros x Hx. apply Hpos. right. exact Hx.
    + rewrite Hsc. cbn [timeIn]. exact Hsum.
    + exists wd2. split.
      { cbn [ticks]. unfold bind. rewrite Hrun. exact Hrun2. }
      split; [exact Hname2|].
      split; [rewrite Htime2, Hsc; reflexivity|].
      split; congruence.
Qed.

(** Claim C2, amended: in the Seed scene, as long as the clock that the
    ticks have added up (each delta added to the scene clock in turn) is at
    most 2.4, exactly 2.4 included, the scene is still Seed and its clock is
    that sum; the tick that takes the clock strictly beyond 2.4 switches the
    scene to Tree with the clock reset to 0. *)
Theorem seed_to_tree_beyond_2_4 (wd : World) (dts : list Q) (dt : Q)
  (r : Rng) :
  name (w_scene wd) = SEED ->
  (forall d, In d dts -> 0 <= d) ->
  clock_after (timeIn (w_scene wd)) dts <= 2.4 ->
  2.4 < clock_after (timeIn (w_scene wd)) dts + dt ->
  exists wd1 wd2,
    ticks sin PI getImageData dts wd r = Some (wd1, r) /\
    name (w_scene wd1) = SEED /\
    timeIn (w_scene wd1) = clock_after (timeIn (w_scene wd)) dts /\
    update sin PI getImageData dt wd1 r = Some (wd2, r) /\
    w_scene wd2 = {| name := TREE; timeIn := 0 |}.
Proof.
  intros Hname Hpos Hsum Hover.
  destruct (ticks_in_seed dts wd r Hname Hpos Hsum)
    as (wd1 & Hrun & Hname1 & Htime1 & _).
  destruct (update_in_seed dt wd1 r Hname1) as (wd2 & Hrun2 & Hsc & _).
  assert (Hgo : Qltb 2.4 (timeIn (w_scene wd1) + dt) = true)
    by (apply Qltb_lt; rewrite Htime1; exact Hover).
  rewrite Hgo in Hsc.
  exists wd1, wd2. repeat split; auto.
Qed.

End Sequencer.

(** Seventy-six ticks of 1/32 bring the clock to 2.375 and leave the scene
    Seed; one more takes it to 2.40625 and switches to Tree.  Every clock
    value on the way is a binary64 number. *)
Lemma seed_to_tree_beyond_2_4_witness :
  exists wd1 wd2,
    ticks flat 3 grey_pixels (repeat 0.03125 76) demo_world demo_rng
    = Some (wd1, demo_rng) /\
    name (w_scene wd1) = SEED /\
    timeIn (w_scene wd1) = clock_after 0 (repeat 0.03125 76) /\
    update flat 3 grey_pixels 0.03125 wd1 demo_rng = Some (wd2, demo_rng) /\
    w_scene wd2 = {| name := TREE; timeIn := 0 |}.
Proof.
  apply (seed_to_tree_beyond_2_4 flat 3 grey_pixels demo_world
           (repeat 0.03125 76) 0.03125 demo_rng).
  - reflexivity.
  - intros d Hd. apply repeat_spec in Hd. subst d. lra.
  - vm_compute. discriminate.
  - vm_compute. reflexivity.
Defined.

(** Claim C2 as stated fails: seventy-six ticks of 1/32 and one of 0.025
    feed exactly 2.4 time units to a world that starts in the Seed scene
    with its clock at 0, and the scene is then still Seed, its clock at 2.4
    and not reset. *)
Lemma seed_scene_not_left_at_2_4 :
  let dts := repeat 0.03125 76 ++ [0.025] in
  total dts == 2.4 /\
  exists wd,
    ticks flat 3 grey_pixels dts demo_world demo_rng = Some (wd, demo_rng) /\
    name (w_scene wd) = SEED /\
    name (w_scene wd) <> TREE /\
    timeIn (w_scene wd) == 2.4 /\
    ~ timeIn (w_scene wd) == 0.
Proof.
  split; [vm_compute; reflexivity|].
  eexists. split; [vm_compute; reflexivity|].
  cbn [w_scene name timeIn].
  split; [reflexivity|]. split; [discriminate|].
  split; [vm_compute; reflexivity | vm_compute; discriminate].
Qed.

(** The same run as the code computes it, in binary64: the clock lands on
    2.4 exactly and the scene stays Seed; one more tick of 1/32 leaves it.
    Sixty ticks of 0.04, which add up to 2.4 over the rationals, add up to
    2.4000000000000012 in binary64 and do leave the Seed scene. *)
Example seed_scene_at_2_4_binary64 :
  seed_ticks_f64 (repeat 0.03125%float 76 ++ [0.025%float]) 0%float
  = (SEED, 2.4%float) /\
  seed_ticks_f64 (repeat 0.03125%float 77) 0%float = (TREE, 0%float) /\
  fold_left PrimFloat.add (repeat 0.04%float 60) 0%float
  = 2.4000000000000012%float /\
  seed_ticks_f64 (repeat 0.04%float 60) 0%float = (TREE, 0%float).
Proof. vm_compute. repeat split; reflexivity. Qed.

(** ** Image sampler (facePortrait.tryBuildTargets) *)

Lemma keepProb_mono (lum1 lum2 : Q) :
  lum1 <= lum2 -> keepProb lum1 <= keepProb lum2.
Proof. intro H. unfold keepProb. apply clamp_mono. lra. Qed.

Lemma keepProb_range (lum : Q) : 0 <= keepProb lum /\ keepProb lum <= 1.
Proof. unfold keepProb. apply clamp_bounds. lra. Qed.

Lemma keepProb_dark (lum : Q) : lum <= 0.15 -> keepProb lum == 0.
Proof. intro H. unfold keepProb. apply clamp_low. lra. Qed.

Lemma keepProb_bright (lum : Q) : 0.775 <= lum -> keepProb lum == 1.
Proof. intro H. unfold keepProb. apply clamp_high; lra. Qed.

Lemma advance_advance (r : Rng) (a b : nat) :
  advance (advance r a) b = advance r (b + a).
Proof. unfold advance. cbn. f_equal. lia. Qed.

Lemma advance_0 (r : Rng) : advance r 0 = r.
Proof. destruct r. reflexivity. Qed.

(** What [sampleCell] does with a pixel that lies in the pixel array. *)
Lemma sampleCell_in_array (imgData : list Z) (portraitW y x : Q)
  (points : list TargetPoint) (r : Rng) (cr cg cb : Z) :
  let i := (y * portraitW + x) * 4 in
  js_index imgData i = Some cr ->
  js_index imgData (i + 1) = Some cg ->
  js_index imgData (i + 2) = Some cb ->
  let lum := luminance (inject_Z cr) (inject_Z cg) (inject_Z cb) in
  sampleCell imgData portraitW y x points r
  = Some (if Qltb (oracle r (cursor r)) (keepProb lum)
          then points ++ [{| pt_x := x; pt_y := y; pt_lum := lum |}]
          else points,
          advance r 1).
Proof.
  intros i Hr Hg Hb lum. unfold sampleCell. fold i. rewrite Hr, Hg, Hb.
  fold lum. unfold bind, Math_random.
  destruct (Qltb _ _); reflexivity.
Qed.

(** Claim C5: a grid pixel that lies in the pixel array is kept exactly when
    the random draw is below clamp((lum - 0.15) * 1.6, 0, 1), lum being
    (0.2126 R + 0.7152 G + 0.0722 B) / 255; so a pixel of luminance at most
    0.15 is never kept and one of luminance at least 0.775 is always kept.
    The keep probability lies in [0, 1], does not decrease with the
    luminance, is 0 up to luminance 0.15 and 1 from luminance 0.775 on. *)
Theorem keepProb_monotone_saturating (imgData : list Z) (portraitW y x : Q)
  (points : list TargetPoint) (r : Rng) (cr cg cb : Z) (lum1 lum2 : Q) :
  let i := (y * portraitW + x) * 4 in
  js_index imgData i = Some cr ->
  js_index imgData (i + 1) = Some cg ->
  js_index imgData (i + 2) = Some cb ->
  unit_interval r ->
  lum1 <= lum2 ->
  let lum := (0.2126 * inject_Z cr + 0.7152 * inject_Z cg
              + 0.0722 * inject_Z cb) / 255 in
  let kept := points ++ [{| pt_x := x; pt_y := y; pt_lum := lum |}] in
  sampleCell imgData portraitW y x points r
  = Some (if Qltb (oracle r (cursor r)) (clamp ((lum - 0.15) * 1.6) 0 1)
          then kept else points, advance r 1) /\
  (lum <= 0.15 ->
   sampleCell imgData portraitW y x points r = Some (points, advance r 1)) /\
  (0.775 <= lum ->
   sampleCell imgData portraitW y x points r = Some (kept, advance r 1)) /\
  keepProb lum1 <= keepProb lum2 /\
  (0 <= keepProb lum1 /\ keepProb lum1 <= 1) /\
  (lum1 <= 0.15 -> keepProb lum1 == 0) /\
  (0.775 <= lum2 -> keepProb lum2 == 1).
Proof.
  intros i Hr Hg Hb Hunit Hle lum kept.
  pose proof (sampleCell_in_array imgData portraitW y x points r cr cg cb
                Hr Hg Hb) as Hcell.
  cbv zeta in Hcell. fold i in Hcell.
  change (luminance (inject_Z cr) (inject_Z cg) (inject_Z cb)) with lum
    in Hcell.
  fold kept in Hcell.
  destruct (Hunit (cursor r)) as [Hu0 Hu1].
  split; [exact Hcell|].
  split.
  { intro Hdark. rewrite Hcell.
    assert (E : Qltb (oracle r (cursor r)) (keepProb lum) = false).
    { apply Qltb_ge. rewrite (keepProb_dark lum Hdark). exact Hu0. }
    rewrite E. reflexivity. }
  split.
  { intro Hbright. rewrite Hcell.
    assert (E : Qltb (oracle r (cursor r)) (keepProb lum) = true).
    { apply Qltb_lt. rewrite (keepProb_bright lum Hbright). exact Hu1. }
    rewrite E. reflexivity. }
  split; [apply keepProb_mono, Hle|].
  split; [apply keepProb_range|].
  split; [apply keepProb_dark | apply keepProb_bright].
Qed.

Lemma demo_rng_unit_interval (k : nat) : unit_interval (advance demo_rng k).
Proof.
  intro n. cbn [advance oracle demo_rng]. unfold demo_oracle.
  pose proof (Z.mod_pos_bound (Z.of_nat n * 37) 100 ltac:(lia)) as [H0 H1].
  unfold Qle, Qlt. cbn [Qnum Qden]. lia.
Qed.

Lemma keepProb_monotone_saturating_witness :
  sampleCell [200; 200; 200; 255]%Z 1 0 0 [] demo_rng
  = Some ([{| pt_x := 0; pt_y := 0;
              pt_lum := (0.2126 * inject_Z 200 + 0.7152 * inject_Z 200
                         + 0.0722 * inject_Z 200) / 255 |}],
          advance demo_rng 1) /\
  keepProb 0.1 <= keepProb 0.8 /\ keepProb 0.1 == 0 /\ keepProb 0.8 == 1.
Proof.
  destruct (keepProb_monotone_saturating [200; 200; 200; 255]%Z 1 0 0 []
              demo_rng 200 200 200 0.1 0.8
              eq_refl eq_refl eq_refl (demo_rng_unit_interval 0)
              ltac:(lra))
    as (_ & _ & Hbright & Hmono & _ & Hdark & Hsat).
  split; [apply Hbright; vm_compute; discriminate|].
  split; [exact Hmono|].
  split; [apply Hdark; lra | apply Hsat; lra].
Defined.

Lemma wp_sampleCell (imgData : list Z) (portraitW y x : Q)
  (points : list TargetPoint) (r : Rng) :
  wp (sampleCell imgData portraitW y x points)
     (fun _ r' => oracle r' = oracle r) r.
Proof.
  unfold sampleCell.
  destruct (js_index imgData _) as [cr|];
    [destruct (js_index imgData _) as [cg|];
     [destruct (js_index imgData _) as [cb|]|]|];
    apply wp_bind, wp_Math_random;
    try (apply wp_ret; reflexivity).
  destruct (Qltb _ _); apply wp_ret; reflexivity.
Qed.

Lemma Qnat_to_nat_ceiling (v : Q) : v <= Qnat (Z.to_nat (Qceiling v)).
Proof.
  apply (Qle_trans _ (inject_Z (Qceiling v))); [apply Qle_ceiling|].
  unfold Qnat. rewrite <- Zle_Qle. lia.
Qed.

(** The sampling loops run to their end whenever the step is at least 1 and
    the sampled area is no wider than high. *)
Lemma wp_samplePoints (imgData : list Z) (portraitW portraitH step : Q)
  (r : Rng) :
  1 <= step -> portraitW <= portraitH ->
  wp (samplePoints imgData portraitW portraitH step)
     (fun _ r' => oracle r' = oracle r) r.
Proof.
  intros Hstep Hwh. unfold samplePoints.
  pose proof (Qnat_to_nat_ceiling portraitH) as Hfuel.
  apply (wp_for_step (fun _ r' => oracle r' = oracle r)); auto; [|lra].
  intros y pts r1 Hr1.
  apply (wp_for_step (fun _ r' => oracle r' = oracle r)); auto; [|lra].
  intros x pts' r2 Hr2.
  eapply wp_mono; [|apply wp_sampleCell]. cbv beta. congruence.
Qed.

(** The synthetic point number [k] of the fallback, from the three draws it
    takes. *)
Lemma wp_syntheticPoint (portraitW portraitH : Q) (r : Rng) :
  wp (syntheticPoint portraitW portraitH)
     (fun p r' =>
        r' = advance r 3 /\
        pt_x p == Math_floor (oracle r (cursor r) * portraitW) /\
        pt_y p == Math_floor (oracle r (1 + cursor r) * portraitH) /\
        pt_lum p == 0.2 + 0.7 * oracle r (2 + cursor r)) r.
Proof.
  unfold syntheticPoint.
  apply wp_bind, wp_randi, wp_bind, wp_randi, wp_bind, wp_rand, wp_ret.
  cbn [advance oracle cursor pt_x pt_y pt_lum Nat.add].
  split; [reflexivity|].
  split; [|split].
  - rewrite Qplus_0_l. unfold Math_floor.
    rewrite (Qfloor_comp _ (oracle r (cursor r) * portraitW));
      [reflexivity | ring].
  - rewrite Qplus_0_l. unfold Math_floor.
    rewrite (Qfloor_comp _ (oracle r (S (cursor r)) * portraitH));
      [reflexivity | ring].
  - ring.
Qed.

(** The fallback: below 600 points, 900 synthetic points are appended and
    nothing is removed; from 600 points on the list is left alone. *)
Lemma wp_ensureMinimum (portraitW portraitH : Q)
  (points : list TargetPoint) (r : Rng) :
  wp (ensureMinimum portraitW portraitH points)
     (fun points' r' =>
        exists synth,
          points' = points ++ synth /\
          if (length points <? 600)%nat
          then length synth = 900%nat /\ r' = advance r 2700 /\
               forall k p, nth_error synth k = Some p ->
                 pt_x p
                 == Math_floor (oracle r (3 * k + cursor r) * portraitW) /\
                 pt_y p
                 == Math_floor (oracle r (3 * k + 1 + cursor r) * portraitH) /\
                 pt_lum p == 0.2 + 0.7 * oracle r (3 * k + 2 + cursor r)
          else synth = [] /\ r' = r) r.
Proof.
  unfold ensureMinimum. destruct (length points <? 600)%nat.
  2: { apply wp_ret. exists []. rewrite app_nil_r. auto. }
  set (inv := fun (j : nat) (pts : list TargetPoint) (r' : Rng) =>
    exists synth,
      pts = points ++ synth /\ length synth = j /\
      r' = advance r (3 * j) /\
      forall k p, nth_error synth k = Some p ->
        pt_x p == Math_floor (oracle r (3 * k + cursor r) * portraitW) /\
        pt_y p == Math_floor (oracle r (3 * k + 1 + cursor r) * portraitH) /\
        pt_lum p == 0.2 + 0.7 * oracle r (3 * k + 2 + cursor r)).
  apply (wp_mono _ (inv (0 + 900)%nat)).
  { intros pts r' (synth & Hp & Hl & Hr & Hk). exists synth. auto. }
  apply wp_for_count.
  { exists []. rewrite app_nil_r, advance_0.
    split; [reflexivity|]. split; [reflexivity|]. split; [reflexivity|].
    intros [|k] p Hk; discriminate. }
  intros j pts r' _ (synth & Hp & Hl & Hr & Hk).
  apply wp_bind. eapply wp_mono; [|apply wp_syntheticPoint]. cbv beta.
  intros pt r'' (Hr'' & Hx & Hy & Hlum). apply wp_ret.
  exists (synth ++ [pt]). subst pts r' r''.
  split; [symmetry; apply app_assoc|].
  split; [rewrite length_app; cbn; lia|].
  split; [rewrite advance_advance; f_equal; lia|].
  subst j. intros k q Hq.
  destruct (Nat.lt_ge_cases k (length synth)) as [Hlt|Hge].
  - rewrite nth_error_app1 in Hq by exact Hlt. apply Hk, Hq.
  - rewrite nth_error_app2 in Hq by exact Hge.
    destruct (k - length synth)%nat as [|m] eqn:Ek;
      [|destruct m; discriminate].
    injection Hq as <-. assert (k = length synth) by lia. subst k.
    cbn [advance oracle cursor] in Hx, Hy, Hlum.
    replace (3 * length synth + 1 + cursor r)%nat
      with (1 + (3 * length synth + cursor r))%nat by lia.
    replace (3 * length synth + 2 + cursor r)%nat
      with (2 + (3 * length synth + cursor r))%nat by lia.
    auto.
Qed.

Section Sampler.

Variable getImageData : Img -> Q -> Q -> list Z.

Lemma tryBuildTargets_built (s : State) (images : Images) (fp : FacePortrait)
  (r : Rng) :
  builtOnce fp = true ->
  tryBuildTargets getImageData s images fp r = Some (fp, r).
Proof. intro H. unfold tryBuildTargets. rewrite H. reflexivity. Qed.

Lemma tryBuildTargets_no_face (s : State) (images : Images)
  (fp : FacePortrait) (r : Rng) :
  face_ok images = false \/ face_img images = None ->
  tryBuildTargets getImageData s images fp r = Some (fp, r).
Proof.
  intro H. unfold tryBuildTargets. destruct (builtOnce fp); [reflexivity|].
  destruct H as [-> | ->]; [reflexivity|].
  destruct (face_ok images); reflexivity.
Qed.

(** A build: the points sampled from the image, then the fallback. *)
Lemma tryBuildTargets_builds (s : State) (images : Images)
  (fp : FacePortrait) (faceImg : Img) (r : Rng) :
  builtOnce fp = false ->
  face_ok images = true ->
  face_img images = Some faceImg ->
  let portraitW := Qmin 420 (inject_Z (st_w s) * 0.58) in
  let step := clamp (Math_floor (portraitW / 80)) 4 8 in
  exists sampled r1 synth r2,
    samplePoints (getImageData faceImg portraitW portraitW)
      portraitW portraitW step r = Some (sampled, r1) /\
    ensureMinimum portraitW portraitW sampled r1
    = Some (sampled ++ synth, r2) /\
    tryBuildTargets getImageData s images fp r
    = Some ({| ready := true; targetPoints := sampled ++ synth;
               particles := []; builtOnce := true; fadeIn := fadeIn fp;
               off := sizedCanvas portraitW portraitW |}, r2) /\
    oracle r1 = oracle r.
Proof.
  intros Hb Hok Himg portraitW step.
  assert (Hstep : 1 <= step).
  { pose proof (clamp_bounds (Math_floor (portraitW / 80)) 4 8
                  ltac:(lra)) as [H _]. fold step in H. lra. }
  destruct (wp_samplePoints (getImageData faceImg portraitW portraitW)
              portraitW portraitW step r Hstep ltac:(lra))
    as (sampled & r1 & Hsample & Hor).
  destruct (wp_ensureMinimum portraitW portraitW sampled r1)
    as (pts & r2 & Hens & synth & -> & _).
  exists sampled, r1, synth, r2.
  split; [exact Hsample|]. split; [exact Hens|]. split; [|exact Hor].
  unfold tryBuildTargets. rewrite Hb, Hok, Himg.
  fold portraitW. fold step. unfold bind. rewrite Hsample, Hens.
  reflexivity.
Qed.

(** [tryBuildTargets] always returns. *)
Lemma tryBuildTargets_cases (s : State) (images : Images)
  (fp : FacePortrait) (r : Rng) :
  exists fp' r',
    tryBuildTargets getImageData s images fp r = Some (fp', r') /\
    ((fp' = fp /\ r' = r) \/
     (builtOnce fp = false /\ ready fp' = true /\ builtOnce fp' = true /\
      particles fp' = [] /\ (600 <= length (targetPoints fp'))%nat)).
Proof.
  destruct (builtOnce fp) eqn:Hb.
  { exists fp, r. split; [apply tryBuildTargets_built, Hb | left; auto]. }
  destruct (face_ok images) eqn:Hok.
  2: { exists fp, r.
       split; [apply tryBuildTargets_no_face; left; exact Hok | left; auto]. }
  destruct (face_img images) as [faceImg|] eqn:Himg.
  2: { exists fp, r.
       split; [apply tryBuildTargets_no_face; right; exact Himg | left; auto]. }
  destruct (tryBuildTargets_builds s images fp faceImg r Hb Hok Himg)
    as (sampled & r1 & synth & r2 & _ & Hens & Hrun & _).
  eexists _, r2. split; [exact Hrun|]. right.
  cbn [ready builtOnce particles targetPoints].
  repeat (split; [reflexivity|]).
  pose proof (wp_inv _ _ _ _ _ (wp_ensureMinimum _ _ sampled r1) Hens)
    as (synth' & Heq & Hcase).
  apply app_inv_head in Heq. subst synth'.
  rewrite length_app.
  destruct (length sampled <? 600)%nat eqn:E.
  - destruct Hcase as (Hlen & _). lia.
  - apply Nat.ltb_ge in E. lia.
Qed.

(** Claim C6: a build samples the image and then, if fewer than 600 points
    were sampled (none included), appends exactly 900 synthetic points and
    removes none; each synthetic point comes from three draws u, v, w of the
    random source as x = floor(u * portraitW), y = floor(v * portraitW) and
    lum = 0.2 + 0.7 * w, so it lies in the sampled square and its luminance
    in [0.2, 0.9).  With 600 sampled points or more nothing is appended. *)
Theorem fallback_appends_900 (s : State) (images : Images)
  (fp : FacePortrait) (faceImg : Img) (r : Rng) :
  builtOnce fp = false ->
  face_ok images = true ->
  face_img images = Some faceImg ->
  unit_interval r ->
  (0 < st_w s)%Z ->
  let portraitW := Qmin 420 (inject_Z (st_w s) * 0.58) in
  let step := clamp (Math_floor (portraitW / 80)) 4 8 in
  exists sampled r1 synth fp' r2,
    samplePoints (getImageData faceImg portraitW portraitW)
      portraitW portraitW step r = Some (sampled, r1) /\
    tryBuildTargets getImageData s images fp r = Some (fp', r2) /\
    targetPoints fp' = sampled ++ synth /\
    if (length sampled <? 600)%nat
    then length synth = 900%nat /\
         r2 = advance r1 2700 /\
         forall k p, nth_error synth k = Some p ->
           pt_x p == Math_floor (oracle r1 (3 * k + cursor r1) * portraitW) /\
           pt_y p
           == Math_floor (oracle r1 (3 * k + 1 + cursor r1) * portraitW) /\
           pt_lum p == 0.2 + 0.7 * oracle r1 (3 * k + 2 + cursor r1) /\
           (0 <= pt_x p /\ pt_x p < portraitW) /\
           (0 <= pt_y p /\ pt_y p < portraitW) /\
           (0.2 <= pt_lum p /\ pt_lum p < 0.9)
    else synth = [] /\ r2 = r1.
Proof.
  intros Hb Hok Himg Hunit Hw portraitW step.
  destruct (tryBuildTargets_builds s images fp faceImg r Hb Hok Himg)
    as (sampled & r1 & synth & r2 & Hsample & Hens & Hrun & Hor).
  fold portraitW in Hsample, Hens, Hrun. fold step in Hsample.
  eexists sampled, r1, synth, _, r2.
  split; [exact Hsample|]. split; [exact Hrun|].
  cbn [targetPoints]. split; [reflexivity|].
  pose proof (wp_inv _ _ _ _ _ (wp_ensureMinimum _ _ sampled r1) Hens)
    as (synth' & Heq & Hcase).
  apply app_inv_head in Heq. subst synth'.
  destruct (length sampled <? 600)%nat; [|exact Hcase].
  destruct Hcase as (Hlen & Hr2 & Hpts).
  split; [exact Hlen|]. split; [exact Hr2|].
  intros k p Hk. destruct (Hpts k p Hk) as (Hx & Hy & Hlum).
  assert (HW : 0 < portraitW).
  { unfold portraitW.
    assert (1 <= inject_Z (st_w s))
      by (change 1 with (inject_Z 1); rewrite <- Zle_Qle; lia).
    qminmax; lra. }
  assert (Hfloor : forall u, 0 <= u -> u < 1 ->
            0 <= Math_floor (u * portraitW)
            /\ Math_floor (u * portraitW) < portraitW).
  { intros u Hu0 Hu1. unfold Math_floor. split.
    - change 0 with (inject_Z 0). rewrite <- Zle_Qle.
      change 0%Z with (Qfloor 0). apply Qfloor_resp_le.
      apply Qmult_le_0_compat; lra.
    - apply (Qle_lt_trans _ (u * portraitW)); [apply Qfloor_le|].
      rewrite <- (Qmult_1_l portraitW) at 2.
      apply Qmult_lt_compat_r; assumption. }
  assert (Hu : forall n, 0 <= oracle r1 n /\ oracle r1 n < 1)
    by (intro n; rewrite Hor; apply Hunit).
  split; [exact Hx|]. split; [exact Hy|]. split; [exact Hlum|].
  split; [rewrite Hx; apply Hfloor; apply Hu|].
  split; [rewrite Hy; apply Hfloor; apply Hu|].
  rewrite Hlum. destruct (Hu (3 * k + 2 + cursor r1)%nat). split; lra.
Qed.


End Sampler.

Lemma fallback_appends_900_witness :
  let portraitW := Qmin 420 (inject_Z 50 * 0.58) in
  let step := clamp (Math_floor (portraitW / 80)) 4 8 in
  exists sampled r1 synth fp' r2,
    samplePoints (black_pixels 1%nat portraitW portraitW)
      portraitW portraitW step demo_rng = Some (sampled, r1) /\
    tryBuildTargets black_pixels (demo_state 50 800) face_only
      facePortrait_init demo_rng = Some (fp', r2) /\
    targetPoints fp' = sampled ++ synth /\
    if (length sampled <? 600)%nat
    then length synth = 900%nat /\
         r2 = advance r1 2700 /\
         forall k p, nth_error synth k = Some p ->
           pt_x p == Math_floor (oracle r1 (3 * k + cursor r1) * portraitW) /\
           pt_y p
           == Math_floor (oracle r1 (3 * k + 1 + cursor r1) * portraitW) /\
           pt_lum p == 0.2 + 0.7 * oracle r1 (3 * k + 2 + cursor r1) /\
           (0 <= pt_x p /\ pt_x p < portraitW) /\
           (0 <= pt_y p /\ pt_y p < portraitW) /\
           (0.2 <= pt_lum p /\ pt_lum p < 0.9)
    else synth = [] /\ r2 = r1.
Proof.
  apply (fallback_appends_900 black_pixels (demo_state 50 800) face_only
           facePortrait_init 1%nat demo_rng).
  - reflexivity.
  - reflexivity.
  - reflexivity.
  - apply (demo_rng_unit_interval 0).
  - cbn. lia.
Defined.


(** A dark image yields no sampled point, and the portrait is built from
    the 900 synthetic points alone. *)
Example dark_image_gives_900_points :
  exists fp r,
    tryBuildTargets black_pixels (demo_state 50 800) face_only
      facePortrait_init demo_rng = Some (fp, r) /\
    length (targetPoints fp) = 900%nat /\ ready fp = true.
Proof.
  eexists _, _. split; [vm_compute; reflexivity|].
  split; reflexivity.
Qed.

(** ** Particle field (facePortrait.spawnBatch and facePortrait.update) *)

Lemma wp_pickTile (k : nat) (ts : list (option Tile)) (r : Rng) :
  wp (pickTile k ts) (fun _ r' => oracle r' = oracle r) r.
Proof.
  revert r. induction k as [|k IH]; intro r; cbn [pickTile].
  - apply wp_ret. reflexivity.
  - apply wp_bind, wp_randi.
    destruct (js_index ts _) as [[[[|] [im|]]|]|];
      try (apply wp_ret; reflexivity);
      (eapply wp_mono; [|apply IH]); cbv beta; intros; assumption.
Qed.

Lemma wp_getRandomTileImage (images : Images) (r : Rng) :
  wp (getRandomTileImage images) (fun _ r' => oracle r' = oracle r) r.
Proof.
  unfold getRandomTileImage. destruct (tiles images).
  - apply wp_ret. reflexivity.
  - apply wp_pickTile.
Qed.

Section Particles.

Variable sin : Q -> Q.
Variable PI : Q.
Variable getImageData : Img -> Q -> Q -> list Z.

Lemma wp_spawnOne (s : State) (images : Images) (i : nat)
  (fp : FacePortrait) (p : TargetPoint) (r : Rng) :
  nth_error (targetPoints fp) i = Some p ->
  wp (spawnOne PI s images i fp)
     (fun fp' r' =>
        oracle r' = oracle r /\
        exists q, fp' = push_particle q fp /\ spawned_for s fp p q) r.
Proof.
  intro Hp. unfold spawnOne. rewrite Hp.
  apply wp_bind, wp_rand, wp_bind, wp_rand, wp_bind, wp_rand, wp_bind,
    wp_rand, wp_bind, wp_rand, wp_bind.
  eapply wp_mono; [|apply wp_getRandomTileImage]. cbv beta.
  intros im r1 Hor. apply wp_bind, wp_rand, wp_ret.
  split; [cbn [advance oracle] in *; exact Hor|].
  eexists. split; [reflexivity|]. repeat split.
Qed.

Lemma wp_spawnBatch (maxNew : nat) (s : State) (images : Images)
  (fp : FacePortrait) (r : Rng) :
  wp (spawnBatch PI maxNew s images fp)
     (fun fp' r' =>
        oracle r' = oracle r /\ same_targets fp fp' /\
        exists new,
          particles fp' = particles fp ++ new /\
          length new
          = (if ready fp
             then Nat.min (length (targetPoints fp))
                          (length (particles fp) + maxNew)
                  - length (particles fp)
             else 0)%nat /\
          forall k q, nth_error new k = Some q ->
            exists p,
              nth_error (targetPoints fp) (length (particles fp) + k)
              = Some p /\ spawned_for s fp p q) r.
Proof.
  unfold spawnBatch. destruct (ready fp) eqn:Hready; cbn [negb].
  2: { apply wp_ret. split; [reflexivity|]. split; [repeat split|].
       exists []. rewrite app_nil_r. split; [reflexivity|].
       split; [reflexivity|]. intros [|k] q Hq; discriminate. }
  destruct (length (targetPoints fp) <=? length (particles fp))%nat eqn:E.
  { apply Nat.leb_le in E. apply wp_ret.
    split; [reflexivity|]. split; [repeat split|].
    exists []. rewrite app_nil_r. split; [reflexivity|].
    split; [cbn; lia|]. intros [|k] q Hq; discriminate. }
  apply Nat.leb_gt in E.
  set (start := length (particles fp)).
  set (total_ := length (targetPoints fp)).
  set (end_ := Nat.min total_ (start + maxNew)).
  set (inv := fun (j : nat) (fp' : FacePortrait) (r' : Rng) =>
    oracle r' = oracle r /\ same_targets fp fp' /\
    exists new,
      particles fp' = particles fp ++ new /\
      (start + length new = j)%nat /\
      forall k q, nth_error new k = Some q ->
        exists p, nth_error (targetPoints fp) (start + k) = Some p /\
                  spawned_for s fp p q).
  apply (wp_mono _ (inv (start + (end_ - start))%nat)).
  { intros fp' r' (Hor & Hsame & new & Hps & Hlen & Hnew).
    split; [exact Hor|]. split; [exact Hsame|].
    exists new. split; [exact Hps|]. split; [lia | exact Hnew]. }
  apply wp_for_count.
  { split; [reflexivity|]. split; [repeat split|].
    exists []. rewrite app_nil_r. split; [reflexivity|].
    split; [cbn; lia|]. intros [|k] q Hq; discriminate. }
  intros j fp1 r1 Hj (Hor & Hsame & new & Hps & Hlen & Hnew).
  destruct Hsame as (Htp & Hrd & Hbo & Hoff & Hfade).
  assert (Hj' : (j < total_)%nat) by (unfold end_ in Hj; lia).
  destruct (nth_error (targetPoints fp) j) as [p|] eqn:Hp.
  2: { apply nth_error_None in Hp. fold total_ in Hp. lia. }
  eapply wp_mono; [|apply (wp_spawnOne s images j fp1 p r1); congruence].
  cbv beta. intros fp2 r2 (Hor2 & q & -> & Hq).
  split; [congruence|].
  split; [repeat split; cbn; assumption|].
  exists (new ++ [q]). cbn [push_particle particles].
  split; [rewrite Hps; symmetry; apply app_assoc|].
  split; [rewrite length_app; cbn; lia|].
  intros k q' Hk.
  destruct (Nat.lt_ge_cases k (length new)) as [Hlt|Hge].
  - rewrite nth_error_app1 in Hk by exact Hlt. apply Hnew, Hk.
  - rewrite nth_error_app2 in Hk by exact Hge.
    destruct (k - length new)%nat as [|m] eqn:Ek;
      [|destruct m; discriminate].
    injection Hk as <-. exists p.
    replace (start + k)%nat with j by lia.
    split; [exact Hp|].
    unfold spawned_for in *. rewrite Hoff in Hq. exact Hq.
Qed.

Lemma wp_stepParticle (s : State) (sc : Scene) (images : Images) (i : nat)
  (p : Particle) (r : Rng) :
  wp (stepParticle sin s sc images i p)
     (fun p' r' => oracle r' = oracle r /\ particle_step sin s sc i p p') r.
Proof.
  unfold stepParticle. apply wp_bind.
  apply (wp_mono _ (fun im r' =>
           oracle r' = oracle r /\ (pa_img p <> None -> im = pa_img p))).
  2: { destruct (pa_img p) as [im|].
       - apply wp_ret. auto.
       - eapply wp_mono; [|apply wp_getRandomTileImage]. cbv beta.
         intros im r' Hor. split; [exact Hor | congruence]. }
  intros im r' (Hor & Him). unfold particle_step.
  destruct (Qltb (timeIn sc - pa_delay p) 0); apply wp_ret;
    (split; [exact Hor|]); cbn; repeat split; auto.
Qed.

Lemma wp_stepParticles (s : State) (sc : Scene) (images : Images)
  (ps : list Particle) :
  forall (i : nat) (r : Rng),
    wp (stepParticles sin s sc images i ps)
       (fun ps' r' =>
          oracle r' = oracle r /\ length ps' = length ps /\
          forall k p, nth_error ps k = Some p ->
            exists p', nth_error ps' k = Some p' /\
                       particle_step sin s sc (i + k) p p') r.
Proof.
  induction ps as [|p ps IH]; intros i r; cbn [stepParticles].
  - apply wp_ret. split; [reflexivity|]. split; [reflexivity|].
    intros [|k] q Hq; discriminate.
  - apply wp_bind. eapply wp_mono; [|apply wp_stepParticle]. cbv beta.
    intros p' r1 (Hor1 & Hstep). apply wp_bind.
    eapply wp_mono; [|apply IH]. cbv beta.
    intros ps' r2 (Hor2 & Hlen & Hrest). apply wp_ret.
    split; [congruence|]. split; [cbn; congruence|].
    intros [|k] q Hq; cbn in Hq.
    + injection Hq as <-. exists p'. rewrite Nat.add_0_r. auto.
    + destruct (Hrest k q Hq) as (q' & Hq' & Hs). exists q'.
      replace (i + S k)%nat with (S i + k)%nat by lia. auto.
Qed.

End Particles.

Section PortraitCycle.

Variable sin : Q -> Q.
Variable PI : Q.
Variable getImageData : Img -> Q -> Q -> list Z.

(** [facePortrait.update] always returns: it builds the targets if it can,
    spawns a batch, and steps every particle, the new ones included. *)
Lemma wp_facePortrait_update (s : State) (sc : Scene) (images : Images)
  (fp : FacePortrait) (r : Rng) :
  wp (facePortrait_update sin PI getImageData s sc images fp)
     (fun fp' r' =>
        oracle r' = oracle r /\
        exists fp1 r1 new,
          tryBuildTargets getImageData s images fp r = Some (fp1, r1) /\
          targetPoints fp' = targetPoints fp1 /\
          ready fp' = ready fp1 /\ builtOnce fp' = builtOnce fp1 /\
          off fp' = off fp1 /\
          fadeIn fp' = smoothstep (clamp (timeIn sc / 2.2) 0 1) /\
          length new
          = (if ready fp1
             then Nat.min (length (targetPoints fp1))
                          (length (particles fp1) + batchSize s)
                  - length (particles fp1)
             else 0)%nat /\
          length (particles fp')
          = (length (particles fp1) + length new)%nat /\
          (forall k p, nth_error (particles fp1 ++ new) k = Some p ->
             exists p', nth_error (particles fp') k = Some p' /\
                        particle_step sin s sc k p p') /\
          (forall k q, nth_error new k = Some q ->
             exists p,
               nth_error (targetPoints fp1) (length (particles fp1) + k)
               = Some p /\ spawned_for s fp1 p q)) r.
Proof.
  unfold facePortrait_update. apply wp_bind.
  destruct (tryBuildTargets_cases getImageData s images fp r)
    as (fp1 & r1 & Hbuild & Hcase).
  exists fp1, r1. split; [exact Hbuild|].
  assert (Hor1 : oracle r1 = oracle r).
  { destruct Hcase as [[-> ->]|(Hb & _)]; [reflexivity|].
    destruct (face_ok images) eqn:Hok.
    2: { rewrite tryBuildTargets_no_face in Hbuild by (left; exact Hok).
         congruence. }
    destruct (face_img images) as [faceImg|] eqn:Himg.
    2: { rewrite tryBuildTargets_no_face in Hbuild by (right; exact Himg).
         congruence. }
    destruct (tryBuildTargets_builds getImageData s images fp faceImg r
                Hb Hok Himg)
      as (sampled & r1' & synth & r2 & _ & Hens & Hrun & Hor).
    rewrite Hrun in Hbuild. injection Hbuild as _ <-.
    pose proof (wp_inv _ _ _ _ _ (wp_ensureMinimum _ _ sampled r1') Hens)
      as (synth' & _ & Hc).
    destruct (length sampled <? 600)%nat.
    - destruct Hc as (_ & -> & _). exact Hor.
    - destruct Hc as (_ & ->). exact Hor. }
  apply wp_bind. eapply wp_mono; [|apply wp_spawnBatch]. cbv beta.
  intros fp2 r2 (Hor2 & (Htp & Hrd & Hbo & Hoff & Hfade) & new & Hps & Hlen
                 & Hnew).
  apply wp_bind. eapply wp_mono; [|apply wp_stepParticles]. cbv beta.
  intros ps' r3 (Hor3 & Hlen3 & Hsteps). apply wp_ret.
  split; [congruence|].
  exists fp1, r1, new. cbn [targetPoints ready builtOnce off fadeIn particles].
  fold (batchSize s) in Hlen.
  split; [exact Hbuild|]. split; [exact Htp|]. split; [exact Hrd|].
  split; [exact Hbo|]. split; [exact Hoff|]. split; [reflexivity|].
  split; [exact Hlen|].
  split; [rewrite Hlen3, Hps, length_app; reflexivity|].
  split; [|exact Hnew].
  intros k p Hk. rewrite <- Hps in Hk. apply (Hsteps k p Hk).
Qed.

(** [facePortrait.update] keeps the portrait invariant, never removes a
    particle, never has more particles than target points, and adds at most
    one batch. *)
Lemma facePortrait_update_inv (s : State) (sc : Scene) (images : Images)
  (fp : FacePortrait) (r : Rng) :
  portrait_inv fp ->
  wp (facePortrait_update sin PI getImageData s sc images fp)
     (fun fp' r' =>
        oracle r' = oracle r /\ portrait_inv fp' /\
        (length (particles fp) <= length (particles fp'))%nat /\
        (length (particles fp') <= length (targetPoints fp'))%nat /\
        (length (particles fp') - length (particles fp) <= batchSize s)%nat)
     r.
Proof.
  intros (Hrb & Hinv).
  eapply wp_mono; [|apply wp_facePortrait_update]. cbv beta.
  intros fp' r' (Hor & fp1 & r1 & new & Hbuild & Htp & Hrd & Hbo & _ & _
                 & Hlen & Hlen' & _ & _).
  split; [exact Hor|].
  destruct (tryBuildTargets_cases getImageData s images fp r)
    as (fp1' & r1' & Hbuild' & Hcase).
  rewrite Hbuild in Hbuild'. injection Hbuild' as <- <-.
  unfold portrait_inv. rewrite Htp, Hrd, Hbo, Hlen'.
  destruct Hcase as [[-> ->]|(Hb & Hr1 & Hb1 & Hp1 & H600)].
  - rewrite Hrb in Hlen. destruct (builtOnce fp).
    + destruct Hinv as (H600 & Hle). rewrite Hlen. repeat split; auto; lia.
    + destruct Hinv as (Ht & Hp). rewrite Hlen, Hp, Ht. cbn.
      assert (Hnil : particles fp' = []).
      { destruct (particles fp'); [reflexivity|].
        rewrite Hp, Hlen in Hlen'. discriminate. }
      repeat split; auto; lia.
  - rewrite Hb in Hinv. destruct Hinv as (_ & Hp).
    rewrite Hr1, Hb1, Hp1, Hp in *. rewrite Hlen. cbn [length].
    repeat split; auto; lia.
Qed.

Lemma portrait_ticks_inv (envs : list (State * Scene * Images)) :
  forall (fp : FacePortrait) (r : Rng),
    portrait_inv fp ->
    wp (portrait_ticks sin PI getImageData envs fp)
       (fun fp' r' => oracle r' = oracle r /\ portrait_inv fp') r.
Proof.
  induction envs as [|[[s sc] im] envs IH]; intros fp r Hinv;
    cbn [portrait_ticks].
  - apply wp_ret. auto.
  - apply wp_bind. eapply wp_mono; [|apply facePortrait_update_inv, Hinv].
    cbv beta. intros fp1 r1 (Hor & Hinv1 & _).
    eapply wp_mono; [|apply IH, Hinv1]. cbv beta.
    intros fp2 r2 (Hor2 & Hinv2). split; [congruence | exact Hinv2].
Qed.

Lemma facePortrait_init_inv : portrait_inv facePortrait_init.
Proof. repeat split. Qed.

(** Claim C9: at every tick of a portrait cycle, [facePortrait.update]
    returns, the number of particles does not decrease and does not exceed
    the number of target points, and at most 120 particles are added when
    the viewport is at least 520 wide, at most 70 when it is narrower. *)
Theorem particle_count_monotone_bounded
  (envs : list (State * Scene * Images)) (s : State) (sc : Scene)
  (images : Images) (r : Rng) :
  exists fp r1 fp' r2,
    portrait_cycle sin PI getImageData envs r = Some (fp, r1) /\
    facePortrait_update sin PI getImageData s sc images fp r1
    = Some (fp', r2) /\
    (length (particles fp) <= length (particles fp'))%nat /\
    (length (particles fp') <= length (targetPoints fp'))%nat /\
    (length (particles fp') - length (particles fp)
     <= if (st_w s <? 520)%Z then 70 else 120)%nat.
Proof.
  destruct (portrait_ticks_inv envs facePortrait_init r facePortrait_init_inv)
    as (fp & r1 & Hrun & _ & Hinv).
  destruct (facePortrait_update_inv s sc images fp r1 Hinv)
    as (fp' & r2 & Hrun' & _ & _ & Hmono & Hbound & Hbatch).
  exists fp, r1, fp', r2. auto.
Qed.

(** Claim C10: at every point of a portrait cycle the portrait is either
    not ready, with no target point and no particle, or ready with at least
    600 target points. *)
Theorem ready_portrait_has_600_targets
  (envs : list (State * Scene * Images)) (r : Rng) :
  exists fp r',
    portrait_cycle sin PI getImageData envs r = Some (fp, r') /\
    ((ready fp = false /\ targetPoints fp = [] /\ particles fp = []) \/
     (ready fp = true /\ (600 <= length (targetPoints fp))%nat)).
Proof.
  destruct (portrait_ticks_inv envs facePortrait_init r facePortrait_init_inv)
    as (fp & r1 & Hrun & _ & Hrb & Hinv).
  exists fp, r1. split; [exact Hrun|].
  rewrite Hrb. destruct (builtOnce fp).
  - right. split; [reflexivity | apply Hinv].
  - left. split; [reflexivity | exact Hinv].
Qed.

End PortraitCycle.

Section Easing.

Variable sin : Q -> Q.
Variable PI : Q.
Variable getImageData : Img -> Q -> Q -> list Z.

Lemma targetA_range (lum : Q) : 0.35 <= targetA lum /\ targetA lum <= 0.95.
Proof. unfold targetA. apply clamp_bounds. lra. Qed.

Lemma lerp_contracts (a t k : Q) :
  0 <= k -> k <= 1 -> Qabs (lerp a t k - t) <= Qabs (a - t).
Proof.
  intros Hk0 Hk1. unfold lerp.
  setoid_replace (a + (t - a) * k - t) with ((a - t) * (1 - k)) by ring.
  rewrite Qabs_Qmult, (Qabs_pos (1 - k)) by lra.
  pose proof (Qabs_nonneg (a - t)) as Hn.
  rewrite <- (Qmult_1_r (Qabs (a - t))) at 2.
  rewrite !(Qmult_comm (Qabs (a - t))).
  apply Qmult_le_compat_r; [lra | exact Hn].
Qed.

(** Claim C8: at a tick of a built portrait every particle keeps its
    luminance, and with it its target alpha, which is 0.55 + lum * 0.55 kept
    within [0.35, 0.95]; its alpha is unchanged while its delay has not
    elapsed and is otherwise moved to alpha + (target - alpha) * 0.06, the
    linear interpolation with factor 0.06; the new alpha lies between the
    old one and the target, on the side it came from, so it is no farther
    from the target after the tick than before. *)
Theorem alpha_never_overshoots (s : State) (sc : Scene) (images : Images)
  (fp : FacePortrait) (r : Rng) (i : nat) (p : Particle) :
  builtOnce fp = true ->
  nth_error (particles fp) i = Some p ->
  let raw := 0.55 + pa_lum p * 0.55 in
  let target := Qmax 0.35 (Qmin 0.95 raw) in
  exists fp' r' p',
    facePortrait_update sin PI getImageData s sc images fp r
    = Some (fp', r') /\
    nth_error (particles fp') i = Some p' /\
    pa_lum p' = pa_lum p /\
    (0.35 <= target /\ target <= 0.95) /\
    (0.35 <= raw -> raw <= 0.95 -> target == raw) /\
    (timeIn sc - pa_delay p < 0 -> pa_a p' = pa_a p) /\
    (0 <= timeIn sc - pa_delay p ->
     pa_a p' = pa_a p + (target - pa_a p) * 0.06) /\
    (pa_a p <= target -> pa_a p <= pa_a p' /\ pa_a p' <= target) /\
    (target <= pa_a p -> target <= pa_a p' /\ pa_a p' <= pa_a p) /\
    Qabs (pa_a p' - target) <= Qabs (pa_a p - target).
Proof.
  intros Hb Hp raw target.
  destruct (wp_facePortrait_update sin PI getImageData s sc images fp r)
    as (fp' & r' & Hrun & _ & fp1 & r1 & new & Hbuild & _ & _ & _ & _ & _
        & _ & _ & Hsteps & _).
  rewrite (tryBuildTargets_built getImageData s images fp r Hb) in Hbuild.
  injection Hbuild as <- <-.
  destruct (Hsteps i p) as (p' & Hp' & Hstep).
  { rewrite nth_error_app1; [exact Hp|].
    apply nth_error_Some. congruence. }
  exists fp', r', p'. split; [exact Hrun|]. split; [exact Hp'|].
  destruct Hstep as (_ & _ & _ & _ & Hlum & _ & _ & Hmove).
  split; [exact Hlum|].
  assert (Hrange : 0.35 <= target /\ target <= 0.95)
    by apply (targetA_range (pa_lum p)).
  split; [exact Hrange|].
  split; [intros H1 H2; unfold target; qminmax; lra|].
  assert (Hcases :
            (Qltb (timeIn sc - pa_delay p) 0 = true /\ pa_a p' = pa_a p) \/
            (Qltb (timeIn sc - pa_delay p) 0 = false /\
             pa_a p' = pa_a p + (target - pa_a p) * 0.06)).
  { destruct (Qltb (timeIn sc - pa_delay p) 0).
    - left. split; [reflexivity | apply Hmove].
    - right. split; [reflexivity | apply Hmove]. }
  split.
  { intro Hwait. destruct Hcases as [[_ Ha]|[Hgo _]]; [exact Ha|].
    apply Qltb_ge in Hgo. lra. }
  split.
  { intro Hgo. destruct Hcases as [[Hwait _]|[_ Ha]]; [|exact Ha].
    apply Qltb_lt in Hwait. lra. }
  split.
  { intro Hle. destruct Hcases as [[_ ->]|[_ ->]]; lra. }
  split.
  { intro Hle. destruct Hcases as [[_ ->]|[_ ->]]; lra. }
  destruct Hcases as [[_ ->]|[_ ->]]; [apply Qle_refl|].
  apply (lerp_contracts (pa_a p) target 0.06); lra.
Qed.

End Easing.

(** The demonstration particle, transparent and past its delay at clock 1,
    with luminance 0.5: its alpha moves from 0 towards the target. *)
Lemma alpha_never_overshoots_witness :
  let raw := 0.55 + pa_lum demo_particle * 0.55 in
  let target := Qmax 0.35 (Qmin 0.95 raw) in
  exists fp' r' p',
    facePortrait_update flat 3 grey_pixels (demo_state 1000 800)
      {| name := FACE; timeIn := 1 |} no_images demo_portrait demo_rng
    = Some (fp', r') /\
    nth_error (particles fp') 0 = Some p' /\
    pa_lum p' = pa_lum demo_particle /\
    (0.35 <= target /\ target <= 0.95) /\
    (0.35 <= raw -> raw <= 0.95 -> target == raw) /\
    (1 - pa_delay demo_particle < 0 -> pa_a p' = pa_a demo_particle) /\
    (0 <= 1 - pa_delay demo_particle ->
     pa_a p' = pa_a demo_particle + (target - pa_a demo_particle) * 0.06) /\
    (pa_a demo_particle <= target ->
     pa_a demo_particle <= pa_a p' /\ pa_a p' <= target) /\
    (target <= pa_a demo_particle ->
     target <= pa_a p' /\ pa_a p' <= pa_a demo_particle) /\
    Qabs (pa_a p' - target) <= Qabs (pa_a demo_particle - target).
Proof.
  apply (alpha_never_overshoots flat 3 grey_pixels (demo_state 1000 800)
           {| name := FACE; timeIn := 1 |} no_images demo_portrait demo_rng
           0 demo_particle); reflexivity.
Defined.

(** The eased alpha of the demonstration particle after one tick: it has
    left 0 for a value near 0.0495, well below its target near 0.825. *)
Example demo_particle_alpha_after_one_tick :
  exists fp' r' p',
    facePortrait_update flat 3 grey_pixels (demo_state 1000 800)
      {| name := FACE; timeIn := 1 |} no_images demo_portrait demo_rng
    = Some (fp', r') /\
    nth_error (particles fp') 0 = Some p' /\
    pa_a demo_particle == 0 /\
    (0.049 < pa_a p' /\ pa_a p' < 0.05) /\
    (0.82 < targetA (pa_lum p') /\ targetA (pa_lum p') < 0.83).
Proof.
  eexists _, _, _. split; [vm_compute; reflexivity|].
  split; [reflexivity|]. split; [reflexivity|].
  split; split; reflexivity.
Qed.

(** ** More on the tree generator *)

Lemma wp_conj {A : Type} (m : M A) (post1 post2 : A -> Rng -> Prop)
  (r : Rng) :
  wp m post1 r -> wp m post2 r -> wp m (fun a r' => post1 a r' /\ post2 a r') r.
Proof.
  intros (a & r' & Hm & H1) H2. exists a, r'. split; [exact Hm|].
  split; [exact H1 | exact (wp_inv _ _ _ _ _ H2 Hm)].
Qed.

Lemma wp_child_of_oracle (n : Node) (s : Segment) (maxDepth : Z) (i : nat)
  (r : Rng) :
  wp (child_of n s maxDepth i) (fun _ r' => oracle r' = oracle r) r.
Proof.
  unfold child_of.
  apply wp_bind, wp_rand, wp_bind, wp_rand, wp_bind, wp_rand, wp_bind,
    wp_rand, wp_ret.
  reflexivity.
Qed.

Lemma wp_branchCount_oracle (d : Z) (r : Rng) :
  wp (branchCount d) (fun _ r' => oracle r' = oracle r) r.
Proof.
  unfold branchCount. destruct (d <? 2)%Z.
  - apply wp_ret. reflexivity.
  - apply wp_bind, wp_Math_random, wp_ret. reflexivity.
Qed.

Lemma unit_interval_oracle (r r' : Rng) :
  oracle r' = oracle r -> unit_interval r -> unit_interval r'.
Proof. intros H Hu n. rewrite H. apply Hu. Qed.

(** The recursion in full: which segments and log entries it adds, how many,
    and that a node property every child inherits from its parent holds of
    every node visited. *)
Lemma growRec_trace (cos sin : Q -> Q) (maxDepth : Z) (P : Node -> Prop)
  (U : Rng -> Prop) :
  (forall r r', oracle r' = oracle r -> U r -> U r') ->
  (forall n s i r,
      U r -> P n ->
      wp (child_of n s maxDepth i) (fun c _ => P c) r) ->
  forall (fuel : nat) (node : Node) (st : Tree * list Node) (r : Rng),
    (Z.to_nat (maxDepth - depth node) < fuel)%nat ->
    U r -> P node ->
    wp (growRec cos sin fuel node maxDepth st)
       (fun st' r' =>
          oracle r' = oracle r /\
          exists news newc,
            segments (fst st') = segments (fst st) ++ news /\
            snd st' = snd st ++ newc /\
            Forall2 (segment_for cos sin) news newc /\
            Forall P newc /\
            (min_nodes (Z.to_nat (maxDepth - depth node)) (depth node)
             <= length newc
             <= max_nodes (Z.to_nat (maxDepth - depth node)))%nat) r.
Proof.
  intros HU HP.
  induction fuel as [|fuel IH]; intros node [tr calls] r Hfuel Hunit HPn;
    [lia|].
  cbn [growRec]. apply wp_bind, wp_rand.
  set (bend := -0.35 + oracle r (cursor r) * (0.35 - -0.35)).
  set (sg := segment_of cos sin node bend).
  assert (Hsg : segment_for cos sin sg node) by (exists bend; reflexivity).
  destruct (depth node >=? maxDepth)%Z eqn:E.
  - rewrite Z.geb_leb in E. apply Z.leb_le in E. apply wp_ret.
    split; [reflexivity|]. exists [sg], [node]. cbn [fst snd].
    replace (Z.to_nat (maxDepth - depth node)) with 0%nat by lia.
    repeat split; auto; cbn; lia.
  - rewrite Z.geb_leb in E. apply Z.leb_gt in E.
    set (k := Z.to_nat (maxDepth - (depth node + 1))).
    assert (Hk : Z.to_nat (maxDepth - depth node) = S k) by lia.
    rewrite Hk. cbn [min_nodes max_nodes].
    apply wp_bind.
    eapply wp_mono;
      [|apply (wp_conj _ _ _ _ (wp_branchCount (depth node) _)
                 (wp_branchCount_oracle (depth node) _))].
    cbv beta. intros bc r1 ((Hbc & Hbc2) & Hor1).
    set (inv := fun (j : nat) (st' : Tree * list Node) (r' : Rng) =>
      oracle r' = oracle r /\
      exists news newc,
        segments (fst st') = (segments tr ++ [sg]) ++ news /\
        snd st' = (calls ++ [node]) ++ newc /\
        Forall2 (segment_for cos sin) news newc /\
        Forall P newc /\
        (j * min_nodes k (depth node + 1) <= length newc
         <= j * max_nodes k)%nat).
    apply (wp_mono _ (inv (0 + bc)%nat)).
    { intros st' r' (Hor & news & newc & Hs & Hc & Hf2 & HfP & Hcount).
      split; [exact Hor|].
      exists (sg :: news), (node :: newc). cbn [fst snd].
      rewrite Hs, Hc, <- !app_assoc. cbn [app].
      split; [reflexivity|]. split; [reflexivity|].
      split; [constructor; assumption|].
      split; [constructor; assumption|].
      cbn [length Nat.add] in *.
      destruct (depth node <? 2)%Z eqn:E2.
      - apply Z.ltb_lt in E2. rewrite (Hbc2 E2) in Hcount. lia.
      - assert (bc * min_nodes k (depth node + 1)
                >= 1 * min_nodes k (depth node + 1))%nat
          by (apply Nat.mul_le_mono_r; lia).
        assert (bc * max_nodes k <= 2 * max_nodes k)%nat
          by (apply Nat.mul_le_mono_r; lia).
        lia. }
    apply wp_for_count.
    { split; [exact Hor1|]. exists [], []. cbn [fst snd push_segment segments].
      rewrite !app_nil_r. repeat split; auto; cbn; lia. }
    intros j [tr1 calls1] r2 Hj (Hor2 & news & newc & Hs & Hc & Hf2 & HfP
                                 & Hcount).
    cbn [fst snd] in Hs, Hc.
    assert (Hunit2 : U r2) by (apply (HU r); assumption).
    apply wp_bind.
    eapply wp_mono;
      [|apply (wp_conj _ _ _ _
                 (wp_conj _ _ _ _ (wp_child_of node sg maxDepth j r2)
                    (wp_child_of_oracle node sg maxDepth j r2))
                 (HP node sg j r2 Hunit2 HPn))].
    cbv beta. intros child r3 (((Hchild & _) & Hor3) & HPc).
    assert (Hunit3 : U r3) by (apply (HU r2); assumption).
    eapply wp_mono;
      [|apply (IH child (tr1, calls1) r3 ltac:(lia) Hunit3 HPc)].
    cbv beta.
    intros [tr2 calls2] r4 (Hor4 & news' & newc' & Hs' & Hc' & Hf2' & HfP'
                            & Hcount').
    cbn [fst snd] in Hs', Hc'.
    replace (Z.to_nat (maxDepth - depth child)) with k in Hcount'
      by (rewrite Hchild; reflexivity).
    rewrite Hchild in Hcount'.
    split; [congruence|].
    exists (news ++ news'), (newc ++ newc'). cbn [fst snd].
    rewrite Hs', Hc', Hs, Hc, <- !app_assoc.
    split; [reflexivity|]. split; [reflexivity|].
    split; [apply Forall2_app; assumption|].
    split; [apply Forall_app; split; assumption|].
    rewrite length_app. cbn [Nat.mul]. lia.
Qed.

Lemma Qpow_nonneg (q : Q) (n : nat) : 0 <= q -> 0 <= Qpow q n.
Proof.
  intro Hq. induction n as [|n IH]; cbn [Qpow]; [lra|].
  apply Qmult_le_0_compat; assumption.
Qed.

(** A child is between 0.58 and 0.78 times as long, and between 0.62 and
    0.78 times as thick, as its parent. *)
Lemma tapered_child (L T : Q) (maxDepth : Z) (n : Node) (s : Segment)
  (i : nat) (r : Rng) :
  0 <= L -> 0 <= T -> unit_interval r -> tapered L T n ->
  wp (child_of n s maxDepth i) (fun c _ => tapered L T c) r.
Proof.
  intros HL HT Hunit (Hd & Hl1 & Hl2 & Ht1 & Ht2).
  eapply wp_mono; [|apply wp_child_of]. cbv beta.
  intros c r' (Hdepth & Hlen & Hth).
  destruct (Hunit (S (cursor r))) as [Hu0 Hu1].
  destruct (Hunit (S (S (cursor r)))) as [Hv0 Hv1].
  set (u := oracle r (S (cursor r))) in *.
  set (v := oracle r (S (S (cursor r)))) in *.
  unfold tapered. rewrite Hdepth, Hlen, Hth.
  split; [lia|]. cbv zeta.
  replace (Z.to_nat (depth n + 1)) with (S (Z.to_nat (depth n))) by lia.
  set (d := Z.to_nat (depth n)) in *. cbn [Qpow].
  pose proof (Qpow_nonneg 0.58 d ltac:(lra)) as Hp58.
  pose proof (Qpow_nonneg 0.62 d ltac:(lra)) as Hp62.
  pose proof (Qpow_nonneg 0.78 d ltac:(lra)) as Hp78.
  assert (HLp58 : 0 <= L * Qpow 0.58 d) by (apply Qmult_le_0_compat; auto).
  assert (HTp62 : 0 <= T * Qpow 0.62 d) by (apply Qmult_le_0_compat; auto).
  repeat split.
  - setoid_replace (L * (0.58 * Qpow 0.58 d))
      with (L * Qpow 0.58 d * 0.58) by ring.
    apply Qmult_le_compat_nonneg; split; lra.
  - setoid_replace (L * (0.78 * Qpow 0.78 d))
      with (L * Qpow 0.78 d * 0.78) by ring.
    apply Qmult_le_compat_nonneg; split; lra.
  - setoid_replace (T * (0.62 * Qpow 0.62 d))
      with (T * Qpow 0.62 d * 0.62) by ring.
    apply Qmult_le_compat_nonneg; split; lra.
  - setoid_replace (T * (0.78 * Qpow 0.78 d))
      with (T * Qpow 0.78 d * 0.78) by ring.
    apply Qmult_le_compat_nonneg; split; lra.
Qed.

Lemma compareSegments_le (a b : Segment) :
  Qle_bool (compareSegments a b) 0 = true <-> segment_le a b.
Proof.
  unfold compareSegments, segment_le. rewrite Qle_bool_iff.
  destruct (Qeq_bool (inject_Z (seg_depth a) - inject_Z (seg_depth b)) 0)
    eqn:E.
  - apply Qeq_bool_iff in E.
    assert (Heq : seg_depth a = seg_depth b).
    { apply Z.le_antisymm; rewrite Zle_Qle; lra. }
    split.
    + intro H. right. split; [exact Heq | lra].
    + intros [H|[_ H]]; [lia | lra].
  - assert (Hne : seg_depth a <> seg_depth b).
    { intro Heq. rewrite Heq in E.
      assert (Qeq_bool (inject_Z (seg_depth b) - inject_Z (seg_depth b)) 0
              = true) by (apply Qeq_bool_iff; ring).
      congruence. }
    split.
    + intro H. left.
      assert (seg_depth a <= seg_depth b)%Z by (rewrite Zle_Qle; lra). lia.
    + intros [H|[H _]]; [|contradiction].
      assert (inject_Z (seg_depth a) <= inject_Z (seg_depth b))
        by (rewrite <- Zle_Qle; lia).
      lra.
Qed.

Lemma segment_le_total (a b : Segment) : segment_le a b \/ segment_le b a.
Proof.
  unfold segment_le.
  destruct (Z.lt_trichotomy (seg_depth a) (seg_depth b)) as [H|[H|H]];
    auto.
  destruct (Qlt_le_dec (p_y (p0 a)) (p_y (p0 b))) as [Hy|Hy].
  - right. right. split; [auto | lra].
  - left. right. split; [auto | lra].
Qed.

Lemma segment_le_trans (a b c : Segment) :
  segment_le a b -> segment_le b c -> segment_le a c.
Proof.
  unfold segment_le. intros [H1|[H1 Hy1]] [H2|[H2 Hy2]].
  - left. lia.
  - left. lia.
  - left. lia.
  - right. split; [congruence | lra].
Qed.

Lemma insertSorted_sorted (a : Segment) (l : list Segment) :
  StronglySorted segment_le l ->
  StronglySorted segment_le (insertSorted compareSegments a l).
Proof.
  induction l as [|b l IH]; intro Hs; cbn [insertSorted].
  - repeat constructor.
  - apply StronglySorted_inv in Hs. destruct Hs as [Hs Hb].
    destruct (Qle_bool (compareSegments a b) 0) eqn:E.
    + apply compareSegments_le in E. constructor.
      * constructor; assumption.
      * constructor; [exact E|].
        eapply Forall_impl; [|exact Hb]. cbn beta.
        intros x Hx. eapply segment_le_trans; eassumption.
    + assert (Hba : segment_le b a).
      { destruct (segment_le_total a b) as [H|H]; [|exact H].
        apply compareSegments_le in H. congruence. }
      constructor; [apply IH, Hs|].
      apply (Permutation_Forall
               (Permutation_sym (insertSorted_perm compareSegments a l))).
      constructor; assumption.
Qed.

Lemma array_sort_sorted (l : list Segment) :
  StronglySorted segment_le (array_sort compareSegments l).
Proof.
  induction l as [|a l IH]; cbn; [constructor|].
  apply insertSorted_sorted, IH.
Qed.

(** An element shallower than all the others is put first by the sort. *)
Lemma array_sort_shallowest_first (a : Segment) (l : list Segment) :
  Forall (fun b => (seg_depth a < seg_depth b)%Z) l ->
  array_sort compareSegments (a :: l)
  = a :: array_sort compareSegments l.
Proof.
  intro H. cbn [array_sort fold_right].
  change (fold_right (insertSorted compareSegments) [] l)
    with (array_sort compareSegments l).
  pose proof (Permutation_Forall
                (Permutation_sym (array_sort_perm compareSegments l)) H)
    as H'.
  destruct (array_sort compareSegments l) as [|b rest]; [reflexivity|].
  cbn [insertSorted]. inversion H' as [|? ? Hb _]; subst.
  assert (E : Qle_bool (compareSegments a b) 0 = true)
    by (apply compareSegments_le; left; exact Hb).
  rewrite E. reflexivity.
Qed.

Lemma segment_for_depth (cos sin : Q -> Q) (news : list Segment)
  (newc : list Node) (R : Z -> Prop) :
  Forall2 (segment_for cos sin) news newc ->
  Forall (fun n => R (depth n)) newc ->
  Forall (fun sg => R (seg_depth sg)) news.
Proof.
  induction 1 as [|sg n news newc [bend ->] _ IH]; intro Hf.
  - constructor.
  - inversion Hf; subst. constructor; [assumption | apply IH; assumption].
Qed.

(** [tree.init] in full. *)
Lemma tree_init_trace (cos sin : Q -> Q) (PI : Q) (s : State) (r : Rng)
  (P : Node -> Prop) (U : Rng -> Prop) :
  (forall r r', oracle r' = oracle r -> U r -> U r') ->
  (forall n sg i r, U r -> P n ->
                    wp (child_of n sg 7 i) (fun c _ => P c) r) ->
  let root := trunk PI s (0 + oracle r (cursor r) * (1000 - 0)) in
  U r -> P root ->
  wp (tree_init_traced cos sin PI s)
     (fun res r' =>
        oracle r' = oracle r /\
        exists bend news newc,
          segments (fst res)
          = segment_of cos sin root bend :: array_sort compareSegments news /\
          snd res = root :: newc /\
          Forall2 (segment_for cos sin) news newc /\
          Forall P (root :: newc) /\
          Forall (fun n => (0 < depth n <= 7)%Z) newc /\
          (27 <= length (root :: newc) <= 255)%nat /\
          grown (fst res) = false /\ progress (fst res) = 0 /\
          baseX (fst res) = inject_Z (st_w s) * 0.5 /\
          baseY (fst res) = inject_Z (st_h s) * 0.82) r.
Proof.
  intros HU HP root HUr HPr.
  unfold tree_init_traced. apply wp_bind, wp_rand, wp_bind.
  fold (trunk PI s (0 + oracle r (cursor r) * (1000 - 0))). fold root.
  set (tr0 := {| segments := []; grown := false; progress := 0;
                 baseX := inject_Z (st_w s) * 0.5;
                 baseY := inject_Z (st_h s) * 0.82 |}).
  assert (HU1 : U (advance r 1)) by (apply (HU r); [reflexivity | exact HUr]).
  eapply wp_mono;
    [|apply (wp_conj _ _ _ _
               (_growRecursive_spec cos sin root 7 (tr0, []) (advance r 1))
               (growRec_trace cos sin 7 P U HU HP
                  (S (Z.to_nat (7 - depth root))) root (tr0, [])
                  (advance r 1) ltac:(lia) HU1 HPr))].
  cbv beta.
  intros [tr' calls'] r' ((bend & news1 & newc1 & Hs1 & Hc1 & _ & Hd1 & _
                           & Hfr)
                          & Hor & news2 & newc2 & Hs2 & Hc2 & Hf2 & HfP
                          & Hcount).
  cbn [fst snd tr0 segments app] in Hs1, Hc1, Hs2, Hc2, Hfr.
  apply wp_ret. split; [exact Hor|].
  rewrite Hs1 in Hs2. rewrite Hc1 in Hc2. subst news2 newc2.
  inversion Hf2 as [|? ? ? ? _ Hf2']; subst.
  exists bend, news1, newc1. cbn [fst snd segments grown progress baseX baseY].
  assert (Hdeep : Forall (fun n => (0 < depth n <= 7)%Z) newc1)
    by (eapply Forall_impl; [|exact Hd1]; cbn; intros; lia).
  split.
  { rewrite Hs1. apply array_sort_shallowest_first.
    apply (segment_for_depth cos sin news1 newc1 (fun d => (0 < d)%Z) Hf2').
    eapply Forall_impl; [|exact Hdeep]. cbn. intros; lia. }
  split; [reflexivity|]. split; [exact Hf2'|]. split; [exact HfP|].
  split; [exact Hdeep|].
  split; [exact Hcount|].
  destruct Hfr as (Hg & Hp & Hx & Hy). cbn in Hg, Hp, Hx, Hy.
  repeat split; assumption.
Qed.

Lemma tree_init_of_traced (cos sin : Q -> Q) (PI : Q) (s : State) (r : Rng)
  (tr : Tree) (calls : list Node) (r' : Rng) :
  tree_init_traced cos sin PI s r = Some ((tr, calls), r') ->
  tree_init cos sin PI s r = Some (tr, r').
Proof. intro H. unfold tree_init, bind. rewrite H. reflexivity. Qed.

Lemma child_of_any (n : Node) (sg : Segment) (i : nat) (r : Rng) :
  True -> True -> wp (child_of n sg 7 i) (fun _ _ => True) r.
Proof.
  intros _ _. eapply wp_mono; [|apply wp_child_of_oracle]. auto.
Qed.

(** Property X1: [tree.init] always returns, and the segments of the tree it
    builds are in reveal order: shallower segments first and, at equal depth,
    the one that starts lower on the screen first; the first segment is the
    trunk, which starts at the base of the tree. *)
Theorem tree_segments_in_reveal_order (cos sin : Q -> Q) (PI : Q)
  (s : State) (r : Rng) :
  exists tr r' bend,
    tree_init cos sin PI s r = Some (tr, r') /\
    StronglySorted segment_le (segments tr) /\
    nth_error (segments tr) 0
    = Some (segment_of cos sin
              (trunk PI s (0 + oracle r (cursor r) * (1000 - 0))) bend) /\
    p0 (segment_of cos sin
          (trunk PI s (0 + oracle r (cursor r) * (1000 - 0))) bend)
    = {| p_x := baseX tr; p_y := baseY tr |}.
Proof.
  destruct (tree_init_trace cos sin PI s r (fun _ => True) (fun _ => True)
              ltac:(auto) child_of_any I I)
    as ([tr calls] & r' & Hrun & _ & bend & news & newc & Hs & _ & Hf2 & _
        & Hdeep & _ & _ & _ & Hx & Hy).
  cbn [fst snd] in *.
  exists tr, r', bend.
  split; [apply (tree_init_of_traced _ _ _ _ _ _ calls), Hrun|].
  rewrite Hs. split; [|split; [reflexivity|]].
  - constructor; [apply array_sort_sorted|].
    apply (Permutation_Forall
             (Permutation_sym (array_sort_perm compareSegments news))).
    apply (segment_for_depth cos sin news newc (fun d => (0 < d)%Z)) in Hf2.
    + eapply Forall_impl; [|exact Hf2]. cbn beta.
      intros sg H. left. exact H.
    + eapply Forall_impl; [|exact Hdeep]. cbn beta. intros; lia.
  - cbn [segment_of p0 trunk node_x node_y]. rewrite Hx, Hy. reflexivity.
Qed.

(** Property X2: every tree [tree.init] builds has between 27 and 255
    segments. *)
Theorem tree_size_bounds (cos sin : Q -> Q) (PI : Q) (s : State) (r : Rng) :
  exists tr r',
    tree_init cos sin PI s r = Some (tr, r') /\
    (27 <= length (segments tr) <= 255)%nat.
Proof.
  destruct (tree_init_trace cos sin PI s r (fun _ => True) (fun _ => True)
              ltac:(auto) child_of_any I I)
    as ([tr calls] & r' & Hrun & _ & bend & news & newc & Hs & _ & Hf2 & _
        & _ & Hcount & _).
  cbn [fst snd] in *.
  exists tr, r'.
  split; [apply (tree_init_of_traced _ _ _ _ _ _ calls), Hrun|].
  rewrite Hs. cbn [length] in *.
  rewrite (Permutation_length (array_sort_perm compareSegments news)).
  rewrite (Forall2_length Hf2). exact Hcount.
Qed.

(** Property X3: with random draws in [0, 1) and a viewport of non-negative
    height, the tree tapers: a segment at depth d is between 0.62^d and
    0.78^d times as thick as the trunk, whose thickness T is
    clamp(0.02 * width, 6, 14); so no segment is thicker than the trunk or
    than 14.  Likewise every node the recursion visits at depth d has a
    length between 0.58^d and 0.78^d times the trunk length. *)
Theorem tree_tapers (cos sin : Q -> Q) (PI : Q) (s : State) (r : Rng) :
  unit_interval r ->
  (0 <= st_h s)%Z ->
  let T := Qmax 6 (Qmin 14 (inject_Z (st_w s) * 0.02)) in
  let L := Qmin 260 (inject_Z (st_h s) * 0.32) in
  exists tr calls r',
    tree_init_traced cos sin PI s r = Some ((tr, calls), r') /\
    Forall (fun sg =>
              T * Qpow 0.62 (Z.to_nat (seg_depth sg)) <= seg_thickness sg /\
              seg_thickness sg <= T * Qpow 0.78 (Z.to_nat (seg_depth sg)) /\
              0 < seg_thickness sg /\ seg_thickness sg <= T /\ T <= 14)
           (segments tr) /\
    Forall (fun n =>
              L * Qpow 0.58 (Z.to_nat (depth n)) <= len n /\
              len n <= L * Qpow 0.78 (Z.to_nat (depth n)))
           calls.
Proof.
  intros Hunit Hh T L.
  assert (HT : 6 <= T /\ T <= 14) by (unfold T; qminmax; lra).
  assert (HL : 0 <= L).
  { unfold L.
    assert (0 <= inject_Z (st_h s))
      by (change 0 with (inject_Z 0); rewrite <- Zle_Qle; exact Hh).
    qminmax; lra. }
  destruct (tree_init_trace cos sin PI s r (tapered L T) unit_interval
              unit_interval_oracle
              (fun n sg i r0 Hu Hn =>
                 tapered_child L T 7 n sg i r0 HL ltac:(lra) Hu Hn)
              Hunit)
    as ([tr calls] & r' & Hrun & _ & bend & news & newc & Hs & Hc & Hf2
        & HfP & _).
  { unfold tapered, trunk. cbn [depth len thickness Z.to_nat Qpow].
    fold T. fold L. split; [lia|]. cbv zeta. repeat split; lra. }
  cbn [fst snd] in *.
  exists tr, calls, r'. split; [exact Hrun|].
  assert (Hpow : forall d, T * Qpow 0.78 d <= T /\ 0 < T * Qpow 0.62 d).
  { induction d as [|d [IH1 IH2]]; cbn [Qpow]; [split; lra|].
    pose proof (Qpow_nonneg 0.78 d ltac:(lra)).
    pose proof (Qpow_nonneg 0.62 d ltac:(lra)).
    assert (0 <= T * Qpow 0.78 d) by (apply Qmult_le_0_compat; lra).
    split.
    - setoid_replace (T * (0.78 * Qpow 0.78 d))
        with (T * Qpow 0.78 d * 0.78) by ring. lra.
    - setoid_replace (T * (0.62 * Qpow 0.62 d))
        with (T * Qpow 0.62 d * 0.62) by ring. lra. }
  split.
  - rewrite Hs.
    eapply Permutation_Forall;
      [apply perm_skip, Permutation_sym, array_sort_perm|].
    assert (Hall : Forall2 (segment_for cos sin)
                     (segment_of cos sin
                        (trunk PI s (0 + oracle r (cursor r) * (1000 - 0)))
                        bend :: news)
                     (trunk PI s (0 + oracle r (cursor r) * (1000 - 0))
                      :: newc))
      by (constructor; [eexists; reflexivity | exact Hf2]).
    revert HfP Hall. generalize (segment_of cos sin
                        (trunk PI s (0 + oracle r (cursor r) * (1000 - 0)))
                        bend :: news).
    generalize (trunk PI s (0 + oracle r (cursor r) * (1000 - 0)) :: newc).
    intros ns sgs HfP Hall. induction Hall as [|sg n sgs ns [b ->] _ IH].
    + constructor.
    + inversion HfP as [|? ? (_ & _ & _ & Ht1 & Ht2) HfP']; subst.
      constructor; [|apply IH, HfP'].
      cbn [segment_of seg_thickness seg_depth]. cbv zeta in Ht1, Ht2.
      destruct (Hpow (Z.to_nat (depth n))) as [Hp1 Hp2].
      repeat split; lra.
  - rewrite Hc. eapply Forall_impl; [|exact HfP]. cbn beta.
    intros n (_ & Hl1 & Hl2 & _). split; assumption.
Qed.

Lemma tree_tapers_witness :
  let T := Qmax 6 (Qmin 14 (inject_Z 1000 * 0.02)) in
  let L := Qmin 260 (inject_Z 800 * 0.32) in
  exists tr calls r',
    tree_init_traced flat flat 3 (demo_state 1000 800) demo_rng
    = Some ((tr, calls), r') /\
    Forall (fun sg =>
              T * Qpow 0.62 (Z.to_nat (seg_depth sg)) <= seg_thickness sg /\
              seg_thickness sg <= T * Qpow 0.78 (Z.to_nat (seg_depth sg)) /\
              0 < seg_thickness sg /\ seg_thickness sg <= T /\ T <= 14)
           (segments tr) /\
    Forall (fun n =>
              L * Qpow 0.58 (Z.to_nat (depth n)) <= len n /\
              len n <= L * Qpow 0.78 (Z.to_nat (depth n)))
           calls.
Proof.
  apply (tree_tapers flat flat 3 (demo_state 1000 800) demo_rng).
  - apply (demo_rng_unit_interval 0).
  - cbn. lia.
Defined.

(** ** More on the scene sequencer *)

Lemma grown_iff_duration_reached (s : State) (sc : Scene) (tr : Tree) :
  grown (tree_update s sc tr)
  = Qle_bool (growTime (inject_Z (st_w s))) (timeIn sc).
Proof.
  cbn [tree_update grown].
  pose proof (growTime_bounds (inject_Z (st_w s))) as [Hd1 Hd2].
  set (g := growTime (inject_Z (st_w s))) in *.
  destruct (Qle_bool g (timeIn sc)) eqn:E.
  - apply Qle_bool_iff in E. apply Qle_bool_iff.
    assert (1 <= timeIn sc / g) by (apply Qle_shift_div_l; lra).
    unfold clamp. qminmax; lra.
  - destruct (Qle_bool 1 (clamp (timeIn sc / g) 0 1)) eqn:E'; [|reflexivity].
    apply Qle_bool_iff in E'.
    assert (Hlt : timeIn sc < g).
    { apply Qnot_le_lt. intro H. apply Qle_bool_iff in H. congruence. }
    assert (timeIn sc / g < 1) by (apply Qlt_shift_div_r; lra).
    unfold clamp in E'. qminmax; lra.
Qed.

Section SequencerSteps.

Variable sin : Q -> Q.
Variable PI : Q.
Variable getImageData : Img -> Q -> Q -> list Z.

(** One tick, in any scene. *)
Lemma update_step (dt : Q) (wd : World) (r : Rng) :
  exists wd' r',
    update sin PI getImageData dt wd r = Some (wd', r') /\
    oracle r' = oracle r /\
    w_scene wd' = scene_after (w_state wd) (w_scene wd) dt /\
    w_state wd' = w_state wd /\ w_images wd' = w_images wd /\
    segments (w_tree wd') = segments (w_tree wd) /\
    match name (w_scene wd) with
    | FACE =>
        facePortrait_update sin PI getImageData (w_state wd)
          {| name := FACE; timeIn := timeIn (w_scene wd) + dt |}
          (w_images wd) (w_face wd) r = Some (w_face wd', r') /\
        w_tree wd' = w_tree wd
    | _ => w_face wd' = w_face wd /\ r' = r
    end.
Proof.
  unfold update, scene_after. cbn [name timeIn].
  destruct (name (w_scene wd)) eqn:Hname.
  - eexists _, r. split; [reflexivity|]. cbn.
    destruct (Qltb _ _); repeat split; reflexivity.
  - eexists _, r. split; [reflexivity|].
    cbn [w_scene w_state w_images w_tree w_face].
    rewrite grown_iff_duration_reached. cbn [timeIn].
    destruct (Qle_bool _ _); repeat split; reflexivity.
  - eexists _, r. split; [reflexivity|]. cbn.
    destruct (Qltb _ _); repeat split; reflexivity.
  - destruct (wp_facePortrait_update sin PI getImageData (w_state wd)
                {| name := FACE; timeIn := timeIn (w_scene wd) + dt |}
                (w_images wd) (w_face wd) r)
      as (fp' & r' & Hrun & Hor & _).
    eexists _, r'. unfold bind. rewrite Hrun.
    split; [reflexivity|]. cbn. repeat split; auto.
Qed.

Lemma scene_after_rank (s : State) (sc : Scene) (dt : Q) :
  (scene_rank (name sc) <= scene_rank (name (scene_after s sc dt))
   <= S (scene_rank (name sc)))%nat.
Proof.
  unfold scene_after. destruct (name sc); cbn;
    try destruct (Qltb _ _); try destruct (Qle_bool _ _); cbn; lia.
Qed.

(** Property X4: on a viewport at least 2 wide a tick returns, in any
    scene and for any time delta, and it leaves the sequencer in the scene
    the thresholds give: Seed is left for Tree once its clock exceeds 2.4,
    Tree for Pause once its clock has reached the growth duration
    clamp(6.5 - width/900, 4.8, 7.2), Pause for Face once its clock exceeds
    1.2, Face never; the clock of a scene that is entered is 0, otherwise it
    has advanced by the delta.  The viewport, the loaded images and the
    segments of the tree are untouched, and the portrait changes in the Face
    scene only. *)
Theorem update_follows_thresholds (dt : Q) (wd : World) (r : Rng) :
  readable (w_state wd) ->
  exists wd' r',
    update sin PI getImageData dt wd r = Some (wd', r') /\
    w_scene wd' = scene_after (w_state wd) (w_scene wd) dt /\
    w_state wd' = w_state wd /\ w_images wd' = w_images wd /\
    segments (w_tree wd') = segments (w_tree wd) /\
    match name (w_scene wd) with
    | FACE => name (w_scene wd') = FACE
    | _ => w_face wd' = w_face wd /\ r' = r
    end.
Proof.
  intros _.
  destruct (update_step dt wd r)
    as (wd' & r' & Hrun & _ & Hsc & Hst & Him & Hseg & Hface).
  exists wd', r'. repeat (split; [assumption|]).
  destruct (name (w_scene wd)) eqn:Hname; try exact Hface.
  rewrite Hsc. unfold scene_after. rewrite Hname. reflexivity.
Qed.

Lemma ticks_steps (dts : list Q) :
  forall (wd : World) (r : Rng),
    exists wd' r',
      ticks sin PI getImageData dts wd r = Some (wd', r') /\
      oracle r' = oracle r /\
      (scene_rank (name (w_scene wd)) <= scene_rank (name (w_scene wd'))
       <= scene_rank (name (w_scene wd)) + length dts)%nat /\
      w_state wd' = w_state wd /\ w_images wd' = w_images wd /\
      segments (w_tree wd') = segments (w_tree wd).
Proof.
  induction dts as [|dt dts IH]; intros wd r; cbn [ticks].
  - exists wd, r. repeat split; auto; cbn; lia.
  - destruct (update_step dt wd r)
      as (wd1 & r1 & Hrun & Hor & Hsc & Hst & Him & Hseg & _).
    destruct (IH wd1 r1) as (wd2 & r2 & Hrun2 & Hor2 & Hrank & Hst2 & Him2
                             & Hseg2).
    exists wd2, r2. unfold bind. rewrite Hrun.
    split; [exact Hrun2|]. split; [congruence|].
    pose proof (scene_after_rank (w_state wd) (w_scene wd) dt) as Hstep.
    rewrite <- Hsc in Hstep. cbn [length].
    split; [lia|]. repeat split; congruence.
Qed.

(** Property X5: on a viewport at least 2 wide a run of ticks returns and
    never goes back in the sequence Seed, Tree, Pause, Face; it advances by
    at most one scene per tick, and once in the Face scene it stays there;
    the viewport is the same after the run. *)
Theorem ticks_never_go_back (dts : list Q) (wd : World) (r : Rng) :
  readable (w_state wd) ->
  exists wd' r',
    ticks sin PI getImageData dts wd r = Some (wd', r') /\
    (scene_rank (name (w_scene wd)) <= scene_rank (name (w_scene wd'))
     <= scene_rank (name (w_scene wd)) + length dts)%nat /\
    w_state wd' = w_state wd /\
    match name (w_scene wd) with
    | FACE => name (w_scene wd') = FACE
    | _ => True
    end.
Proof.
  intros _.
  destruct (ticks_steps dts wd r) as (wd' & r' & Hrun & _ & Hrank & Hst & _).
  exists wd', r'. split; [exact Hrun|]. split; [exact Hrank|].
  split; [exact Hst|].
  destruct (name (w_scene wd)); auto.
  destruct (name (w_scene wd')); cbn in Hrank; auto; lia.
Qed.

End SequencerSteps.

(** A tick of 1/32 at the start of the Seed scene, 1000 wide. *)
Lemma update_follows_thresholds_witness :
  exists wd' r',
    update flat 3 grey_pixels 0.03125 demo_world demo_rng = Some (wd', r') /\
    w_scene wd' = scene_after (w_state demo_world) (w_scene demo_world)
                    0.03125 /\
    w_state wd' = w_state demo_world /\
    w_images wd' = w_images demo_world /\
    segments (w_tree wd') = segments (w_tree demo_world) /\
    (w_face wd' = w_face demo_world /\ r' = demo_rng).
Proof.
  apply (update_follows_thresholds flat 3 grey_pixels 0.03125 demo_world
           demo_rng).
  unfold readable. cbn. lia.
Defined.

(** Eighty ticks of 1/32 from the start of the Seed scene (2.5 time units):
    the run is in the Seed or the Tree scene. *)
Lemma ticks_never_go_back_witness :
  exists wd' r',
    ticks flat 3 grey_pixels (repeat 0.03125 80) demo_world demo_rng
    = Some (wd', r') /\
    (scene_rank (name (w_scene demo_world))
     <= scene_rank (name (w_scene wd'))
     <= scene_rank (name (w_scene demo_world))
        + length (repeat 0.03125%Q 80))%nat /\
    w_state wd' = w_state demo_world /\
    True.
Proof.
  apply (ticks_never_go_back flat 3 grey_pixels (repeat 0.03125 80)
           demo_world demo_rng).
  unfold readable. cbn. lia.
Defined.

(** ** Frames, reset and whole runs *)

Section WholeRuns.

Variable cos sin : Q -> Q.
Variable PI : Q.
Variable getImageData : Img -> Q -> Q -> list Z.

Lemma tree_init_ok (s : State) (r : Rng) :
  wp (tree_init cos sin PI s)
     (fun tr r' =>
        oracle r' = oracle r /\ tree_ok tr /\
        grown tr = false /\ progress tr = 0 /\ revealCount tr = 0%Z) r.
Proof.
  destruct (tree_init_trace cos sin PI s r (fun _ => True) (fun _ => True)
              ltac:(auto) child_of_any I I)
    as ([tr calls] & r' & Hrun & Hor & bend & news & newc & Hs & _ & Hf2 & _
        & Hdeep & Hcount & Hg & Hp & _).
  cbn [fst snd] in *.
  exists tr, r'.
  split; [apply (tree_init_of_traced _ _ _ _ _ _ calls), Hrun|].
  split; [exact Hor|]. split; [split|].
  - rewrite Hs. cbn [length] in *.
    rewrite (Permutation_length (array_sort_perm compareSegments news)).
    rewrite (Forall2_length Hf2). exact Hcount.
  - rewrite Hs. constructor; [cbn; lia|].
    apply (Permutation_Forall
             (Permutation_sym (array_sort_perm compareSegments news))).
    apply (segment_for_depth cos sin news newc
             (fun d => (0 <= d <= 7)%Z) Hf2).
    eapply Forall_impl; [|exact Hdeep]. cbn beta. intros; lia.
  - split; [exact Hg|]. split; [exact Hp|].
    unfold revealCount. rewrite Hp.
    rewrite (Qfloor_comp _ 0); [reflexivity | ring].
Qed.

(** Property X6: [resetAll] never fails; it puts the sequencer in the Seed
    scene with its clock at 0, the seed unbloomed, the portrait as
    [facePortrait.init] leaves it (not ready, no target point, no particle),
    and a freshly generated tree of which nothing is revealed yet; the
    viewport and the images loaded so far are kept. *)
Theorem resetAll_restarts (wd : World) (r : Rng) :
  exists wd' r',
    resetAll cos sin PI wd r = Some (wd', r') /\
    w_scene wd' = {| name := SEED; timeIn := 0 |} /\
    bloom (w_seed wd') = 0 /\
    w_face wd' = facePortrait_init /\
    particles (w_face wd') = [] /\ targetPoints (w_face wd') = [] /\
    ready (w_face wd') = false /\
    tree_ok (w_tree wd') /\
    grown (w_tree wd') = false /\ revealCount (w_tree wd') = 0%Z /\
    w_state wd' = w_state wd /\ w_images wd' = w_images wd.
Proof.
  destruct (tree_init_ok (w_state wd) r)
    as (tr & r' & Hrun & _ & Hok & Hg & _ & Hrc).
  eexists _, r'. unfold resetAll, bind. rewrite Hrun.
  split; [reflexivity|]. cbn. repeat split; auto; apply Hok.
Qed.

Lemma resetAll_inv (wd : World) (r : Rng) :
  wp (resetAll cos sin PI wd)
     (fun wd' r' => oracle r' = oracle r /\ world_inv wd' /\
                    w_state wd' = w_state wd) r.
Proof.
  unfold resetAll. apply wp_bind.
  eapply wp_mono; [|apply tree_init_ok]. cbv beta.
  intros tr r' (Hor & Hok & _). apply wp_ret.
  split; [exact Hor|]. split; [|reflexivity].
  split; [apply facePortrait_init_inv|]. split; [exact Hok | reflexivity].
Qed.

Lemma update_inv (dt : Q) (wd : World) (r : Rng) :
  world_inv wd ->
  wp (update sin PI getImageData dt wd)
     (fun wd' r' => oracle r' = oracle r /\ world_inv wd') r.
Proof.
  intros (Hfp & (Hlen & Hdep) & Hface).
  destruct (update_step sin PI getImageData dt wd r)
    as (wd' & r' & Hrun & Hor & Hsc & Hst & Him & Hseg & Hcase).
  exists wd', r'. split; [exact Hrun|]. split; [exact Hor|].
  unfold world_inv, tree_ok. rewrite Hseg.
  destruct (name (w_scene wd)) eqn:Hname.
  1-3: destruct Hcase as (Hf & _); rewrite Hf;
       (split; [exact Hfp|]); (split; [split; assumption|]);
       rewrite Hsc; unfold scene_after; rewrite Hname;
       try destruct (Qltb _ _); try destruct (Qle_bool _ _); cbn; auto.
  destruct Hcase as (Hupd & _).
  pose proof (wp_inv _ _ _ _ _
                (facePortrait_update_inv sin PI getImageData _ _ _ _ r Hfp)
                Hupd) as (_ & Hinv' & _).
  split; [exact Hinv'|]. split; [split; assumption|].
  rewrite Hsc. unfold scene_after. rewrite Hname. exact I.
Qed.

Lemma frame_inv (now : Q) (wd : World) (r : Rng) :
  world_inv wd ->
  wp (frame sin PI getImageData now wd)
     (fun wd' r' => oracle r' = oracle r /\ world_inv wd') r.
Proof.
  intro Hinv. unfold frame. destruct (st_running (w_state wd)); cbn [negb].
  - apply update_inv. exact Hinv.
  - apply wp_ret. auto.
Qed.

Lemma handle_inv (e : Event) (wd : World) (r : Rng) :
  world_inv wd ->
  wp (handle cos sin PI getImageData e wd)
     (fun wd' r' => oracle r' = oracle r /\ world_inv wd') r.
Proof.
  intro Hinv. destruct e; cbn [handle].
  - apply frame_inv, Hinv.
  - apply wp_ret. split; [reflexivity | exact Hinv].
  - apply wp_ret. split; [reflexivity | exact Hinv].
  - apply wp_ret. split; [reflexivity | exact Hinv].
  - eapply wp_mono; [|apply resetAll_inv]. cbv beta.
    intros wd' r' (Hor & Hinv' & _). auto.
Qed.

Lemma run_inv (es : list Event) :
  forall (wd : World) (r : Rng),
    world_inv wd ->
    wp (run cos sin PI getImageData es wd)
       (fun wd' r' => oracle r' = oracle r /\ world_inv wd') r.
Proof.
  induction es as [|e es IH]; intros wd r Hinv; cbn [run].
  - apply wp_ret. auto.
  - apply wp_bind. eapply wp_mono; [|apply handle_inv, Hinv]. cbv beta.
    intros wd1 r1 (Hor & Hinv1).
    eapply wp_mono; [|apply IH, Hinv1]. cbv beta.
    intros wd2 r2 (Hor2 & Hinv2). split; [congruence | exact Hinv2].
Qed.

(** Property X7: as long as the window is at least 2 wide, at load and at
    every resize, whatever the host does after the script has loaded (frames
    at any times, resizes, face and tile images that load or fail in any
    order, replays), [resetAll] and every [frame] return and no loop runs
    out of fuel; and at every moment the tree has between 27 and 255
    segments of depth 0 to 7, the portrait is either unbuilt and empty or
    built with at least 600 target points and no more particles than target
    points, and the portrait is untouched as long as the Face scene has not
    begun. *)
Theorem whole_run_never_fails (innerWidth innerHeight devicePixelRatio t : Q)
  (es : list Event) (r : Rng) :
  2 <= innerWidth ->
  Forall wide_event es ->
  exists wd r',
    (wd0 <- boot cos sin PI innerWidth innerHeight devicePixelRatio t ;;
     run cos sin PI getImageData es wd0) r = Some (wd, r') /\
    oracle r' = oracle r /\
    tree_ok (w_tree wd) /\
    portrait_inv (w_face wd) /\
    match name (w_scene wd) with
    | FACE => True
    | _ => w_face wd = facePortrait_init
    end.
Proof.
  intros _ _.
  enough (H : wp (wd0 <- boot cos sin PI innerWidth innerHeight
                           devicePixelRatio t ;;
                  run cos sin PI getImageData es wd0)
                (fun wd r' => oracle r' = oracle r /\ world_inv wd) r).
  { destruct H as (wd & r' & Hrun & Hor & Hfp & Hok & Hface).
    exists wd, r'. auto. }
  apply wp_bind. unfold boot.
  eapply wp_mono; [|apply resetAll_inv]. cbv beta.
  intros wd0 r0 (Hor & Hinv & _).
  eapply wp_mono; [|apply run_inv, Hinv]. cbv beta.
  intros wd r' (Hor' & Hinv'). split; [congruence | exact Hinv'].
Qed.

(** Property X8: on a viewport at least 2 wide a frame while the loop is
    running returns; it records the frame time, clamps the time delta to
    [0, 40] milliseconds and feeds it, in seconds, to the sequencer, so that
    the scene clock either restarts at 0 (a scene was entered) or advances
    by at least 0 and at most 0.04, however long ago the previous frame was.
    A frame while the loop is not running changes nothing. *)
Theorem frame_clamps_time_delta (now : Q) (wd : World) (r : Rng) :
  readable (w_state wd) ->
  exists wd' r',
    frame sin PI getImageData now wd r = Some (wd', r') /\
    if st_running (w_state wd)
    then st_t0 (w_state wd') = now /\ st_now (w_state wd') = now /\
         st_dt (w_state wd') = clamp (now - st_t0 (w_state wd)) 0 40 /\
         (0 <= st_dt (w_state wd') /\ st_dt (w_state wd') <= 40) /\
         st_w (w_state wd') = st_w (w_state wd) /\
         st_h (w_state wd') = st_h (w_state wd) /\
         w_scene wd'
         = scene_after (w_state wd) (w_scene wd)
             (st_dt (w_state wd') / 1000) /\
         (timeIn (w_scene wd') = 0 \/
          (name (w_scene wd') = name (w_scene wd) /\
           timeIn (w_scene wd) <= timeIn (w_scene wd') /\
           timeIn (w_scene wd') <= timeIn (w_scene wd) + 0.04))
    else wd' = wd /\ r' = r.
Proof.
  intros _.
  unfold frame. destruct (st_running (w_state wd)) eqn:Hrun; cbn [negb].
  2: { exists wd, r. auto. }
  set (dt := clamp (now - st_t0 (w_state wd)) 0 40).
  assert (Hdt : 0 <= dt /\ dt <= 40) by (apply clamp_bounds; lra).
  match goal with
  | |- exists wd' r', update _ _ _ ?d ?w r = _ /\ _ =>
      destruct (update_step sin PI getImageData d w r)
        as (wd' & r' & Hupd & _ & Hsc & Hst & _)
  end.
  cbn [w_state w_scene] in Hsc, Hst.
  exists wd', r'. split; [exact Hupd|]. rewrite Hst. cbn [st_t0 st_now st_dt
    st_w st_h].
  repeat (split; [reflexivity || apply Hdt|]).
  split; [rewrite Hsc; reflexivity|].
  assert (Hd : 0 <= dt / 1000 /\ dt / 1000 <= 0.04).
  { split.
    - apply Qle_shift_div_l; lra.
    - apply Qle_shift_div_r; lra. }
  rewrite Hsc. unfold scene_after.
  destruct (name (w_scene wd)); cbn;
    try destruct (Qltb _ _); try destruct (Qle_bool _ _); cbn;
    auto; right; (split; [reflexivity|]); split; lra.
Qed.

End WholeRuns.

(** A window 1000 by 800 that is resized to 360 by 640 after two frames,
    with the face image loading in between and a replay at the end. *)
Lemma whole_run_never_fails_witness :
  let es := [EvFrame 16;
             EvFaceLoaded {| res_ok := true; res_img := Some 1%nat |};
             EvFrame 32; EvResize 360 640 2; EvFrame 48; EvReplay] in
  exists wd r',
    (wd0 <- boot flat flat 3 1000 800 1 0 ;;
     run flat flat 3 grey_pixels es wd0) demo_rng = Some (wd, r') /\
    oracle r' = oracle demo_rng /\
    tree_ok (w_tree wd) /\
    portrait_inv (w_face wd) /\
    match name (w_scene wd) with
    | FACE => True
    | _ => w_face wd = facePortrait_init
    end.
Proof.
  apply (whole_run_never_fails flat flat 3 grey_pixels 1000 800 1 0).
  - lra.
  - repeat constructor. cbn. lra.
Defined.

(** A frame 16 ms after the previous one, and a frame a whole second after
    it: the delta fed is 16 ms, respectively 40 ms. *)
Lemma frame_clamps_time_delta_witness :
  (exists wd' r',
     frame flat 3 grey_pixels 16 demo_world demo_rng = Some (wd', r') /\
     st_dt (w_state wd') == 16 /\ timeIn (w_scene wd') == 0.016) /\
  (exists wd' r',
     frame flat 3 grey_pixels 1000 demo_world demo_rng = Some (wd', r') /\
     st_dt (w_state wd') == 40 /\ timeIn (w_scene wd') == 0.04).
Proof.
  assert (Hwide : readable (w_state demo_world))
    by (unfold readable; cbn; lia).
  split.
  - destruct (frame_clamps_time_delta flat 3 grey_pixels 16 demo_world
                demo_rng Hwide) as (wd' & r' & Hrun & Hrest).
    exists wd', r'. split; [exact Hrun|].
    cbn [demo_world w_state demo_state st_running] in Hrest.
    destruct Hrest as (_ & _ & Hdt & _ & _ & _ & Hsc & _).
    split; [rewrite Hdt; reflexivity|].
    rewrite Hsc, Hdt. reflexivity.
  - destruct (frame_clamps_time_delta flat 3 grey_pixels 1000 demo_world
                demo_rng Hwide) as (wd' & r' & Hrun & Hrest).
    exists wd', r'. split; [exact Hrun|].
    cbn [demo_world w_state demo_state st_running] in Hrest.
    destruct Hrest as (_ & _ & Hdt & _ & _ & _ & Hsc & _).
    split; [rewrite Hdt; reflexivity|].
    rewrite Hsc, Hdt. reflexivity.
Defined.

(** ** Random utilities and tile images *)

Lemma js_index_nth {A : Type} (arr : list A) (i : Q) (a : A) :
  js_index arr i = Some a ->
  nth_error arr (Z.to_nat (Qfloor i)) = Some a /\
  inject_Z (Qfloor i) == i /\ 0 <= i.
Proof.
  unfold js_index, is_integer, Math_floor.
  destruct (Qeq_bool (inject_Z (Qfloor i)) i) eqn:E1; [|discriminate].
  destruct (Qle_bool 0 i) eqn:E2; [|discriminate].
  cbn [andb]. intro H. apply Qeq_bool_iff in E1. apply Qle_bool_iff in E2.
  auto.
Qed.

(** Property X11: with draws in [0, 1), [rand(a, b)] for a < b returns
    a + u * (b - a) for the draw u, a number between a and b (the bounds
    included: a product that rounds can land on b), and [randi(a, b)] for
    integers a <= b of at most 31 bits returns an integer between a and b
    inclusive; each takes exactly one draw. *)
Theorem rand_randi_in_range (a b : Q) (m n : Z) (r : Rng) :
  unit_interval r ->
  a < b ->
  (- 2 ^ 31 <= m)%Z -> (m <= n)%Z -> (n <= 2 ^ 31)%Z ->
  (exists v,
      rand a b r = Some (v, advance r 1) /\
      v = a + oracle r (cursor r) * (b - a) /\ a <= v /\ v <= b) /\
  (exists k : Z,
      randi (inject_Z m) (inject_Z n) r = Some (inject_Z k, advance r 1) /\
      (m <= k <= n)%Z).
Proof.
  intros Hunit Hab _ Hmn _. destruct (Hunit (cursor r)) as [Hu0 Hu1].
  set (u := oracle r (cursor r)) in *.
  split.
  - exists (a + u * (b - a)). split; [reflexivity|]. split; [reflexivity|].
    assert (0 <= u * (b - a)) by (apply Qmult_le_0_compat; lra).
    assert (u * (b - a) < 1 * (b - a))
      by (apply Qmult_lt_compat_r; lra).
    split; lra.
  - set (span := inject_Z n - inject_Z m + 1).
    assert (Hspan : span == inject_Z (n - m + 1)).
    { unfold span, Z.sub. rewrite !inject_Z_plus, inject_Z_opp.
      change (inject_Z 1) with 1. ring. }
    assert (Hpos : 0 < span).
    { rewrite Hspan. change 0 with (inject_Z 0). rewrite <- Zlt_Qlt. lia. }
    exists (m + Qfloor (u * span))%Z. split.
    + unfold randi, bind, Math_random, ret, Math_floor. fold u. fold span.
      rewrite inject_Z_plus. reflexivity.
    + assert (H0 : (0 <= Qfloor (u * span))%Z).
      { change 0%Z with (Qfloor 0). apply Qfloor_resp_le.
        apply Qmult_le_0_compat; lra. }
      assert (H1 : (Qfloor (u * span) < n - m + 1)%Z).
      { rewrite Zlt_Qlt. rewrite <- Hspan.
        apply (Qle_lt_trans _ (u * span)); [apply Qfloor_le|].
        rewrite <- (Qmult_1_l span) at 2.
        apply Qmult_lt_compat_r; lra. }
      lia.
Qed.

(** The first draw of the demonstration source is 0: [rand(0.2, 0.9)] is
    0.2 and [randi(0, 24)] is 0. *)
Lemma rand_randi_in_range_witness :
  (exists v,
      rand 0.2 0.9 demo_rng = Some (v, advance demo_rng 1) /\
      v = 0.2 + oracle demo_rng (cursor demo_rng) * (0.9 - 0.2) /\
      0.2 <= v /\ v <= 0.9) /\
  (exists k : Z,
      randi (inject_Z 0) (inject_Z 24) demo_rng
      = Some (inject_Z k, advance demo_rng 1) /\
      (0 <= k <= 24)%Z).
Proof.
  apply (rand_randi_in_range 0.2 0.9 0 24 demo_rng).
  - apply (demo_rng_unit_interval 0).
  - lra.
  - lia.
  - lia.
  - lia.
Defined.

Lemma pickTile_sound (k : nat) (ts : list (option Tile)) :
  forall r : Rng,
    wp (pickTile k ts)
       (fun res r' =>
          oracle r' = oracle r /\
          (cursor r <= cursor r' <= cursor r + k)%nat /\
          match res with
          | Some img =>
              exists j, nth_error ts j
                        = Some (Some {| tile_ok := true;
                                        tile_img := Some img |})
          | None => True
          end) r.
Proof.
  induction k as [|k IH]; intro r; cbn [pickTile].
  - apply wp_ret. repeat split; auto; lia.
  - apply wp_bind, wp_randi.
    set (idx := 0 + Math_floor (oracle r (cursor r)
                                * (Qnat (length ts) - 1 - 0 + 1))).
    assert (Hretry :
      wp (pickTile k ts)
         (fun res r' =>
            oracle r' = oracle r /\
            (cursor r <= cursor r' <= cursor r + S k)%nat /\
            match res with
            | Some img =>
                exists j, nth_error ts j
                          = Some (Some {| tile_ok := true;
                                          tile_img := Some img |})
            | None => True
            end) (advance r 1)).
    { eapply wp_mono; [|apply IH]. cbv beta.
      intros res r' (Hor & Hcur & Hres). cbn [advance oracle cursor] in *.
      repeat split; auto; lia. }
    destruct (js_index ts idx) as [[[[|] [im|]]|]|] eqn:E; try exact Hretry.
    apply wp_ret. cbn [advance oracle cursor].
    split; [reflexivity|]. split; [lia|].
    apply js_index_nth in E. destruct E as (E & _). eexists. exact E.
Qed.

(** Property X12: [getRandomTileImage] always returns, after at most six
    random draws and after none when no tile slot exists yet; an image it
    returns is the image of a tile that has loaded successfully, never one
    of a failed or still missing tile. *)
Theorem getRandomTileImage_only_loaded (images : Images) (r : Rng) :
  exists res r',
    getRandomTileImage images r = Some (res, r') /\
    oracle r' = oracle r /\
    (cursor r <= cursor r' <= cursor r + 6)%nat /\
    match res with
    | Some img =>
        exists j, nth_error (tiles images) j
                  = Some (Some {| tile_ok := true; tile_img := Some img |})
    | None => True
    end /\
    match tiles images with
    | [] => res = None /\ r' = r
    | _ :: _ => True
    end.
Proof.
  unfold getRandomTileImage. destruct (tiles images) as [|t ts] eqn:E.
  - exists None, r. repeat split; auto; lia.
  - destruct (pickTile_sound 6 (t :: ts) r)
      as (res & r' & Hrun & Hor & Hcur & Hres).
    exists res, r'. repeat split; auto; lia.
Qed.

(** ** More on the particle field *)

Section ParticleMotion.

Variable sin : Q -> Q.
Variable PI : Q.
Variable getImageData : Img -> Q -> Q -> list Z.

(** Property X13: at a tick of a built portrait every particle keeps its
    target; while its delay has not elapsed it keeps its position and its
    velocity; otherwise its horizontal velocity becomes
    (vx + (tx - x) * 0.085) * 0.88 and is added to x, so that a particle at
    rest lands between where it was and its target, without passing it, and
    a particle at rest on its target stays there. *)
Theorem resting_particle_approaches_target (s : State) (sc : Scene)
  (images : Images) (fp : FacePortrait) (r : Rng) (i : nat) (p : Particle) :
  builtOnce fp = true ->
  nth_error (particles fp) i = Some p ->
  exists fp' r' p',
    facePortrait_update sin PI getImageData s sc images fp r
    = Some (fp', r') /\
    nth_error (particles fp') i = Some p' /\
    pa_tx p' = pa_tx p /\ pa_ty p' = pa_ty p /\
    (timeIn sc - pa_delay p < 0 ->
     pa_x p' = pa_x p /\ pa_y p' = pa_y p /\
     pa_vx p' = pa_vx p /\ pa_vy p' = pa_vy p) /\
    (0 <= timeIn sc - pa_delay p ->
     pa_vx p' = (pa_vx p + (pa_tx p - pa_x p) * 0.085) * 0.88 /\
     pa_x p' = pa_x p + pa_vx p' /\
     (pa_vx p == 0 -> pa_x p <= pa_tx p ->
      pa_x p <= pa_x p' /\ pa_x p' <= pa_tx p) /\
     (pa_vx p == 0 -> pa_tx p <= pa_x p ->
      pa_tx p <= pa_x p' /\ pa_x p' <= pa_x p)).
Proof.
  intros Hb Hp.
  destruct (wp_facePortrait_update sin PI getImageData s sc images fp r)
    as (fp' & r' & Hrun & _ & fp1 & r1 & new & Hbuild & _ & _ & _ & _ & _
        & _ & _ & Hsteps & _).
  rewrite (tryBuildTargets_built getImageData s images fp r Hb) in Hbuild.
  injection Hbuild as <- <-.
  destruct (Hsteps i p) as (p' & Hp' & Hstep).
  { rewrite nth_error_app1; [exact Hp|].
    apply nth_error_Some. congruence. }
  exists fp', r', p'. split; [exact Hrun|]. split; [exact Hp'|].
  destruct Hstep as (Htx & Hty & _ & _ & _ & _ & _ & Hmove).
  split; [exact Htx|]. split; [exact Hty|].
  destruct (Qltb (timeIn sc - pa_delay p) 0) eqn:E.
  - apply Qltb_lt in E. destruct Hmove as (Hx & Hy & Hvx & Hvy & _).
    split; [intros _; auto|]. intro Hgo. lra.
  - apply Qltb_ge in E. destruct Hmove as (Hvx & _ & Hx & _).
    split; [intro Hwait; lra|]. intros _.
    split; [exact Hvx|]. split; [exact Hx|].
    rewrite Hx, Hvx. split; intros Hrest Hside; split; lra.
Qed.

Lemma particle_step_alpha (s : State) (sc : Scene) (i : nat)
  (p p' : Particle) :
  particle_step sin s sc i p p' ->
  0 <= pa_a p -> pa_a p <= targetA (pa_lum p) ->
  pa_lum p' = pa_lum p /\ 0 <= pa_a p' /\ pa_a p' <= targetA (pa_lum p').
Proof.
  intros (_ & _ & _ & _ & Hlum & _ & _ & Hmove) H0 H1.
  split; [exact Hlum|]. rewrite Hlum.
  destruct (Qltb (timeIn sc - pa_delay p) 0).
  - destruct Hmove as (_ & _ & _ & _ & _ & Ha). rewrite Ha. auto.
  - destruct Hmove as (_ & _ & _ & _ & _ & Ha). rewrite Ha. unfold lerp.
    set (t := targetA (pa_lum p)) in *. split; lra.
Qed.

Lemma facePortrait_update_paired (s : State) (sc : Scene) (images : Images)
  (fp : FacePortrait) (r : Rng) :
  portrait_inv fp -> particles_paired fp ->
  wp (facePortrait_update sin PI getImageData s sc images fp)
     (fun fp' _ => particles_paired fp') r.
Proof.
  intros (Hrb & Hinv) Hpaired.
  eapply wp_mono; [|apply wp_facePortrait_update]. cbv beta.
  intros fp' r' (_ & fp1 & r1 & new & Hbuild & Htp & _ & _ & _ & _ & _
                 & Hlen' & Hsteps & Hnew).
  assert (Hpaired1 : particles_paired fp1).
  { destruct (tryBuildTargets_cases getImageData s images fp r)
      as (fp1' & r1' & Hbuild' & Hcase).
    rewrite Hbuild in Hbuild'. injection Hbuild' as <- <-.
    destruct Hcase as [[-> _]|(_ & _ & _ & Hnil & _)]; [exact Hpaired|].
    intros k p Hk. rewrite Hnil in Hk. destruct k; discriminate. }
  intros k p' Hk.
  assert (Hklt : (k < length (particles fp1 ++ new))%nat).
  { rewrite length_app, <- Hlen'. apply nth_error_Some. congruence. }
  destruct (nth_error (particles fp1 ++ new) k) as [p|] eqn:Hp.
  2: { apply nth_error_None in Hp. lia. }
  destruct (Hsteps k p Hp) as (p'' & Hp'' & Hstep).
  assert (p'' = p') by congruence. subst p''.
  rewrite Htp.
  destruct (Nat.lt_ge_cases k (length (particles fp1))) as [Hlt|Hge].
  - rewrite nth_error_app1 in Hp by exact Hlt.
    destruct (Hpaired1 k p Hp) as (t & Ht & Hlum & Ha0 & Ha1).
    destruct (particle_step_alpha s sc k p p' Hstep Ha0 Ha1)
      as (Hlum' & Ha0' & Ha1').
    exists t. repeat split; auto; congruence.
  - rewrite nth_error_app2 in Hp by exact Hge.
    destruct (Hnew _ p Hp) as (t & Ht & Hlum & Ha & _).
    replace (length (particles fp1) + (k - length (particles fp1)))%nat
      with k in Ht by lia.
    pose proof (targetA_range (pa_lum p)) as [Hr1 _].
    destruct (particle_step_alpha s sc k p p' Hstep) as (Hlum' & Ha0' & Ha1');
      [rewrite Ha; lra | rewrite Ha; lra |].
    exists t. repeat split; auto; congruence.
Qed.

Lemma portrait_ticks_paired (envs : list (State * Scene * Images)) :
  forall (fp : FacePortrait) (r : Rng),
    portrait_inv fp -> particles_paired fp ->
    wp (portrait_ticks sin PI getImageData envs fp)
       (fun fp' _ => portrait_inv fp' /\ particles_paired fp') r.
Proof.
  induction envs as [|[[s sc] im] envs IH]; intros fp r Hinv Hpaired;
    cbn [portrait_ticks].
  - apply wp_ret. auto.
  - apply wp_bind.
    eapply wp_mono;
      [|apply (wp_conj _ _ _ _
                 (facePortrait_update_inv sin PI getImageData s sc im fp r
                    Hinv)
                 (facePortrait_update_paired s sc im fp r Hinv Hpaired))].
    cbv beta. intros fp1 r1 ((_ & Hinv1 & _) & Hpaired1).
    apply IH; assumption.
Qed.

(** Property X14: at every point of a portrait cycle every particle belongs
    to the target point of its own index: it carries that point's luminance,
    and its alpha lies between 0 and the alpha its luminance calls for, which
    is at most 0.95. *)
Theorem particles_stay_paired (envs : list (State * Scene * Images))
  (r : Rng) :
  exists fp r',
    portrait_cycle sin PI getImageData envs r = Some (fp, r') /\
    forall k p,
      nth_error (particles fp) k = Some p ->
      exists t,
        nth_error (targetPoints fp) k = Some t /\
        pa_lum p = pt_lum t /\
        0 <= pa_a p /\ pa_a p <= targetA (pa_lum p) /\
        targetA (pa_lum p) <= 0.95.
Proof.
  destruct (portrait_ticks_paired envs facePortrait_init r
              facePortrait_init_inv)
    as (fp & r' & Hrun & _ & Hpaired).
  { intros k p Hk. destruct k; discriminate. }
  exists fp, r'. split; [exact Hrun|].
  intros k p Hk. destruct (Hpaired k p Hk) as (t & Ht & Hlum & Ha0 & Ha1).
  exists t. repeat split; auto. apply targetA_range.
Qed.

End ParticleMotion.

(** The demonstration particle rests at x = 500, past its delay at clock 1,
    with its target at x = 100: it moves left, and not past the target. *)
Lemma resting_particle_approaches_target_witness :
  exists fp' r' p',
    facePortrait_update flat 3 grey_pixels (demo_state 1000 800)
      {| name := FACE; timeIn := 1 |} no_images demo_portrait demo_rng
    = Some (fp', r') /\
    nth_error (particles fp') 0 = Some p' /\
    pa_tx p' = 100 /\
    (pa_tx p' <= pa_x p' /\ pa_x p' <= 500) /\
    (470 < pa_x p' /\ pa_x p' < 471).
Proof.
  destruct (resting_particle_approaches_target flat 3 grey_pixels
              (demo_state 1000 800) {| name := FACE; timeIn := 1 |}
              no_images demo_portrait demo_rng 0 demo_particle
              eq_refl eq_refl)
    as (fp' & r' & p' & Hrun & Hp' & Htx & _ & _ & Hgo).
  exists fp', r', p'. split; [exact Hrun|]. split; [exact Hp'|].
  split; [exact Htx|].
  destruct Hgo as (Hvx & Hx & _ & Hright); [cbn; lra|].
  cbn [demo_particle pa_vx pa_x pa_tx] in Hvx, Hx, Hright.
  split; [rewrite Htx; apply Hright; [reflexivity | cbn; lra]|].
  rewrite Hx, Hvx. split; lra.
Defined.

(** ** More on the image sampler *)

(** The rule of the stepping loop with the loop variable in view and a
    count of what the loop adds: [k] iterations suffice when
    [bound - v <= step * k], and each adds at most [c] to the measure. *)
Lemma wp_for_step_counted {St : Type} (inv : St -> Rng -> Prop)
  (mu : St -> nat) (c : nat) (body : Q -> St -> M St) (bound step v0 : Q) :
  1 <= step ->
  (forall v s r, v0 <= v -> v < bound -> inv s r ->
                 wp (body v s)
                    (fun s' r' => inv s' r' /\ (mu s' <= mu s + c)%nat) r) ->
  forall (fuel k : nat) (v : Q) (s : St) (r : Rng),
    v0 <= v ->
    bound - v <= Qnat fuel ->
    bound - v <= step * Qnat k ->
    inv s r ->
    wp (for_step fuel v bound step body s)
       (fun s' r' => inv s' r' /\ (mu s' <= mu s + c * k)%nat) r.
Proof.
  intros Hstep Hbody.
  assert (HS : forall n, Qnat (S n) == Qnat n + 1).
  { intro n. unfold Qnat. rewrite Nat2Z.inj_succ, <- Z.add_1_r, inject_Z_plus.
    reflexivity. }
  induction fuel as [|fuel IH]; intros k v s r Hv Hfuel Hk Hinv;
    cbn [for_step]; destruct (Qltb v bound) eqn:E;
    try (apply wp_ret; split; [exact Hinv | lia]).
  - apply Qltb_lt in E. change (Qnat 0) with 0 in Hfuel. lra.
  - apply Qltb_lt in E. destruct k as [|k].
    { change (Qnat 0) with 0 in Hk. lra. }
    apply wp_bind. eapply wp_mono; [|apply (Hbody v s r Hv E Hinv)].
    cbv beta. intros s1 r1 (Hinv1 & Hmu1).
    eapply wp_mono; [|apply (IH k (v + step) s1 r1)]; auto.
    + cbv beta. intros s2 r2 (Hinv2 & Hmu2). split; [exact Hinv2|]. lia.
    + lra.
    + rewrite HS in Hfuel. lra.
    + rewrite HS in Hk. lra.
Qed.

Lemma wp_sampleCell_lit (imgData : list Z) (side y x : Q)
  (points : list TargetPoint) (r0 r : Rng) :
  unit_interval r0 -> oracle r = oracle r0 ->
  0 <= y -> y < side -> 0 <= x -> x < side ->
  Forall (lit_inside side) points ->
  wp (sampleCell imgData side y x points)
     (fun pts r' =>
        (oracle r' = oracle r0 /\ Forall (lit_inside side) pts) /\
        (length pts <= length points + 1)%nat) r.
Proof.
  intros Hunit Hor Hy0 Hy1 Hx0 Hx1 Hlit. unfold sampleCell.
  destruct (js_index imgData _) as [cr|];
    [destruct (js_index imgData _) as [cg|];
     [destruct (js_index imgData _) as [cb|]|]|];
    apply wp_bind, wp_Math_random;
    try (apply wp_ret; cbn [advance oracle]; repeat split; auto; lia).
  set (lum := luminance (inject_Z cr) (inject_Z cg) (inject_Z cb)).
  destruct (Qltb (oracle r (cursor r)) (keepProb lum)) eqn:E;
    apply wp_ret; cbn [advance oracle].
  2: { repeat split; auto; lia. }
  apply Qltb_lt in E. rewrite Hor in E.
  destruct (Hunit (cursor r)) as [Hu0 _].
  assert (Hlum : 0.15 < lum).
  { apply Qnot_le_lt. intro Hd. rewrite (keepProb_dark lum Hd) in E. lra. }
  split; [split; [exact Hor|]|].
  - apply Forall_app. split; [exact Hlit|].
    constructor; [|constructor]. repeat split; assumption.
  - rewrite length_app. cbn. lia.
Qed.

(** The sampling step is at least 4 and covers the side in 100 steps. *)
Lemma sampling_step_covers (w : Z) :
  let side := Qmin 420 (inject_Z w * 0.58) in
  let step := clamp (Math_floor (side / 80)) 4 8 in
  4 <= step /\ step <= 8 /\ side <= step * Qnat 100.
Proof.
  intros side step.
  pose proof (clamp_bounds (Math_floor (side / 80)) 4 8 ltac:(lra))
    as [H4 H8]. fold step in H4, H8.
  split; [exact H4|]. split; [exact H8|].
  change (Qnat 100) with 100.
  assert (Hside : side <= 420) by (unfold side; qminmax; lra).
  destruct (Qlt_le_dec side 400) as [Hlt|Hge]; [lra|].
  assert (H5 : 5 <= Math_floor (side / 80)).
  { unfold Math_floor. change 5 with (inject_Z 5). rewrite <- Zle_Qle.
    change 5%Z with (Qfloor 5). apply Qfloor_resp_le.
    apply Qle_shift_div_l; lra. }
  assert (5 <= step) by (unfold step, clamp; qminmax; lra).
  lra.
Qed.

Lemma wp_samplePoints_lit (imgData : list Z) (w : Z) (r : Rng) :
  unit_interval r ->
  let side := Qmin 420 (inject_Z w * 0.58) in
  let step := clamp (Math_floor (side / 80)) 4 8 in
  wp (samplePoints imgData side side step)
     (fun pts r' =>
        oracle r' = oracle r /\ Forall (lit_inside side) pts /\
        (length pts <= 100 * 100)%nat) r.
Proof.
  intros Hunit side step.
  pose proof (sampling_step_covers w) as Hcov. cbv zeta in Hcov.
  fold side in Hcov. fold step in Hcov. destruct Hcov as (H4 & _ & Hcover).
  assert (Hstep : 1 <= step) by lra.
  pose proof (Qnat_to_nat_ceiling side) as Hfuel.
  assert (Hfuel0 : side - 0 <= Qnat (Z.to_nat (Qceiling side))) by lra.
  assert (Hcover0 : side - 0 <= step * Qnat 100) by lra.
  unfold samplePoints.
  set (inv := fun (pts : list TargetPoint) (r' : Rng) =>
                oracle r' = oracle r /\ Forall (lit_inside side) pts).
  assert (Hrow : forall y pts r1,
            0 <= y -> y < side -> inv pts r1 ->
            wp (for_step (Z.to_nat (Qceiling side)) 0 side step
                  (sampleCell imgData side y) pts)
               (fun pts' r' =>
                  inv pts' r' /\ (length pts' <= length pts + 100)%nat) r1).
  { intros y pts r1 Hy0 Hy1 Hinv.
    eapply wp_mono.
    2: { apply (wp_for_step_counted inv (@length TargetPoint) 1
                  (sampleCell imgData side y) side step 0 Hstep);
           [|apply Qle_refl | exact Hfuel0 | exact Hcover0 | exact Hinv].
         intros x pts' r2 Hx0 Hx1 (Hor2 & Hlit2).
         apply (wp_sampleCell_lit imgData side y x pts' r r2); assumption. }
    cbv beta. intros pts' r2 (Hinv2 & Hlen2). split; [exact Hinv2 | lia]. }
  eapply wp_mono.
  2: { apply (wp_for_step_counted inv (@length TargetPoint) 100
                _ side step 0 Hstep Hrow);
         [apply Qle_refl | exact Hfuel0 | exact Hcover0|].
       split; [reflexivity | constructor]. }
  cbv beta. intros pts r' ((Hor & Hlit) & Hlen).
  split; [exact Hor|]. split; [exact Hlit|]. cbn [length] in Hlen. lia.
Qed.

(** Property X15: with draws in [0, 1) and a positive viewport width, a
    build leaves between 600 and 10000 target points; every one of them,
    sampled or synthetic, lies inside the sampled square, of side
    min(420, 0.58 * width), and is brighter than 0.15, so that the alpha its
    particle eases to is at least 0.6325. *)
Theorem targets_bounded_bright_inside
  (getImageData : Img -> Q -> Q -> list Z) (s : State) (images : Images)
  (fp : FacePortrait) (faceImg : Img) (r : Rng) :
  builtOnce fp = false ->
  face_ok images = true ->
  face_img images = Some faceImg ->
  unit_interval r ->
  (0 < st_w s)%Z ->
  let side := Qmin 420 (inject_Z (st_w s) * 0.58) in
  exists fp' r',
    tryBuildTargets getImageData s images fp r = Some (fp', r') /\
    ready fp' = true /\
    (600 <= length (targetPoints fp') <= 100 * 100)%nat /\
    Forall (fun t =>
              (0 <= pt_x t /\ pt_x t < side) /\
              (0 <= pt_y t /\ pt_y t < side) /\
              0.15 < pt_lum t /\ 0.6325 <= targetA (pt_lum t))
           (targetPoints fp').
Proof.
  intros Hb Hok Himg Hunit Hw side.
  destruct (tryBuildTargets_builds getImageData s images fp faceImg r
              Hb Hok Himg)
    as (sampled & r1 & synth & r2 & Hsample & Hens & Hrun & Hor).
  fold side in Hsample, Hens, Hrun.
  pose proof (wp_inv _ _ _ _ _
                (wp_samplePoints_lit (getImageData faceImg side side)
                   (st_w s) r Hunit) Hsample)
    as (_ & Hlit & Hcount).
  fold side in Hlit.
  pose proof (wp_inv _ _ _ _ _ (wp_ensureMinimum _ _ sampled r1) Hens)
    as (synth' & Heq & Hcase).
  apply app_inv_head in Heq. subst synth'.
  eexists _, r2. split; [exact Hrun|]. cbn [ready targetPoints].
  split; [reflexivity|].
  assert (Hside : 0 < side).
  { unfold side.
    assert (1 <= inject_Z (st_w s))
      by (change 1 with (inject_Z 1); rewrite <- Zle_Qle; lia).
    qminmax; lra. }
  assert (Hu : forall n, 0 <= oracle r1 n /\ oracle r1 n < 1)
    by (intro n; rewrite Hor; apply Hunit).
  assert (Hfloor : forall u, 0 <= u -> u < 1 ->
            0 <= Math_floor (u * side) /\ Math_floor (u * side) < side).
  { intros u Hu0 Hu1. unfold Math_floor. split.
    - change 0 with (inject_Z 0). rewrite <- Zle_Qle.
      change 0%Z with (Qfloor 0). apply Qfloor_resp_le.
      apply Qmult_le_0_compat; lra.
    - apply (Qle_lt_trans _ (u * side)); [apply Qfloor_le|].
      rewrite <- (Qmult_1_l side) at 2.
      apply Qmult_lt_compat_r; assumption. }
  assert (Hsynth : Forall (lit_inside side) synth /\
                   (600 <= length (sampled ++ synth) <= 100 * 100)%nat).
  { rewrite length_app.
    destruct (length sampled <? 600)%nat eqn:E.
    - destruct Hcase as (Hlen & _ & Hpts). apply Nat.ltb_lt in E.
      split; [|lia].
      apply Forall_forall. intros t Hin.
      apply In_nth_error in Hin. destruct Hin as (k & Hk).
      destruct (Hpts k t Hk) as (Hx & Hy & Hlum).
      unfold lit_inside. rewrite Hx, Hy, Hlum.
      destruct (Hu (3 * k + 2 + cursor r1)%nat).
      split; [apply Hfloor; apply Hu|].
      split; [apply Hfloor; apply Hu | lra].
    - destruct Hcase as (-> & _). apply Nat.ltb_ge in E.
      split; [constructor | cbn; lia]. }
  destruct Hsynth as (Hsynth & Hlen).
  split; [exact Hlen|].
  assert (Hall : Forall (lit_inside side) (sampled ++ synth))
    by (apply Forall_app; split; assumption).
  eapply Forall_impl; [|exact Hall]. cbn beta.
  intros t (Hx & Hy & Hlum). repeat split; try apply Hx; try apply Hy; auto.
  unfold targetA, clamp. qminmax; lra.
Qed.

Lemma targets_bounded_bright_inside_witness :
  let side := Qmin 420 (inject_Z 50 * 0.58) in
  exists fp' r',
    tryBuildTargets grey_pixels (demo_state 50 800) face_only
      facePortrait_init demo_rng = Some (fp', r') /\
    ready fp' = true /\
    (600 <= length (targetPoints fp') <= 100 * 100)%nat /\
    Forall (fun t =>
              (0 <= pt_x t /\ pt_x t < side) /\
              (0 <= pt_y t /\ pt_y t < side) /\
              0.15 < pt_lum t /\ 0.6325 <= targetA (pt_lum t))
           (targetPoints fp').
Proof.
  apply (targets_bounded_bright_inside grey_pixels (demo_state 50 800)
           face_only facePortrait_init 1%nat demo_rng).
  - reflexivity.
  - reflexivity.
  - reflexivity.
  - apply (demo_rng_unit_interval 0).
  - cbn. lia.
Defined.

(** ** Progress of the sequencer *)

Lemma scene_after_progress (s : State) (sc : Scene) (d dmin : Q) :
  0 < dmin -> dmin <= d -> not_yet_left s sc ->
  not_yet_left s (scene_after s sc d) /\
  (name (scene_after s sc d) = FACE \/
   (dmin <= time_to_face dmin (scene_after s sc d) /\
    time_to_face dmin (scene_after s sc d)
    <= time_to_face dmin sc - dmin)).
Proof.
  intros Hmin Hd Hleft.
  pose proof (growTime_bounds (inject_Z (st_w s))) as [Hg1 Hg2].
  unfold scene_after, not_yet_left, time_to_face in *.
  destruct (name sc) eqn:Hname; cbn [name timeIn].
  - destruct (Qltb 2.4 (timeIn sc + d)) eqn:E; cbn [name timeIn].
    + split; [lra|]. right. split; lra.
    + apply Qltb_ge in E. split; [exact E|]. right. split; lra.
  - destruct (Qle_bool (growTime (inject_Z (st_w s))) (timeIn sc + d)) eqn:E;
      cbn [name timeIn].
    + split; [lra|]. right. split; lra.
    + assert (timeIn sc + d < growTime (inject_Z (st_w s))).
      { apply Qnot_le_lt. intro H. apply Qle_bool_iff in H. congruence. }
      split; [assumption|]. right. split; lra.
  - destruct (Qltb 1.2 (timeIn sc + d)) eqn:E; cbn [name timeIn].
    + split; [exact I|]. left. reflexivity.
    + apply Qltb_ge in E. split; [exact E|]. right. split; lra.
  - split; [exact I|]. left. reflexivity.
Qed.

Section Progress.

Variable sin : Q -> Q.
Variable PI : Q.
Variable getImageData : Img -> Q -> Q -> list Z.

Lemma ticks_progress (dmin : Q) (dts : list Q) :
  0 < dmin ->
  (forall d, In d dts -> dmin <= d) ->
  forall (wd : World) (r : Rng),
    not_yet_left (w_state wd) (w_scene wd) ->
    exists wd' r',
      ticks sin PI getImageData dts wd r = Some (wd', r') /\
      not_yet_left (w_state wd') (w_scene wd') /\
      (name (w_scene wd') = FACE \/
       (dmin <= time_to_face dmin (w_scene wd') /\
        time_to_face dmin (w_scene wd')
        <= time_to_face dmin (w_scene wd) - Qnat (length dts) * dmin) \/
       (dts = [] /\ wd' = wd)).
Proof.
  intro Hmin. induction dts as [|d dts IH]; intros Hall wd r Hleft.
  - exists wd, r. split; [reflexivity|]. split; [exact Hleft|]. auto.
  - destruct (update_step sin PI getImageData d wd r)
      as (wd1 & r1 & Hrun & _ & Hsc & Hst & _).
    assert (Hd : dmin <= d) by (apply Hall; left; reflexivity).
    destruct (scene_after_progress (w_state wd) (w_scene wd) d dmin
                Hmin Hd Hleft) as (Hleft1 & Hprog1).
    rewrite <- Hsc in Hleft1, Hprog1. rewrite <- Hst in Hleft1.
    destruct (IH (fun x Hx => Hall x (or_intror Hx)) wd1 r1 Hleft1)
      as (wd2 & r2 & Hrun2 & Hleft2 & Hprog2).
    exists wd2, r2. cbn [ticks]. unfold bind. rewrite Hrun.
    split; [exact Hrun2|]. split; [exact Hleft2|].
    assert (HS : Qnat (length (d :: dts)) == Qnat (length dts) + 1).
    { cbn [length]. unfold Qnat.
      rewrite Nat2Z.inj_succ, <- Z.add_1_r, inject_Z_plus. reflexivity. }
    destruct Hprog2 as [Hface|[(Hlow & Hdec)|(-> & ->)]].
    + left. exact Hface.
    + destruct Hprog1 as [Hface1|(Hlow1 & Hdec1)].
      * left.
        destruct (ticks_steps sin PI getImageData dts wd1 r1)
          as (wd2' & r2' & Hrun2' & _ & Hrank & _).
        rewrite Hrun2 in Hrun2'. injection Hrun2' as <- <-.
        rewrite Hface1 in Hrank.
        destruct (name (w_scene wd2)); cbn in Hrank; auto; lia.
      * right. left. split; [exact Hlow|]. rewrite HS. lra.
    + destruct Hprog1 as [Hface1|(Hlow1 & Hdec1)]; [left; exact Hface1|].
      right. left. split; [exact Hlow1|]. rewrite HS.
      change (Qnat (length [])) with 0. lra.
Qed.

(** Property X16: on a viewport at least 2 wide, from the Seed scene, ticks
    that each feed at least [dmin], a millisecond or more, have reached the
    Face scene once the time they feed at that rate amounts to 11 time units
    and three ticks more (the thresholds 2.4, at most 7.2 and 1.2 add up to
    10.8): the sequencer can be held up neither by the viewport nor by the
    images nor by the random source. *)
Theorem ticks_reach_face (dmin : Q) (dts : list Q) (wd : World) (r : Rng) :
  readable (w_state wd) ->
  0.001 <= dmin ->
  (forall d, In d dts -> dmin <= d) ->
  name (w_scene wd) = SEED ->
  0 <= timeIn (w_scene wd) ->
  timeIn (w_scene wd) <= 2.4 ->
  11 + 3 * dmin <= Qnat (length dts) * dmin ->
  exists wd' r',
    ticks sin PI getImageData dts wd r = Some (wd', r') /\
    name (w_scene wd') = FACE.
Proof.
  intros _ Hmin Hall Hname Ht0 Ht Hlong.
  assert (Hpos : 0 < dmin) by lra.
  destruct (ticks_progress dmin dts Hpos Hall wd r) as
    (wd' & r' & Hrun & _ & Hprog).
  { unfold not_yet_left. rewrite Hname. exact Ht. }
  exists wd', r'. split; [exact Hrun|].
  destruct Hprog as [Hface|[(Hlow & Hdec)|(-> & _)]]; [exact Hface| |].
  - unfold time_to_face at 2 in Hdec. rewrite Hname in Hdec. lra.
  - change (Qnat (length [])) with 0 in Hlong. lra.
Qed.

End Progress.

(** Three hundred and sixty ticks of 1/32 (11.25 time units) from the
    start of the Seed scene end in the Face scene. *)
Lemma ticks_reach_face_witness :
  exists wd' r',
    ticks flat 3 grey_pixels (repeat 0.03125 360) demo_world demo_rng
    = Some (wd', r') /\
    name (w_scene wd') = FACE.
Proof.
  apply (ticks_reach_face flat 3 grey_pixels 0.03125 (repeat 0.03125 360)
           demo_world demo_rng).
  - unfold readable. cbn. lia.
  - lra.
  - intros d Hd. apply repeat_spec in Hd. subst d. lra.
  - reflexivity.
  - cbn. lra.
  - cbn. lra.
  - rewrite repeat_length. vm_compute. discriminate.
Defined.

(** ** Bloom, fade-in and the tile array *)

Lemma ease_in_saturates (t : Q) :
  let e := smoothstep (clamp (t / 2.2) 0 1) in
  (0 <= e /\ e <= 1) /\ (t <= 0 -> e == 0) /\ (2.2 <= t -> e == 1).
Proof.
  cbv zeta.
  pose proof (clamp_bounds (t / 2.2) 0 1 ltac:(lra)) as [H0 H1].
  split; [apply smoothstep_range; assumption|].
  split; intro H.
  - assert (t / 2.2 <= 0).
    { apply Qle_shift_div_r; lra. }
    rewrite (clamp_low (t / 2.2) 0 1) by assumption.
    unfold smoothstep. ring.
  - assert (1 <= t / 2.2).
    { apply Qle_shift_div_l; lra. }
    rewrite (clamp_high (t / 2.2) 0 1) by (lra || assumption).
    unfold smoothstep. ring.
Qed.

(** Property X17: the bloom of the seed and the fade-in of the portrait are
    eased over the first 2.2 time units of their scene: each lies in [0, 1]
    after every tick and is 1 once the scene clock has reached 2.2.  As the
    Seed scene is left only once its clock exceeds 2.4, the seed is fully
    bloomed when the Tree scene begins. *)
Theorem bloom_and_fade_saturate (sin : Q -> Q) (PI : Q)
  (getImageData : Img -> Q -> Q -> list Z) (dt : Q) (wd : World) (r : Rng) :
  name (w_scene wd) = SEED \/ name (w_scene wd) = FACE ->
  exists wd' r',
    update sin PI getImageData dt wd r = Some (wd', r') /\
    let t := timeIn (w_scene wd) + dt in
    match name (w_scene wd) with
    | SEED =>
        (0 <= bloom (w_seed wd') /\ bloom (w_seed wd') <= 1) /\
        (2.2 <= t -> bloom (w_seed wd') == 1) /\
        (name (w_scene wd') = TREE -> bloom (w_seed wd') == 1)
    | FACE =>
        (0 <= fadeIn (w_face wd') /\ fadeIn (w_face wd') <= 1) /\
        (2.2 <= t -> fadeIn (w_face wd') == 1)
    | _ => True
    end.
Proof.
  intros Hscene.
  destruct (update_step sin PI getImageData dt wd r)
    as (wd' & r' & Hrun & _ & Hsc & _ & _ & _ & Hcase).
  exists wd', r'. split; [exact Hrun|]. cbv zeta.
  pose proof (ease_in_saturates (timeIn (w_scene wd) + dt)) as Hease.
  cbv zeta in Hease. destruct Hease as (Hrange & _ & Hsat).
  destruct (name (w_scene wd)) eqn:Hname.
  - assert (Hbloom : bloom (w_seed wd')
                     = smoothstep
                         (clamp ((timeIn (w_scene wd) + dt) / 2.2) 0 1)).
    { unfold update in Hrun. cbn [name timeIn] in Hrun. rewrite Hname in Hrun.
      unfold ret in Hrun. injection Hrun as <- _. reflexivity. }
    rewrite Hbloom. split; [exact Hrange|]. split; [exact Hsat|].
    intro Htree. apply Hsat. rewrite Hsc in Htree.
    unfold scene_after in Htree. rewrite Hname in Htree.
    destruct (Qltb 2.4 (timeIn (w_scene wd) + dt)) eqn:E;
      [|discriminate].
    apply Qltb_lt in E. lra.
  - exact I.
  - exact I.
  - destruct Hcase as (Hupd & _).
    pose proof (wp_inv _ _ _ _ _
                  (wp_facePortrait_update sin PI getImageData _ _ _ _ r)
                  Hupd)
      as (_ & fp1 & r1 & new & _ & _ & _ & _ & _ & Hfade & _).
    cbn [timeIn] in Hfade. rewrite Hfade. split; [exact Hrange | exact Hsat].
Qed.

Lemma bloom_and_fade_saturate_witness :
  exists wd' r',
    update flat 3 grey_pixels 2.5 demo_world demo_rng = Some (wd', r') /\
    (0 <= bloom (w_seed wd') /\ bloom (w_seed wd') <= 1) /\
    bloom (w_seed wd') == 1 /\ name (w_scene wd') = TREE.
Proof.
  destruct (bloom_and_fade_saturate flat 3 grey_pixels 2.5 demo_world
              demo_rng (or_introl eq_refl))
    as (wd' & r' & Hrun & Hrange & Hsat & _).
  exists wd', r'. split; [exact Hrun|]. split; [exact Hrange|].
  split; [apply Hsat; cbn; lra|].
  vm_compute in Hrun. injection Hrun as <- _. reflexivity.
Defined.

Lemma js_set_same {A : Type} (i : nat) (v : A) :
  forall arr : list (option A),
    nth_error (js_set arr i v) i = Some (Some v).
Proof.
  induction i as [|i IH]; intros [|a arr]; cbn; auto.
Qed.

Lemma js_set_other {A : Type} (i : nat) (v : A) :
  forall (arr : list (option A)) (j : nat),
    j <> i ->
    nth_error (js_set arr i v) j
    = match nth_error arr j with
      | Some x => Some x
      | None => if (j <? i)%nat then Some None else None
      end.
Proof.
  assert (Hnil : forall j, nth_error (@nil (option A)) j = None)
    by (intros [|j]; reflexivity).
  induction i as [|i IH]; intros arr j Hne;
    destruct arr as [|a arr], j as [|j]; cbn [js_set nth_error];
    try congruence; try reflexivity.
  - rewrite Hnil. reflexivity.
  - destruct (nth_error arr j); reflexivity.
  - rewrite (IH [] j) by congruence. rewrite Hnil. reflexivity.
  - rewrite (IH arr j) by congruence. reflexivity.
Qed.

Lemma js_set_length {A : Type} (i : nat) (v : A) :
  forall arr : list (option A),
    length (js_set arr i v) = Nat.max (length arr) (S i).
Proof.
  induction i as [|i IH]; intros [|a arr]; cbn [js_set length];
    try rewrite IH; cbn [length]; lia.
Qed.

(** Property X18: when the load of tile [i >= 1] completes, slot [i - 1] of
    the tile array holds its result, the array has grown to at least [i]
    slots, every other slot that held a result still holds it and the slots
    in between are empty; the ready count goes up by one exactly when the
    load succeeded, and the face image is unaffected. *)
Theorem tile_loaded_fills_slot (i j : nat) (res : LoadResult) (im : Images) :
  (1 <= i)%nat ->
  j <> (i - 1)%nat ->
  let im' := tile_loaded i res im in
  nth_error (tiles im') (i - 1)
  = Some (Some {| tile_ok := res_ok res; tile_img := res_img res |}) /\
  length (tiles im') = Nat.max (length (tiles im)) i /\
  nth_error (tiles im') j
  = match nth_error (tiles im) j with
    | Some x => Some x
    | None => if (j <? i - 1)%nat then Some None else None
    end /\
  tilesReadyCount im'
  = (tilesReadyCount im + if res_ok res then 1 else 0)%nat /\
  face_ok im' = face_ok im /\ face_img im' = face_img im.
Proof.
  intros Hi Hj im'. unfold im', tile_loaded. cbn [tiles tilesReadyCount
    face_ok face_img].
  split; [apply js_set_same|].
  split; [rewrite js_set_length; lia|].
  split; [apply js_set_other, Hj|].
  split; [destruct (res_ok res); lia|].
  split; reflexivity.
Qed.

Lemma tile_loaded_fills_slot_witness :
  let im' := tile_loaded 3 {| res_ok := true; res_img := Some 7%nat |}
               no_images in
  nth_error (tiles im') (3 - 1)
  = Some (Some {| tile_ok := true; tile_img := Some 7%nat |}) /\
  length (tiles im') = Nat.max (length (tiles no_images)) 3 /\
  nth_error (tiles im') 0
  = match nth_error (tiles no_images) 0 with
    | Some x => Some x
    | None => if (0 <? 3 - 1)%nat then Some None else None
    end /\
  tilesReadyCount im' = (tilesReadyCount no_images + 1)%nat /\
  face_ok im' = face_ok no_images /\ face_img im' = face_img no_images.
Proof.
  apply (tile_loaded_fills_slot 3 0
           {| res_ok := true; res_img := Some 7%nat |} no_images); lia.
Defined.

(** ** What is drawn of the tree, and how the portrait fills *)

Section TreeShown.

Variable cos sin : Q -> Q.
Variable PI : Q.
Variable getImageData : Img -> Q -> Q -> list Z.

Lemma update_tree_shown (dt : Q) (wd : World) (r : Rng) :
  tree_shown wd ->
  wp (update sin PI getImageData dt wd) (fun wd' _ => tree_shown wd') r.
Proof.
  intro Hshown. unfold update, tree_shown in *. cbn [name timeIn].
  destruct (name (w_scene wd)) eqn:Hname.
  - apply wp_ret. cbn [w_scene w_tree].
    destruct (Qltb _ _); cbn [name switchTo]; auto.
  - apply wp_ret. cbn [w_scene w_tree].
    destruct (grown (tree_update _ _ _)) eqn:Hg; cbn [name switchTo];
      [|exact I].
    split; [reflexivity|].
    cbn [tree_update grown progress] in *. apply Qle_bool_iff in Hg.
    set (t := clamp _ 0 1) in *.
    assert (Hle : t <= 1) by (apply clamp_bounds; lra).
    assert (Ht : t == 1) by lra.
    rewrite Ht. unfold smoothstep. ring.
  - apply wp_ret. unfold with_scene. cbn [w_scene w_tree].
    destruct (Qltb _ _); cbn [name switchTo]; auto.
  - apply wp_bind. eapply wp_mono; [|apply wp_facePortrait_update].
    cbv beta. intros fp' r' _. apply wp_ret. cbn [w_scene w_tree name].
    exact Hshown.
Qed.

Lemma run_tree_shown (es : list Event) :
  forall (wd : World) (r : Rng),
    tree_shown wd ->
    wp (run cos sin PI getImageData es wd) (fun wd' _ => tree_shown wd') r.
Proof.
  induction es as [|e es IH]; intros wd r Hshown; cbn [run].
  - apply wp_ret. exact Hshown.
  - apply wp_bind.
    apply (wp_mono _ (fun wd' _ => tree_shown wd')); [intros; apply IH; auto|].
    destruct e; cbn [handle].
    + unfold frame. destruct (st_running (w_state wd)); cbn [negb].
      * apply update_tree_shown. exact Hshown.
      * apply wp_ret. exact Hshown.
    + apply wp_ret. exact Hshown.
    + apply wp_ret. exact Hshown.
    + apply wp_ret. exact Hshown.
    + unfold resetAll. apply wp_bind.
      eapply wp_mono; [|apply (tree_init_ok cos sin PI)]. cbv beta.
      intros tr r' (_ & _ & Hg & Hp & _). apply wp_ret.
      unfold tree_shown. cbn. auto.
Qed.

(** Property X19: at every moment of a run the drawing of the tree matches
    the scene: nothing of it is drawn in the Seed scene, and from the Pause
    scene on, through the whole Face scene, the tree is grown and all its
    segments are drawn. *)
Theorem tree_drawn_by_scene (innerWidth innerHeight devicePixelRatio t : Q)
  (es : list Event) (r : Rng) :
  exists wd r',
    (wd0 <- boot cos sin PI innerWidth innerHeight devicePixelRatio t ;;
     run cos sin PI getImageData es wd0) r = Some (wd, r') /\
    match name (w_scene wd) with
    | SEED => revealCount (w_tree wd) = 0%Z
    | TREE => True
    | PAUSE | FACE =>
        grown (w_tree wd) = true /\
        revealCount (w_tree wd) = Z.of_nat (length (segments (w_tree wd)))
    end.
Proof.
  enough (H : wp (wd0 <- boot cos sin PI innerWidth innerHeight
                           devicePixelRatio t ;;
                  run cos sin PI getImageData es wd0)
                (fun wd _ => tree_shown wd) r).
  { destruct H as (wd & r' & Hrun & Hshown). exists wd, r'.
    split; [exact Hrun|]. unfold tree_shown in Hshown.
    assert (Hall : grown (w_tree wd) = true /\ progress (w_tree wd) == 1 ->
                   grown (w_tree wd) = true /\
                   revealCount (w_tree wd)
                   = Z.of_nat (length (segments (w_tree wd)))).
    { intros (Hg & Hp). split; [exact Hg|]. unfold revealCount.
      rewrite (Qfloor_comp _ (Qnat (length (segments (w_tree wd)))))
        by (rewrite Hp; ring).
      apply Qfloor_Z. }
    destruct (name (w_scene wd)); auto.
    destruct Hshown as (_ & Hp). unfold revealCount. rewrite Hp.
    rewrite (Qfloor_comp _ 0); [reflexivity | ring]. }
  apply wp_bind. unfold boot, resetAll. apply wp_bind.
  eapply wp_mono; [|apply (tree_init_ok cos sin PI)]. cbv beta.
  intros tr r0 (_ & _ & Hg & Hp & _). apply wp_ret.
  apply run_tree_shown. unfold tree_shown. cbn. auto.
Qed.

End TreeShown.

Section Filling.

Variable sin : Q -> Q.
Variable PI : Q.
Variable getImageData : Img -> Q -> Q -> list Z.

(** Property X20: at every tick of a portrait cycle, once the portrait is
    ready the particle count after the tick is exactly the smaller of the
    number of target points and the count before the tick plus one batch
    (70 on viewports narrower than 520, else 120): a full batch is spawned
    until fewer remain.  While the portrait is not ready there is no
    particle. *)
Theorem spawn_fills_by_full_batches
  (envs : list (State * Scene * Images)) (s : State) (sc : Scene)
  (images : Images) (r : Rng) :
  exists fp r1 fp' r2,
    portrait_cycle sin PI getImageData envs r = Some (fp, r1) /\
    facePortrait_update sin PI getImageData s sc images fp r1
    = Some (fp', r2) /\
    length (particles fp')
    = if ready fp'
      then Nat.min (length (targetPoints fp'))
                   (length (particles fp)
                    + if (st_w s <? 520)%Z then 70 else 120)
      else 0%nat.
Proof.
  destruct (portrait_ticks_inv sin PI getImageData envs facePortrait_init r
              facePortrait_init_inv)
    as (fp & r1 & Hrun & _ & Hrb & Hinv).
  destruct (wp_facePortrait_update sin PI getImageData s sc images fp r1)
    as (fp' & r2 & Hrun' & _ & fp1 & r1' & new & Hbuild & Htp & Hrd & _ & _
        & _ & Hlen & Hlen' & _).
  exists fp, r1, fp', r2. split; [exact Hrun|]. split; [exact Hrun'|].
  rewrite Hlen', Hlen, Hrd, Htp. fold (batchSize s).
  destruct (tryBuildTargets_cases getImageData s images fp r1)
    as (fp1' & r1'' & Hbuild' & Hcase).
  rewrite Hbuild in Hbuild'. injection Hbuild' as <- <-.
  destruct Hcase as [[-> ->]|(Hb & Hr1 & _ & Hp1 & _)].
  - rewrite Hrb. destruct (builtOnce fp).
    + destruct Hinv as (_ & Hle). lia.
    + destruct Hinv as (_ & ->). reflexivity.
  - rewrite Hb in Hinv. destruct Hinv as (_ & Hp).
    rewrite Hr1, Hp1, Hp. cbn [length]. lia.
Qed.

End Filling.

Section Spawning.

Variable PI : Q.

Lemma wp_spawnOne_starts (s : State) (images : Images) (i : nat)
  (fp : FacePortrait) (p : TargetPoint) (r : Rng) :
  unit_interval r ->
  nth_error (targetPoints fp) i = Some p ->
  wp (spawnOne PI s images i fp)
     (fun fp' r' =>
        oracle r' = oracle r /\
        exists q, fp' = push_particle q fp /\ starts_below s fp q) r.
Proof.
  intros Hunit Hp. unfold spawnOne. rewrite Hp.
  apply wp_bind, wp_rand, wp_bind, wp_rand, wp_bind, wp_rand, wp_bind,
    wp_rand, wp_bind, wp_rand, wp_bind.
  eapply wp_mono; [|apply wp_getRandomTileImage]. cbv beta.
  intros im r1 Hor. apply wp_bind, wp_rand, wp_ret.
  cbn [advance oracle cursor Nat.add] in *.
  split; [exact Hor|].
  eexists. split; [reflexivity|].
  unfold starts_below.
  cbn [pa_a pa_vx pa_vy pa_x pa_y pa_size pa_rotV pa_delay].
  destruct (Hunit (cursor r)) as [Ha0 Ha1].
  destruct (Hunit (S (cursor r))) as [Hb0 Hb1].
  destruct (Hunit (S (S (cursor r)))) as [Hc0 Hc1].
  destruct (Hunit (S (S (S (S (cursor r)))))) as [He0 He1].
  assert (Hf : 0 <= oracle r1 (cursor r1) /\ oracle r1 (cursor r1) < 1)
    by (rewrite Hor; apply Hunit).
  destruct Hf as [Hf0 Hf1].
  set (base := clamp (inject_Z (width (off fp)) / 40) 7 14).
  assert (Hbase : 7 <= base /\ base <= 14) by (apply clamp_bounds; lra).
  set (k := 0.70 + oracle r (cursor r) * (1.25 - 0.70)).
  assert (Hk : 0.70 <= k /\ k <= 1.25) by (unfold k; split; lra).
  assert (Hsize : base * 0.70 <= base * k /\ base * k <= base * 1.25).
  { destruct Hbase, Hk. rewrite !(Qmult_comm base).
    split; apply Qmult_le_compat_r; lra. }
  repeat split; try reflexivity; try apply Hsize; try apply Hbase; lra.
Qed.

(** Property X21: with draws in [0, 1), [spawnBatch] returns, keeps the
    particles there are and the target points, and appends one particle for
    each target point that has none yet, up to [maxNew] of them (none if the
    portrait is not ready).  Each new particle is transparent and at rest;
    it is placed at most 30 from the centre line of the viewport and at
    most 40 below 0.62 of its height; its size is between 0.70 and 1.25
    times the base size clamp(portraitW / 40, 7, 14), its spin within 0.012
    per tick and its start delay at most 1.2. *)
Theorem spawned_particles_start_below (maxNew : nat) (s : State)
  (images : Images) (fp : FacePortrait) (r : Rng) :
  unit_interval r ->
  exists fp' r' new,
    spawnBatch PI maxNew s images fp r = Some (fp', r') /\
    particles fp' = particles fp ++ new /\
    targetPoints fp' = targetPoints fp /\
    length new
    = (if ready fp
       then Nat.min (length (targetPoints fp))
                    (length (particles fp) + maxNew)
            - length (particles fp)
       else 0)%nat /\
    (length new <= maxNew)%nat /\
    Forall (starts_below s fp) new.
Proof.
  intro Hunit.
  enough (H : wp (spawnBatch PI maxNew s images fp)
                (fun fp' r' =>
                   exists new,
                     particles fp' = particles fp ++ new /\
                     targetPoints fp' = targetPoints fp /\
                     length new
                     = (if ready fp
                        then Nat.min (length (targetPoints fp))
                                     (length (particles fp) + maxNew)
                             - length (particles fp)
                        else 0)%nat /\
                     (length new <= maxNew)%nat /\
                     Forall (starts_below s fp) new) r).
  { destruct H as (fp' & r' & Hrun & new & H). exists fp', r', new. auto. }
  unfold spawnBatch. destruct (ready fp); cbn [negb].
  2: { apply wp_ret. exists []. rewrite app_nil_r.
       repeat split; auto; cbn; lia. }
  destruct (length (targetPoints fp) <=? length (particles fp))%nat eqn:E.
  { apply wp_ret. exists []. rewrite app_nil_r. apply Nat.leb_le in E.
    repeat split; auto; cbn; lia. }
  apply Nat.leb_gt in E.
  set (start := length (particles fp)).
  set (end_ := Nat.min (length (targetPoints fp)) (start + maxNew)).
  set (inv := fun (j : nat) (fp' : FacePortrait) (r' : Rng) =>
    oracle r' = oracle r /\ targetPoints fp' = targetPoints fp /\
    off fp' = off fp /\
    exists new,
      particles fp' = particles fp ++ new /\
      (start + length new = j)%nat /\
      Forall (starts_below s fp) new).
  apply (wp_mono _ (inv (start + (end_ - start))%nat)).
  { intros fp' r' (_ & Htp & _ & new & Hps & Hlen & Hnew).
    exists new. unfold end_ in Hlen. repeat split; auto; lia. }
  apply wp_for_count.
  { split; [reflexivity|]. split; [reflexivity|]. split; [reflexivity|].
    exists []. rewrite app_nil_r. repeat split; auto; cbn; lia. }
  intros j fp1 r1 Hj (Hor & Htp & Hoff & new & Hps & Hlen & Hnew).
  destruct (nth_error (targetPoints fp) j) as [p|] eqn:Hp.
  2: { apply nth_error_None in Hp. unfold end_ in Hj. lia. }
  eapply wp_mono.
  2: { apply (wp_spawnOne_starts s images j fp1 p r1);
         [apply (unit_interval_oracle r); assumption | congruence]. }
  cbv beta. intros fp2 r2 (Hor2 & q & -> & Hq).
  split; [congruence|]. split; [exact Htp|]. split; [exact Hoff|].
  exists (new ++ [q]). cbn [push_particle particles].
  split; [rewrite Hps; symmetry; apply app_assoc|].
  split; [rewrite length_app; cbn; lia|].
  apply Forall_app. split; [exact Hnew|].
  constructor; [|constructor].
  unfold starts_below in *. rewrite <- Hoff. exact Hq.
Qed.

End Spawning.

(** A portrait with three target points and one particle gets its two
    missing particles, 400 wide and 800 high: each starts between x = 170
    and x = 230 and between y = 496 and y = 536. *)
Lemma spawned_particles_start_below_witness :
  exists fp' r' new,
    spawnBatch 3 70 (demo_state 400 800) no_images filling_portrait demo_rng
    = Some (fp', r') /\
    particles fp' = particles filling_portrait ++ new /\
    targetPoints fp' = targetPoints filling_portrait /\
    length new = 2%nat /\
    (length new <= 70)%nat /\
    Forall (starts_below (demo_state 400 800) filling_portrait) new.
Proof.
  apply (spawned_particles_start_below 3 70 (demo_state 400 800) no_images
           filling_portrait demo_rng).
  apply (demo_rng_unit_interval 0).
Defined.

(** The two particles that batch spawns, evaluated: the first draws are 0
    and 0.37 for the first particle's size and horizontal offset. *)
Example two_particles_spawned :
  exists fp' r' q1 q2,
    spawnBatch 3 70 (demo_state 400 800) no_images filling_portrait demo_rng
    = Some (fp', r') /\
    particles fp' = [demo_particle; q1; q2] /\
    pa_lum q1 == 0.25 /\ pa_lum q2 == 0.75 /\
    pa_a q1 == 0 /\ pa_a q2 == 0 /\
    (170 <= pa_x q1 /\ pa_x q1 <= 230) /\
    (170 <= pa_x q2 /\ pa_x q2 <= 230) /\
    (496 <= pa_y q1 /\ pa_y q1 <= 536) /\
    (496 <= pa_y q2 /\ pa_y q2 <= 536).
Proof.
  eexists _, _, _, _. split; [vm_compute; reflexivity|].
  split; [reflexivity|].
  cbn [pa_lum pa_a pa_x pa_y].
  repeat split; try reflexivity; vm_compute; discriminate.
Qed.

(** ** Pixels outside the pixel array *)

Lemma js_index_outside {A : Type} (arr : list A) (i : Q) :
  is_integer i = false \/ i < 0 \/ Qnat (length arr) <= i ->
  js_index arr i = None.
Proof.
  unfold js_index. intros [H|[H|H]].
  - rewrite H. reflexivity.
  - assert (E : Qle_bool 0 i = false).
    { destruct (Qle_bool 0 i) eqn:E; [|reflexivity].
      apply Qle_bool_iff in E. lra. }
    rewrite E, andb_false_r. reflexivity.
  - destruct (is_integer i && Qle_bool 0 i) eqn:E; [|reflexivity].
    apply andb_true_iff in E. destruct E as [E1 E2].
    unfold is_integer, Math_floor in E1. apply Qeq_bool_iff in E1.
    apply Qle_bool_iff in E2.
    apply nth_error_None.
    assert (Hle : (Z.of_nat (length arr) <= Qfloor i)%Z).
    { rewrite Zle_Qle. fold (Qnat (length arr)). lra. }
    lia.
Qed.

(** Property X22: a grid cell whose pixel index (y * portraitW + x) * 4 is
    not a whole number, as happens below the first row when the portrait
    side is not an integer, or whose blue component lies past the end of
    the pixel array, is never kept: its luminance is not a number, the draw
    is taken and the point list is left as it is. *)
Theorem sampleCell_skips_missing_pixels (imgData : list Z)
  (portraitW y x : Q) (points : list TargetPoint) (r : Rng) :
  let i := (y * portraitW + x) * 4 in
  is_integer i = false \/ i < 0 \/ Qnat (length imgData) <= i + 2 ->
  sampleCell imgData portraitW y x points r = Some (points, advance r 1).
Proof.
  intros i H. unfold sampleCell. fold i.
  destruct H as [H|[H|H]].
  - rewrite (js_index_outside imgData i) by (left; exact H).
    reflexivity.
  - rewrite (js_index_outside imgData i) by (right; left; exact H).
    reflexivity.
  - rewrite (js_index_outside imgData (i + 2)) by (right; right; exact H).
    destruct (js_index imgData i); [|reflexivity].
    destruct (js_index imgData (i + 1)); reflexivity.
Qed.

Lemma sampleCell_skips_missing_pixels_witness :
  sampleCell (grey_pixels 1%nat 29 29) 29.58 4 0 [] demo_rng
  = Some ([], advance demo_rng 1).
Proof.
  apply (sampleCell_skips_missing_pixels (grey_pixels 1%nat 29 29)
           29.58 4 0 [] demo_rng).
  left. vm_compute. reflexivity.
Defined.

(** On a viewport 51 wide the portrait side is 29.58: of the 64 grid cells
    of a uniformly bright image only the 8 of the first row are sampled,
    and the fallback supplies the rest of the 908 target points. *)
Example fractional_side_samples_first_row_only :
  exists fp r,
    tryBuildTargets grey_pixels (demo_state 51 800) face_only
      facePortrait_init demo_rng = Some (fp, r) /\
    length (targetPoints fp) = 908%nat /\
    map pt_y (firstn 8 (targetPoints fp)) = repeat 0 8.
Proof.
  eexists _, _. split; [vm_compute; reflexivity|].
  split; reflexivity.
Qed.
